(** * Telegram webhook handler (netlify/functions/telegram-webhook.js)

    A shallow embedding of the webhook: the in-memory rate limiter, the
    Airtable helpers, the command router and the Netlify entry point,
    followed by the properties of the specification that concern them.

    Conventions of the embedding.
    - A JavaScript string is a [string]: the sequence of bytes of its
      UTF-8 encoding.  The fixed reply texts are the literals of the source
      file.  White space is that of JavaScript, which is what [\s] matches
      and [trim] removes: the six characters of ASCII and nineteen
      characters beyond it, U+00A0 and U+FEFF among them, each recognised
      by the bytes of its encoding.  [toLowerCase] lower-cases the letters
      of ASCII and the Kelvin sign; see [JsString.toLowerCase] for the
      other characters.
    - Telegram identifiers are integers ([Z]), as the Bot API sends them;
      [None] stands for [null] or [undefined], and an [option string]
      field is falsy when it is absent or empty.  [String(n)] is the text
      JavaScript prints for the number that [JSON.parse] reads from the
      numeral [n]: the nearest double, in exponent notation from 1e21.
    - [Date.now()] is an argument [now] of the functions that read the
      clock, in milliseconds.
    - Everything reached through [fetch] (the Telegram Bot API and the
      Airtable REST API) is the external world: a state [World] and a
      function [fetch] from a request and a world to an outcome and a new
      world.  The requests that were sent are recorded, oldest first, in
      the [trace] of the state.  [console.log] and [console.error] have no
      effect on what is modelled. *)

From Stdlib Require Import ZArith Ascii String List Bool Lia.
From Stdlib Require Import DecimalString.
From stdpp Require Import base option list gmap strings fin_maps.

Local Open Scope string_scope.
Local Open Scope list_scope.
Local Open Scope Z_scope.

(** ** JavaScript strings *)

Module JsString.

Definition code (c : ascii) : N := N_of_ascii c.

(** The string of the given bytes. *)
Fixpoint of_bytes (bs : list N) : string :=
  match bs with
  | [] => EmptyString
  | b :: rest => String (ascii_of_N b) (of_bytes rest)
  end.

(** The UTF-8 encoding of a code point below U+10000. *)
Definition utf8 (cp : N) : string :=
  (if cp <? 128 then of_bytes [cp]
   else if cp <? 2048 then of_bytes [192 + cp / 64; 128 + cp mod 64]
   else of_bytes [224 + cp / 4096; 128 + (cp / 64) mod 64; 128 + cp mod 64])%N.

(** The code points of the white space of JavaScript, which is what [\s]
    matches and what [trim] removes (WhiteSpace and LineTerminator of
    ECMAScript): TAB, LF, VT, FF, CR, SPACE, U+00A0, U+1680, U+2000 to
    U+200A, U+2028, U+2029, U+202F, U+205F, U+3000 and U+FEFF. *)
Definition WHITE_SPACE_CODES : list N :=
  [9; 10; 11; 12; 13; 32; 160; 5760;
   8192; 8193; 8194; 8195; 8196; 8197; 8198; 8199; 8200; 8201; 8202;
   8232; 8233; 8239; 8287; 12288; 65279]%N.

(** The white-space characters, as texts. *)
Definition WHITE_SPACE : list string := List.map utf8 WHITE_SPACE_CODES.

(** [s] without the prefix [w], when it has that prefix. *)
Fixpoint strip_prefix (w s : string) : option string :=
  match w with
  | EmptyString => Some s
  | String a w' =>
      match s with
      | String b s' => if Ascii.eqb a b then strip_prefix w' s' else None
      | EmptyString => None
      end
  end.

Fixpoint strip_first (ws : list string) (s : string) : option string :=
  match ws with
  | [] => None
  | w :: rest =>
      match strip_prefix w s with
      | Some r => Some r
      | None => strip_first rest s
      end
  end.

(** What follows the white-space character [s] starts with, if it starts
    with one. *)
Definition ws_prefix (s : string) : option string := strip_first WHITE_SPACE s.

(** [toLowerCase] on one byte: [A]..[Z] move to [a]..[z]. *)
Definition lower_char (c : ascii) : ascii :=
  if ((65 <=? code c) && (code c <=? 90))%N
  then ascii_of_N (code c + 32) else c.

(** [s.toLowerCase()].  The letters of ASCII are lower-cased, and so is the
    Kelvin sign U+212A, the one character outside ASCII that JavaScript
    lower-cases to a text of ASCII, [k].  Every other character keeps its
    bytes: JavaScript lower-cases some of them, to texts that are not
    ASCII, so the result is equal to a text of ASCII exactly when the
    result of JavaScript is; the program only compares the result with
    such texts, and uses it only after the comparison succeeded. *)
Fixpoint toLowerCase (s : string) : string :=
  match s with
  | EmptyString => EmptyString
  | String c s' =>
      match s' with
      | String c2 (String c3 s'') =>
          if ((code c =? 226) && (code c2 =? 132) && (code c3 =? 170))%N
          then String "k" (toLowerCase s'')
          else String (lower_char c) (toLowerCase s')
      | _ => String (lower_char c) (toLowerCase s')
      end
  end.

(** [s.trimStart()]: white-space characters are removed from the front
    while there is one; [n] bounds the number of removals. *)
Fixpoint trimStart_upto (n : nat) (s : string) : string :=
  match n with
  | O => s
  | S n' =>
      match ws_prefix s with
      | Some r => trimStart_upto n' r
      | None => s
      end
  end.

Definition trimStart (s : string) : string := trimStart_upto (String.length s) s.

(** A text of white space only. *)
Definition blank (s : string) : bool :=
  match trimStart s with
  | EmptyString => true
  | _ => false
  end.

(** [s.trimEnd()]: the text is cut where only white space follows. *)
Fixpoint trimEnd (s : string) : string :=
  match s with
  | EmptyString => EmptyString
  | String c s' => if blank s then EmptyString else String c (trimEnd s')
  end.

(** [s.trim()]. *)
Definition trim (s : string) : string := trimEnd (trimStart s).

(** [s.split(/\s+/)].  [cur] is the token being read, [in_ws] tells that
    a separator has just been read, [n] bounds the number of steps.  A
    separator at either end yields an empty token there, and the empty
    string yields one empty token, as in JavaScript. *)
Fixpoint split_upto (n : nat) (s : string) (cur : string) (in_ws : bool)
  : list string :=
  match n with
  | O => [cur]
  | S n' =>
      match s with
      | EmptyString => [cur]
      | String c s' =>
          match ws_prefix s with
          | Some r =>
              if in_ws then split_upto n' r cur true
              else cur :: split_upto n' r EmptyString true
          | None => split_upto n' s' (cur +:+ String c EmptyString) false
          end
      end
  end.

Definition split_go (s : string) (cur : string) (in_ws : bool) : list string :=
  split_upto (String.length s) s cur in_ws.

Definition split_ws (s : string) : list string := split_go s EmptyString false.

(** [xs.join(sep)]. *)
Fixpoint join (sep : string) (xs : list string) : string :=
  match xs with
  | [] => EmptyString
  | [x] => x
  | x :: rest => x +:+ sep +:+ join sep rest
  end.

(** [s.split(',')]. *)
Fixpoint split_comma_go (s : string) (cur : string) : list string :=
  match s with
  | EmptyString => [cur]
  | String c s' =>
      if (code c =? 44)%N then cur :: split_comma_go s' EmptyString
      else split_comma_go s' (cur +:+ String c EmptyString)
  end.

Definition split_comma (s : string) : list string := split_comma_go s EmptyString.

(** [s.startsWith('/')]. *)
Definition startsWith_slash (s : string) : bool :=
  match s with
  | String c _ => (code c =? 47)%N
  | EmptyString => false
  end.

(** Truthiness of a string value that may be absent. *)
Definition truthy (o : option string) : bool :=
  match o with
  | Some (String _ _) => true
  | _ => false
  end.

(** [a || b] on string values that may be absent. *)
Definition or_else (a b : option string) : option string :=
  if truthy a then a else b.

(** [a || 'literal']. *)
Definition or_lit (a : option string) (d : string) : string :=
  match a with
  | Some (String c s) => String c s
  | _ => d
  end.

(** [xs.includes(x)] on an array of strings. *)
Definition includes (xs : list string) (x : string) : bool :=
  existsb (String.eqb x) xs.

(** The decimal digits of an integer. *)
Definition decimal (n : Z) : string := NilZero.string_of_int (Z.to_int n).

(** The Number value of a positive integer: the nearest double, a tie
    going to the even significand; [None] is [Infinity]. *)
Definition nearest_double (m : Z) : option Z :=
  let bits := Z.log2 m + 1 in
  if bits <=? 53 then Some m
  else
    let e := bits - 53 in
    let q := Z.shiftr m e in
    let r := m - Z.shiftl q e in
    let half := Z.shiftl 1 (e - 1) in
    let q' := if (half <? r) || ((r =? half) && Z.odd q) then q + 1 else q in
    let x := Z.shiftl q' e in
    if x <? 2 ^ 1024 then Some x else None.

Definition rounds_to (v x : Z) : bool :=
  match nearest_double v with
  | Some y => y =? x
  | None => false
  end.

(** The value with [k] significant digits that Number::toString prints
    for the double [x] of [n] digits, if one of them reads back as [x]:
    the closest to [x], the even one of two equally close. *)
Definition with_digits (x n k : Z) : option Z :=
  let p := 10 ^ (n - k) in
  let lo := x / p in
  let v1 := lo * p in
  let v2 := (lo + 1) * p in
  match rounds_to v1 x, rounds_to v2 x with
  | true, true =>
      Some (if x - v1 <? v2 - x then v1
            else if v2 - x <? x - v1 then v2
            else if Z.even lo then v1 else v2)
  | true, false => Some v1
  | false, true => Some v2
  | false, false => None
  end.

(** The value with the fewest significant digits that reads back as [x];
    seventeen digits are enough for every double. *)
Fixpoint shortest (fuel : nat) (x n k : Z) : Z :=
  match fuel with
  | O => x
  | S fuel' =>
      if n <=? k then x
      else match with_digits x n k with
           | Some v => v
           | None => shortest fuel' x n (k + 1)
           end
  end.

Fixpoint strip_zeros (s : string) : string :=
  match s with
  | EmptyString => EmptyString
  | String c s' =>
      match strip_zeros s' with
      | EmptyString => if (code c =? 48)%N then EmptyString else String c EmptyString
      | r => String c r
      end
  end.

(** Number::toString on a positive double with an integer value: the
    digits in full up to 21 of them, the exponent notation beyond. *)
Definition print_double (x : Z) : string :=
  let n := Z.of_nat (String.length (decimal x)) in
  let v := shortest 17 x n 1 in
  let n' := Z.of_nat (String.length (decimal v)) in
  if n' <=? 21 then decimal v
  else
    match strip_zeros (decimal v) with
    | String d EmptyString => String d EmptyString +:+ "e+" +:+ decimal (n' - 1)
    | String d rest => String d EmptyString +:+ "." +:+ rest +:+ "e+" +:+ decimal (n' - 1)
    | EmptyString => EmptyString
    end.

(** [String(n)] for a number read from an integer numeral [n]: the numeral
    becomes the nearest double, which is printed. *)
Definition of_Z (n : Z) : string :=
  if n =? 0 then "0"
  else
    let sign := if n <? 0 then "-" else EmptyString in
    match nearest_double (Z.abs n) with
    | Some x => sign +:+ print_double x
    | None => sign +:+ "Infinity"
    end.

End JsString.

Import JsString.

(** ** Utilities *)

(** The characters of the class [[*_`[\]]]. *)
Definition markdown_char (c : ascii) : bool :=
  (code c =? 42)%N || (code c =? 95)%N || (code c =? 96)%N
  || (code c =? 91)%N || (code c =? 93)%N.

Fixpoint strip_markdown (s : string) : string :=
  match s with
  | EmptyString => EmptyString
  | String c s' =>
      if markdown_char c then strip_markdown s' else String c (strip_markdown s')
  end.

(** [safeText(s)]: [String(s || '').replace(/[*_`[\]]/g, '')]. *)
Definition safeText (s : option string) : string :=
  strip_markdown (or_lit s EmptyString).

(** ** The in-memory rate limiter *)

Record RateWindow := { count : Z; resetAt : Z }.

Definition RATE_LIMIT_WINDOW_MS : Z := 5000.
Definition RATE_LIMIT_MAX : Z := 3.

(** [allowRate(chatId)], on the map it reads and mutates.  [data.count += 1]
    mutates the object stored in the map, which is an update of the entry.
    Nothing in the body of the [try] can raise, so the [catch] is never
    taken. *)
Definition allowRate (now : Z) (chatId : Z) (rateMap : gmap Z RateWindow)
  : bool * gmap Z RateWindow :=
  let fresh := {| count := 1; resetAt := now + RATE_LIMIT_WINDOW_MS |} in
  match rateMap !! chatId with
  | None => (true, <[chatId := fresh]> rateMap)
  | Some data =>
      if now >? resetAt data then (true, <[chatId := fresh]> rateMap)
      else if count data <? RATE_LIMIT_MAX
           then (true, <[chatId := {| count := count data + 1;
                                      resetAt := resetAt data |}]> rateMap)
           else (false, rateMap)
  end.

(** Calls of [allowRate] made one after the other, each a clock reading
    and a conversation: the answers given to the conversation [chatId], in
    order, and the map at the end. *)
Fixpoint answers_to (chatId : Z) (calls : list (Z * Z)) (rateMap : gmap Z RateWindow)
  : list bool * gmap Z RateWindow :=
  match calls with
  | [] => ([], rateMap)
  | (now, c) :: rest =>
      let '(b, rm) := allowRate now c rateMap in
      let '(bs, rm') := answers_to chatId rest rm in
      (if Z.eqb c chatId then b :: bs else bs, rm')
  end.

(** The calls made for one conversation. *)
Definition calls_of (chatId : Z) (calls : list (Z * Z)) : list (Z * Z) :=
  List.filter (fun tc => Z.eqb (snd tc) chatId) calls.

(** The bound on the stored windows. *)
Definition rate_bounded (rateMap : gmap Z RateWindow) : Prop :=
  ∀ chatId w, rateMap !! chatId = Some w → 1 ≤ count w ≤ RATE_LIMIT_MAX.

(** Calls for arbitrary conversations, starting from a given map. *)
Fixpoint allowRate_calls (calls : list (Z * Z)) (rateMap : gmap Z RateWindow)
  : gmap Z RateWindow :=
  match calls with
  | [] => rateMap
  | (now, chatId) :: rest => allowRate_calls rest (snd (allowRate now chatId rateMap))
  end.

(** ** Configuration read from the environment *)

(** The variables the functions below read.  [TELEGRAM_BOT_TOKEN] and
    [AIRTABLE_TABLE] only occur in the addresses of the requests. *)
Record Config := {
  AIRTABLE_API_KEY : option string;
  AIRTABLE_BASE_ID : option string;
  TELEGRAM_ADMIN_IDS : option string
}.

Definition nonempty (s : string) : bool := truthy (Some s).

(** [(env || '').split(',').map(s => s.trim()).filter(Boolean)]. *)
Definition ADMIN_IDS (cfg : Config) : list string :=
  List.filter nonempty
    (List.map trim (split_comma (or_lit (TELEGRAM_ADMIN_IDS cfg) EmptyString))).

(** [AIRTABLE_API_KEY && AIRTABLE_BASE_ID], as a condition. *)
Definition airtable_configured (cfg : Config) : bool :=
  truthy (AIRTABLE_API_KEY cfg) && truthy (AIRTABLE_BASE_ID cfg).

(** ** Telegram updates *)

Module User.
Record t := { id : option Z; first_name : option string; username : option string }.
End User.

Module Chat.
Record t := { id : option Z }.
End Chat.

Module Message.
Record t := { text : option string; chat : option Chat.t; from : option User.t }.
(** The object [{}]. *)
Definition empty : t := {| text := None; chat := None; from := None |}.
End Message.

Module Update.
Record t := {
  message : option Message.t;
  edited_message : option Message.t;
  (** [callback_query], with its [message] field when the query is there. *)
  callback_query : option (option Message.t)
}.
Definition empty : t :=
  {| message := None; edited_message := None; callback_query := None |}.
End Update.

(** Truthiness of an identifier: [0] is falsy, as [null] is. *)
Definition truthy_id (o : option Z) : option Z :=
  match o with
  | Some 0 => None
  | _ => o
  end.

(** [String(userId)]. *)
Definition string_of_id (o : option Z) : string :=
  match o with
  | Some n => of_Z n
  | None => "null"
  end.

(** ** Requests and responses *)

Record TgBody := { chat_id : Z; text : string; parse_mode : option string }.

Inductive request :=
| Telegram (method : string) (body : TgBody)
    (* POST https://api.telegram.org/bot<token>/<method> *)
| AirtableList (pageSize : nat) (view : string)
    (* GET <table>?pageSize=50&view=Grid%20view *)
| AirtableFind (provider : string)
    (* GET <table>?filterByFormula=AND({Provider}=<provider in quotes>) *)
| AirtablePatch (id : nat) (provider details : string)
    (* PATCH <table>/<id> with { fields: { Provider, Details } } *)
| AirtableCreate (provider details : string).
    (* POST <table> with { fields: { Provider, Details } } *)

Definition is_airtable (r : request) : bool :=
  match r with
  | Telegram _ _ => false
  | _ => true
  end.

Module Airtable.
Record Fields := { Provider : option string; Details : option string }.
(** A record of the table; [id] is the opaque identifier the store gave it. *)
Record Record_ := { id : nat; fields : option Fields }.
(** The object [{}], for [r.fields || {}]. *)
Definition no_fields : Fields := {| Provider := None; Details := None |}.
End Airtable.

(** The JSON object of a response body, as far as the handler reads it. *)
Record JsonObject := { records : option (list Airtable.Record_) }.

(** A response; [json] is [None] when the body is not JSON and [res.json()]
    rejects, and the object of the body otherwise: the stores and the Bot
    API answer with JSON objects, and a body that is another JSON value,
    [null] for one, is not modelled. *)
Record Response := { ok : bool; status : Z; json : option JsonObject }.

Inductive fetch_outcome :=
| Rejected                      (* the promise of [fetch] rejects *)
| Responded (res : Response).

Record HttpResult := { statusCode : Z; result_body : string }.

Definition ok200 : HttpResult := {| statusCode := 200; result_body := "ok" |}.

(** [JSON.parse(event.body)]. *)
Inductive parsed :=
| ParseError                    (* [JSON.parse] raises *)
| ParsedNull                    (* the body is the JSON text [null] *)
| ParsedObject (u : Update.t).  (* any other value, read as an object *)

Record Event := { httpMethod : string; body_json : parsed }.

(** ** Reply texts *)

Definition nl : string := String (ascii_of_N 10) EmptyString.
Definition DASH : string := "â€”".
Definition GRIN : string := "ðŸ˜…".
Definition CHECK : string := "âœ…".

Definition ALLOWED_PROVIDERS : list string := ["jazzcash"; "easypaisa"].

Definition SLOW_DOWN : string :=
  "Slow down, boss " +:+ DASH +:+ " too many commands at once. " +:+ GRIN.

Definition HELP : string :=
  join nl [ "*Welcome to VHub " +:+ DASH +:+ " Premium Edition!*";
            EmptyString;
            "Available commands:";
            "/start " +:+ DASH +:+ " show this help";
            "/profile " +:+ DASH +:+ " view your basic profile";
            "/setpayment <provider> <details> " +:+ DASH +:+ " admin only";
            "/getpayments " +:+ DASH +:+ " list payment methods";
            EmptyString;
            "Providers: jazzcash, easypaisa" ].

Definition ADMIN_ONLY : string := "Only admin(s) can use /setpayment.".

Definition USAGE : string :=
  "Usage: /setpayment <provider> <details>" +:+ nl
  +:+ "Example: /setpayment easypaisa 03xx-xxxxxxx".

Definition INVALID_PROVIDER : string :=
  "Invalid provider. Allowed: " +:+ join ", " ALLOWED_PROVIDERS.

Definition UPDATED (provider : string) : string :=
  CHECK +:+ " Updated *" +:+ provider +:+ "* details.".

Definition CONFIGURED (provider details : string) : string :=
  "Configured " +:+ provider +:+ ": " +:+ details.

Definition FAILED_UPDATE : string :=
  "Failed to update payment details " +:+ DASH +:+ " check server logs.".

Definition NONE_CONFIGURED : string := "No payment details configured yet.".

Definition PAYMENTS_HEADER : string := "*Current Payment Details:*" +:+ nl.

Definition READ_ERROR : string := "Error reading payment details.".

Definition UNKNOWN_COMMAND : string :=
  "Unknown command. Use /start to see available commands.".

Definition NOT_A_COMMAND : string :=
  "I only understand a few commands for now. Try /start.".

(** [text.trim().split(/\s+/)]: the tokens of a message; there is always a
    first one. *)
Definition parts_of (txt : string) : list string := split_ws (trim txt).

(** [parts[0].toLowerCase()]. *)
Definition cmd_of (txt : string) : string :=
  toLowerCase (hd EmptyString (parts_of txt)).

(** The profile text of [/profile]. *)
Definition profileMsg (userId : option Z) (message : Message.t) : string :=
  let name :=
    or_lit (match Message.from message with
            | Some u => or_else (User.first_name u) (User.username u)
            | None => None
            end) "User" in
  let handle :=
    match Message.from message with
    | Some u => if truthy (User.username u)
                then "@" +:+ safeText (User.username u) else DASH
    | None => DASH
    end in
  "*Profile*" +:+ nl +:+ "Name: " +:+ safeText (Some name) +:+ nl
  +:+ "ID: " +:+ string_of_id userId +:+ nl +:+ "Telegram: " +:+ handle.

(** One line of the list of [/getpayments]. *)
Definition payment_line (r : Airtable.Record_) : string :=
  let f := match Airtable.fields r with
           | Some f => f
           | None => Airtable.no_fields
           end in
  nl +:+ "- *" +:+ safeText (Some (or_lit (Airtable.Provider f) "unknown"))
  +:+ "*: " +:+ safeText (Some (or_lit (Airtable.Details f) EmptyString)).

(** [records.forEach(r => { out += ... })]. *)
Definition payments_text (rs : list Airtable.Record_) : string :=
  fold_left (fun out r => out +:+ payment_line r) rs PAYMENTS_HEADER.

(** ** Computations: state, requests and exceptions *)

Inductive outcome (A : Type) :=
| Returned (a : A)
| Raised (err : string).
Arguments Returned {A} a.
Arguments Raised {A} err.

(** The state of a function instance together with the outside world. *)
Record State (World : Type) := {
  rateMap : gmap Z RateWindow;
  world : World;
  trace : list request
}.
Arguments rateMap {World} s.
Arguments world {World} s.
Arguments trace {World} s.

Definition M (World A : Type) : Type := State World → outcome A * State World.

Definition ret {World A} (a : A) : M World A := fun s => (Returned a, s).

Definition raise {World A} (err : string) : M World A := fun s => (Raised err, s).

Definition bind {World A B} (m : M World A) (k : A → M World B) : M World B :=
  fun s =>
    match m s with
    | (Returned a, s') => k a s'
    | (Raised err, s') => (Raised err, s')
    end.

(** [try { m } catch (err) { h(err) }]: what [m] did before it raised stays
    done. *)
Definition try_catch {World A} (m : M World A) (h : string → M World A) : M World A :=
  fun s =>
    match m s with
    | (Returned a, s') => (Returned a, s')
    | (Raised err, s') => h err s'
    end.

Declare Scope js_scope.
Delimit Scope js_scope with js.
Notation "x <- m ;; k" := (bind m (fun x => k))
  (at level 100, m at next level, right associativity) : js_scope.
Notation "m ;; k" := (bind m (fun _ => k))
  (at level 100, right associativity) : js_scope.
Local Open Scope js_scope.

Section Webhook.

Context {World : Type}.

(** The network: what a request does to the world and what comes back. *)
Variable fetch : request → World → fetch_outcome * World.

Abbreviation Js := (M World).

(** [await fetch(...)]. *)
Definition do_fetch (r : request) : Js Response :=
  fun s =>
    let '(o, w) := fetch r (world s) in
    let s' := {| rateMap := rateMap s; world := w; trace := trace s ++ [r] |} in
    match o with
    | Rejected => (Raised "fetch failed", s')
    | Responded res => (Returned res, s')
    end.

(** [await res.json()]. *)
Definition res_json (res : Response) : Js JsonObject :=
  match json res with
  | Some j => ret j
  | None => raise "invalid json"
  end.

(** [tg(method, body)].  The value it resolves to, [res.json()] or [null],
    is used by no caller; it rejects only when [fetch] does, the text of
    an error response, which is only logged, being taken to arrive. *)
Definition tg (method : string) (body : TgBody) : Js unit :=
  _ <- do_fetch (Telegram method body) ;;
  ret tt.

(** [allowRate(chatId)] on the map of the state. *)
Definition allowRateM (now chatId : Z) : Js bool :=
  fun s =>
    let '(b, rm) := allowRate now chatId (rateMap s) in
    (Returned b, {| rateMap := rm; world := world s; trace := trace s |}).

Variable cfg : Config.

(** [airtableGetAll()]. *)
Definition airtableGetAll : Js (list Airtable.Record_) :=
  if negb (truthy (AIRTABLE_API_KEY cfg)) || negb (truthy (AIRTABLE_BASE_ID cfg))
  then ret []
  else
    res <- do_fetch (AirtableList 50 "Grid view") ;;
    if negb (ok res) then ret []
    else
      j <- res_json res ;;
      ret (match records j with
           | Some rs => rs
           | None => []
           end).

(** [airtableCreateOrUpdate(provider, details)]. *)
Definition airtableCreateOrUpdate (provider details : string) : Js JsonObject :=
  if negb (truthy (AIRTABLE_API_KEY cfg)) || negb (truthy (AIRTABLE_BASE_ID cfg))
  then raise "Airtable not configured"
  else
    found <- do_fetch (AirtableFind provider) ;;
    let foundJson := match json found with
                     | Some j => j
                     | None => {| records := Some [] |}
                     end in
    match records foundJson with
    | Some (rec :: _) =>
        patched <- do_fetch (AirtablePatch (Airtable.id rec) provider details) ;;
        res_json patched
    | _ =>
        created <- do_fetch (AirtableCreate provider details) ;;
        res_json created
    end.

Definition sendMessage (chatId : Z) (txt : string) (mode : option string) : Js unit :=
  tg "sendMessage" {| chat_id := chatId; text := txt; parse_mode := mode |}.

Definition Markdown : option string := Some "Markdown".

(** [ADMIN_IDS.length ? ADMIN_IDS.includes(String(userId)) : true]. *)
Definition isAdmin (userId : option Z) : bool :=
  match ADMIN_IDS cfg with
  | [] => true
  | ids => includes ids (string_of_id userId)
  end.

(** The [/setpayment] block of [handleCommand]. *)
Definition cmd_setpayment (chatId : Z) (userId : option Z) (parts : list string)
  : Js unit :=
  if negb (isAdmin userId) then sendMessage chatId ADMIN_ONLY None
  else if (Z.of_nat (length parts) <? 3) then sendMessage chatId USAGE None
  else
    let provider := toLowerCase (nth 1 parts EmptyString) in
    if negb (includes ALLOWED_PROVIDERS provider)
    then sendMessage chatId INVALID_PROVIDER None
    else
      let details := join " " (skipn 2 parts) in
      try_catch
        (if airtable_configured cfg
         then
           _ <- airtableCreateOrUpdate provider details ;;
           sendMessage chatId (UPDATED provider) Markdown
         else sendMessage chatId (CONFIGURED provider details) None)
        (fun err => sendMessage chatId FAILED_UPDATE None).

(** The [/getpayments] block of [handleCommand]. *)
Definition cmd_getpayments (chatId : Z) : Js unit :=
  try_catch
    (rs <- airtableGetAll ;;
     match rs with
     | [] => sendMessage chatId NONE_CONFIGURED None
     | _ => sendMessage chatId (payments_text rs) Markdown
     end)
    (fun err => sendMessage chatId READ_ERROR None).

(** What [handleCommand] does once the rate limiter has let the message
    through: the chain of tests on [cmd]. *)
Definition route (chatId : Z) (userId : option Z) (txt : string)
  (message : Message.t) : Js unit :=
  let parts := parts_of txt in
  let cmd := cmd_of txt in
  if String.eqb cmd "/start" || String.eqb cmd "start"
  then sendMessage chatId HELP Markdown
  else if String.eqb cmd "/profile" || String.eqb cmd "/me"
  then sendMessage chatId (profileMsg userId message) Markdown
  else if String.eqb cmd "/setpayment" || String.eqb cmd "setpayment"
  then cmd_setpayment chatId userId parts
  else if String.eqb cmd "/getpayments" || String.eqb cmd "/payments"
  then cmd_getpayments chatId
  else if startsWith_slash txt
  then sendMessage chatId UNKNOWN_COMMAND None
  else sendMessage chatId NOT_A_COMMAND None.

(** [handleCommand(chatId, userId, text, message)]. *)
Definition handleCommand (now : Z) (chatId : Z) (userId : option Z)
  (txt : string) (message : Message.t) : Js unit :=
  allowed <- allowRateM now chatId ;;
  if negb allowed then sendMessage chatId SLOW_DOWN None
  else route chatId userId txt message.

(** The update the handler works on: [{}] when parsing failed; reading a
    property of [null] raises. *)
Definition parse_update (p : parsed) : Js Update.t :=
  match p with
  | ParseError => ret Update.empty
  | ParsedNull => raise "TypeError"
  | ParsedObject u => ret u
  end.

(** [update.message || update.edited_message ||
     (update.callback_query && update.callback_query.message) || {}]. *)
Definition update_message (u : Update.t) : Message.t :=
  match Update.message u with
  | Some m => m
  | None =>
      match Update.edited_message u with
      | Some m => m
      | None =>
          match Update.callback_query u with
          | Some (Some m) => m
          | _ => Message.empty
          end
      end
  end.

Definition chat_id_of (m : option Message.t) : option Z :=
  match m with
  | Some m => match Message.chat m with
              | Some c => truthy_id (Chat.id c)
              | None => None
              end
  | None => None
  end.

Definition from_id_of (m : option Message.t) : option Z :=
  match m with
  | Some m => match Message.from m with
              | Some u => truthy_id (User.id u)
              | None => None
              end
  | None => None
  end.

(** [(message.chat && message.chat.id) ||
     (update.message && update.message.chat && update.message.chat.id) || null]. *)
Definition update_chatId (u : Update.t) : option Z :=
  match chat_id_of (Some (update_message u)) with
  | Some c => Some c
  | None => chat_id_of (Update.message u)
  end.

Definition update_fromId (u : Update.t) : option Z :=
  match from_id_of (Some (update_message u)) with
  | Some c => Some c
  | None => from_id_of (Update.message u)
  end.

(** [exports.handler(event, context)]. *)
Definition handler (now : Z) (event : Event) : Js HttpResult :=
  try_catch
    (if negb (String.eqb (httpMethod event) "POST") then ret ok200
     else
       update <- parse_update (body_json event) ;;
       let message := update_message update in
       let txt := trim (or_lit (Message.text message) EmptyString) in
       match update_chatId update with
       | None => ret ok200
       | Some chatId =>
           _ <- handleCommand now chatId (update_fromId update) txt message ;;
           ret ok200
       end)
    (fun err => ret ok200).

End Webhook.

(** ** The Airtable table, as the store the handler talks to

    The table is the list of the fields of its rows, in the order of the
    view; rows are never deleted, and the identifier of a row is its
    position.  The store answers the four requests of the handler as the
    REST interface describes them: a listing returns at most [pageSize]
    rows, a search returns the rows whose [Provider] is the given text, a
    patch replaces the two fields of the row named, a creation appends a
    row.  [telegram] is what the Bot API answers, whatever that is. *)

Module Store.

Abbreviation t := (list Airtable.Fields).

Definition row (provider details : string) : Airtable.Fields :=
  {| Airtable.Provider := Some provider; Airtable.Details := Some details |}.

Fixpoint rows_from (i : nat) (st : t) : list Airtable.Record_ :=
  match st with
  | [] => []
  | f :: rest =>
      {| Airtable.id := i; Airtable.fields := Some f |} :: rows_from (S i) rest
  end.

Definition rows (st : t) : list Airtable.Record_ := rows_from 0 st.

Definition has_provider (p : string) (f : Airtable.Fields) : bool :=
  match Airtable.Provider f with
  | Some q => String.eqb q p
  | None => false
  end.

Definition record_has_provider (p : string) (r : Airtable.Record_) : bool :=
  match Airtable.fields r with
  | Some f => has_provider p f
  | None => false
  end.

(** The rows of the table for one provider. *)
Definition records_for (p : string) (st : t) : list Airtable.Fields :=
  List.filter (has_provider p) st.

Definition success (rs : option (list Airtable.Record_)) : fetch_outcome :=
  Responded {| ok := true; status := 200; json := Some {| records := rs |} |}.

Definition not_found : fetch_outcome :=
  Responded {| ok := false; status := 404; json := Some {| records := None |} |}.

Definition fetch (telegram : string → TgBody → fetch_outcome)
  (r : request) (st : t) : fetch_outcome * t :=
  match r with
  | Telegram method body => (telegram method body, st)
  | AirtableList pageSize _ => (success (Some (take pageSize (rows st))), st)
  | AirtableFind p =>
      (success (Some (List.filter (record_has_provider p) (rows st))), st)
  | AirtablePatch i p d =>
      if (i <? length st)%nat
      then (success None, <[i := row p d]> st)
      else (not_found, st)
  | AirtableCreate p d => (success None, st ++ [row p d])
  end.

(** At most one row per provider. *)
Definition unique_providers (st : t) : Prop :=
  ∀ p, (length (records_for p st) ≤ 1)%nat.

End Store.

(** One call of [handleCommand], as the entry point makes it. *)
Record Call := {
  call_now : Z;
  call_chatId : Z;
  call_userId : option Z;
  call_text : string;
  call_message : Message.t
}.

Section Runs.

Context {World : Type}.
Variable fetch : request → World → fetch_outcome * World.
Variable cfg : Config.

Definition run_call (c : Call) (s : State World) : State World :=
  snd (handleCommand fetch cfg (call_now c) (call_chatId c) (call_userId c)
         (call_text c) (call_message c) s).

(** Calls made one after the other, each run to its end before the next
    one starts. *)
Definition run_calls (cs : list Call) (s : State World) : State World :=
  fold_left (fun s c => run_call c s) cs s.

End Runs.

(** ** Vocabulary of the statements *)

(** The request of [tg('sendMessage', { chat_id, text, parse_mode })]. *)
Definition reply (chatId : Z) (txt : string) (mode : option string) : request :=
  Telegram "sendMessage" {| chat_id := chatId; text := txt; parse_mode := mode |}.

(** The requests made to the store so far. *)
Definition store_calls {World : Type} (s : State World) : list request :=
  List.filter is_airtable (trace s).

(** Whether the rate limiter lets a message of the chat through, and the
    state it leaves for the rest of [handleCommand]. *)
Definition admitted {World : Type} (now chatId : Z) (s : State World) : bool :=
  fst (allowRate now chatId (rateMap s)).

Definition after_gate {World : Type} (now chatId : Z) (s : State World) : State World :=
  {| rateMap := snd (allowRate now chatId (rateMap s));
     world := world s; trace := trace s |}.

(** Every request a computation sends satisfies [P]. *)
Definition emits {World A : Type} (P : request → Prop) (m : M World A) : Prop :=
  ∀ s, ∃ new, trace (snd (m s)) = trace s ++ new ∧ Forall P new.

(** The texts sent with the Markdown parse mode, with every piece that
    comes from a user or from the store passed through [strip_markdown]:
    the help text, the profile, the confirmation of an update, and the
    list of payment records. *)
Definition sanitized_reply (userId : option Z) (txt : string) : Prop :=
  txt = HELP
  ∨ (∃ name handle,
       txt = "*Profile*" +:+ nl +:+ "Name: " +:+ strip_markdown name +:+ nl
             +:+ "ID: " +:+ string_of_id userId +:+ nl +:+ "Telegram: " +:+ handle
       ∧ (handle = DASH ∨ ∃ u, handle = "@" +:+ strip_markdown u))
  ∨ (∃ p, In p ALLOWED_PROVIDERS ∧ txt = UPDATED p)
  ∨ (∃ rows : list (string * string),
       txt = fold_left
               (fun out pd => out +:+ nl +:+ "- *" +:+ strip_markdown (fst pd)
                              +:+ "*: " +:+ strip_markdown (snd pd))
               rows PAYMENTS_HEADER).

(** A request that, if it is a message in Markdown mode, carries a
    sanitized text. *)
Definition markdown_safe (userId : option Z) (r : request) : Prop :=
  match r with
  | Telegram _ b => parse_mode b = Markdown → sanitized_reply userId (text b)
  | _ => True
  end.

(** A computation in front of the table keeps a property of the table. *)
Definition keeps {A : Type} (I : Store.t → Prop) (m : M Store.t A) : Prop :=
  ∀ s, I (world s) → I (world (snd (m s))).

(** [c] is [/setpayment <p> <d>] sent by an administrator: the first token
    is the command, there are at least three tokens, the second one in
    lower case is the provider [p], one of the allowed ones, and the
    remaining ones joined by single spaces are the details [d]. *)
Definition setpayment_call (cfg : Config) (c : Call) (p d : string) : Prop :=
  (cmd_of (call_text c) = "/setpayment" ∨ cmd_of (call_text c) = "setpayment")
  ∧ (3 ≤ length (parts_of (call_text c)))%nat
  ∧ toLowerCase (nth 1 (parts_of (call_text c)) EmptyString) = p
  ∧ In p ALLOWED_PROVIDERS
  ∧ join " " (skipn 2 (parts_of (call_text c))) = d
  ∧ isAdmin cfg (call_userId c) = true.

(** The write the upsert chooses after its search of the table. *)
Definition upsert_write (p d : string) (st : Store.t) : request :=
  match List.filter (Store.record_has_provider p) (Store.rows st) with
  | r :: _ => AirtablePatch (Airtable.id r) p d
  | [] => AirtableCreate p d
  end.

(** A text made of white-space characters. *)
Inductive white : string → Prop :=
| white_nil : white EmptyString
| white_cons w s : In w WHITE_SPACE → white s → white (w +:+ s).

(** A text in which no white-space character occurs. *)
Definition ws_free (s : string) : Prop :=
  ∀ a w b, In w WHITE_SPACE → s ≠ a +:+ w +:+ b.

(** A token: a text that is not empty and has no white space in it. *)
Definition token (s : string) : Prop := s ≠ EmptyString ∧ ws_free s.

(** What can follow a token in a text: nothing, or a white-space character
    and then anything. *)
Definition after_token (rest : string) : Prop :=
  rest = EmptyString ∨ ∃ w r, In w WHITE_SPACE ∧ rest = w +:+ r.

(** Two bytes that are equal, or the two cases of one letter of ASCII. *)
Definition same_letter (x y : ascii) : bool :=
  ((code x =? code y)
   || ((65 <=? code x) && (code x <=? 90) && (code y =? code x + 32))
   || ((65 <=? code y) && (code y <=? 90) && (code x =? code y + 32)))%N.

(** Two texts that are equal up to the case of the letters of ASCII. *)
Fixpoint same_word (a b : string) : bool :=
  match a, b with
  | EmptyString, EmptyString => true
  | String x a', String y b' => same_letter x y && same_word a' b'
  | _, _ => false
  end.

(** A letter of ASCII in lower case, or a byte of ASCII that is no letter. *)
Definition lower_ascii (c : ascii) : bool :=
  ((code c <? 128) && negb ((65 <=? code c) && (code c <=? 90)))%N.

(** A separator and the token after it. *)
Definition separated (p : string * string) : Prop :=
  white (fst p) ∧ fst p ≠ EmptyString ∧ token (snd p).

(** Tokens written one after the other, each after its separator. *)
Fixpoint spaced (rest : list (string * string)) : string :=
  match rest with
  | [] => EmptyString
  | (sep, y) :: more => sep +:+ y +:+ spaced more
  end.

(** No white-space character starts anywhere in the text. *)
Fixpoint no_white (s : string) : bool :=
  match s with
  | EmptyString => true
  | String c s' =>
      match ws_prefix s with
      | Some _ => false
      | None => no_white s'
      end
  end.

(** The chat identifier the entry point finds in an event, if it finds one. *)
Definition event_chatId (ev : Event) : option Z :=
  match body_json ev with
  | ParseError => update_chatId Update.empty
  | ParsedNull => None
  | ParsedObject u => update_chatId u
  end.

(** The characters of a string. *)
Fixpoint chars (s : string) : list ascii :=
  match s with
  | EmptyString => []
  | String c s' => c :: chars s'
  end.

(** A continuation byte of UTF-8, and a text that is one encoded character:
    a byte that is not a continuation byte, then continuation bytes. *)
Definition continuation (c : ascii) : bool := ((128 <=? code c) && (code c <=? 191))%N.

Definition encoded (w : string) : bool :=
  match w with
  | String c y => negb (continuation c) && forallb continuation (chars y)
  | EmptyString => false
  end.

(** ** Sample configurations and states *)

(** A Bot API that accepts every message. *)
Definition telegram_ok (method : string) (body : TgBody) : fetch_outcome :=
  Store.success None.

(** Airtable configured, two administrators. *)
Definition cfg_admins : Config :=
  {| AIRTABLE_API_KEY := Some "key"; AIRTABLE_BASE_ID := Some "app";
     TELEGRAM_ADMIN_IDS := Some "1001, 1002" |}.

(** The same two administrators, written with a no-break space after the
    comma. *)
Definition cfg_pasted : Config :=
  {| AIRTABLE_API_KEY := Some "key"; AIRTABLE_BASE_ID := Some "app";
     TELEGRAM_ADMIN_IDS := Some ("1001," +:+ utf8 160 +:+ "1002") |}.

(** Airtable configured, no administrator list. *)
Definition cfg_open : Config :=
  {| AIRTABLE_API_KEY := Some "key"; AIRTABLE_BASE_ID := Some "app";
     TELEGRAM_ADMIN_IDS := None |}.

(** Nothing configured. *)
Definition cfg_bare : Config :=
  {| AIRTABLE_API_KEY := None; AIRTABLE_BASE_ID := None;
     TELEGRAM_ADMIN_IDS := None |}.

(** A function instance that has just started, in front of a table with
    the given rows. *)
Definition instance_with (st : Store.t) : State Store.t :=
  {| rateMap := ∅; world := st; trace := [] |}.

Definition fresh_instance : State Store.t := instance_with [].

(** A message with no sender information. *)
Definition call (now chatId : Z) (userId : Z) (txt : string) : Call :=
  {| call_now := now; call_chatId := chatId; call_userId := Some userId;
     call_text := txt; call_message := Message.empty |}.

(** An instance on which chat 7 has used up its window: three messages
    in the first three milliseconds. *)
Definition busy_instance : State Store.t :=
  run_calls (Store.fetch telegram_ok) cfg_admins
    [call 0 7 5 "hello"; call 1 7 5 "hello"; call 2 7 5 "hello"]
    fresh_instance.

(** The requests caused by one message of user 5 in chat 7, on a fresh
    instance in front of an empty table. *)
Definition requests_for (txt : string) : list request :=
  trace (run_call (Store.fetch telegram_ok) cfg_admins (call 0 7 5 txt) fresh_instance).

(** ** Vocabulary of the further properties *)

(** [parts[1].toLowerCase()] and [parts.slice(2).join(' ')]: the provider
    and the details of a [/setpayment] message. *)
Definition provider_of (txt : string) : string :=
  toLowerCase (nth 1 (parts_of txt) EmptyString).

Definition details_of (txt : string) : string :=
  join " " (skipn 2 (parts_of txt)).

(** A text made of commas and white-space characters only. *)
Inductive separators : string → Prop :=
| separators_nil : separators EmptyString
| separators_comma s : separators s → separators ("," +:+ s)
| separators_white w s : In w WHITE_SPACE → separators s → separators (w +:+ s).

(** The Bot API answers every request, with whatever status. *)
Definition telegram_responds {World : Type}
  (fetch : request → World → fetch_outcome * World) : Prop :=
  ∀ method body w, fst (fetch (Telegram method body) w) ≠ Rejected.

(** A request that, if it goes to Telegram, is a [sendMessage] to the chat. *)
Definition to_chat (chatId : Z) (r : request) : Prop :=
  match r with
  | Telegram method body => method = "sendMessage" ∧ chat_id body = chatId
  | _ => True
  end.

(** The requests that change the table. *)
Definition is_write (r : request) : bool :=
  match r with
  | AirtablePatch _ _ _ | AirtableCreate _ _ => true
  | _ => false
  end.

(** The requests an upsert of [p] and [d] can make. *)
Definition upsert_request (p d : string) (r : request) : Prop :=
  r = AirtableFind p ∨ r = AirtableCreate p d ∨ ∃ i, r = AirtablePatch i p d.

(** A computation that returns after requests to the store only, followed
    by exactly one message to the chat. *)
Definition replies_once {World : Type} (chatId : Z) (m : M World unit) : Prop :=
  ∀ s, ∃ pre txt mode,
    fst (m s) = Returned tt
    ∧ trace (snd (m s)) = trace s ++ pre ++ [reply chatId txt mode]
    ∧ Forall (fun r => is_airtable r = true) pre.

(** A store that refuses every request with status 401 and an error body,
    and a store that cannot be reached; the Bot API accepts every message.
    The world has no state. *)
Definition unauthorized : fetch_outcome :=
  Responded {| ok := false; status := 401; json := Some {| records := None |} |}.

Definition fetch_unauthorized (r : request) (w : unit) : fetch_outcome * unit :=
  (if is_airtable r then unauthorized else Store.success None, w).

Definition fetch_unreachable (r : request) (w : unit) : fetch_outcome * unit :=
  (if is_airtable r then Rejected else Store.success None, w).

Definition stateless_instance : State unit :=
  {| rateMap := ∅; world := tt; trace := [] |}.

(** A store that answers every request with the sixty records it holds,
    whatever page size was asked for, and one that answers every request
    with status 200 and a page of HTML. *)
Definition sixty_records : list Airtable.Record_ :=
  Store.rows (replicate 60 (Store.row "jazzcash" "x")).

Definition fetch_all (r : request) (w : unit) : fetch_outcome * unit :=
  (Store.success (Some sixty_records), w).

Definition fetch_html (r : request) (w : unit) : fetch_outcome * unit :=
  (Responded {| ok := true; status := 200; json := None |}, w).

(** A message without text from chat 7, as the entry point receives it. *)
Definition photo_update : Update.t :=
  {| Update.message := Some {| Message.text := None;
                               Message.chat := Some {| Chat.id := Some 7 |};
                               Message.from := None |};
     Update.edited_message := None;
     Update.callback_query := None |}.

Definition photo_event : Event :=
  {| httpMethod := "POST"; body_json := ParsedObject photo_update |}.

(** The command words [handleCommand] tests for. *)
Definition COMMAND_WORDS : list string :=
  ["/start"; "start"; "/profile"; "/me";
   "/setpayment"; "setpayment"; "/getpayments"; "/payments"].

(** * Properties *)

(** ** The rate limiter *)

Section RateLimiter.

Implicit Types (rm : gmap Z RateWindow) (w : RateWindow).

Lemma allowRate_new now chatId rm :
  (∀ w, rm !! chatId = Some w → now > resetAt w) →
  allowRate now chatId rm =
    (true, <[chatId := {| count := 1; resetAt := now + RATE_LIMIT_WINDOW_MS |}]> rm).
Proof.
  intros Hexp. unfold allowRate.
  destruct (rm !! chatId) as [w|] eqn:Hw; [|done].
  specialize (Hexp w eq_refl).
  destruct (Z.gtb_spec now (resetAt w)); [done | lia].
Qed.

Lemma allowRate_open now chatId rm w :
  rm !! chatId = Some w → now ≤ resetAt w → count w < RATE_LIMIT_MAX →
  allowRate now chatId rm =
    (true, <[chatId := {| count := count w + 1; resetAt := resetAt w |}]> rm).
Proof.
  intros Hw Hnow Hc. unfold allowRate. rewrite Hw.
  destruct (Z.gtb_spec now (resetAt w)); [lia|].
  destruct (Z.ltb_spec (count w) RATE_LIMIT_MAX); [done | lia].
Qed.

Lemma allowRate_full now chatId rm w :
  rm !! chatId = Some w → now ≤ resetAt w → RATE_LIMIT_MAX ≤ count w →
  allowRate now chatId rm = (false, rm).
Proof.
  intros Hw Hnow Hc. unfold allowRate. rewrite Hw.
  destruct (Z.gtb_spec now (resetAt w)); [lia|].
  destruct (Z.ltb_spec (count w) RATE_LIMIT_MAX); [lia | done].
Qed.

(** A call for one conversation leaves the windows of the others alone. *)
Lemma allowRate_other now c chatId rm :
  c ≠ chatId → snd (allowRate now c rm) !! chatId = rm !! chatId.
Proof.
  intros Hne. unfold allowRate.
  destruct (rm !! c) as [d|]; cbn.
  - destruct (now >? resetAt d); cbn; [by rewrite lookup_insert_ne|].
    destruct (count d <? RATE_LIMIT_MAX); cbn; [by rewrite lookup_insert_ne | done].
  - by rewrite lookup_insert_ne.
Qed.

(** Calls while the window of [chatId] is open and has room for [k] more
    messages; the calls for other conversations may fall at any time. *)
Lemma answers_in_window chatId calls :
  ∀ rm w (k : nat),
    rm !! chatId = Some w →
    count w = RATE_LIMIT_MAX - Z.of_nat k →
    Forall (λ tc, snd tc = chatId → fst tc ≤ resetAt w) calls →
    ∃ rm' w',
      answers_to chatId calls rm =
        (take (length (calls_of chatId calls)) (replicate k true)
         ++ replicate (length (calls_of chatId calls) - k) false, rm')
      ∧ rm' !! chatId = Some w' ∧ resetAt w' = resetAt w.
Proof.
  induction calls as [|[t c] calls IH]; intros rm w k Hw Hc Hts.
  - exists rm, w. by destruct k.
  - apply Forall_cons in Hts as [Ht Hts]. cbn [answers_to calls_of List.filter snd].
    fold (calls_of chatId calls).
    destruct (Z.eqb_spec c chatId) as [->|Hne].
    + specialize (Ht eq_refl). cbn in Ht. destruct k as [|k].
      * rewrite (allowRate_full t chatId rm w) by (done || lia).
        destruct (IH rm w 0%nat Hw Hc Hts) as (rm' & w' & -> & Hw' & Hr).
        exists rm', w'. split; [|done].
        cbn. rewrite ?Nat.sub_0_r, take_nil. done.
      * rewrite (allowRate_open t chatId rm w) by (done || lia).
        set (w1 := {| count := count w + 1; resetAt := resetAt w |}).
        destruct (IH (<[chatId := w1]> rm) w1 k) as (rm' & w' & -> & Hw' & Hr).
        -- apply lookup_insert_eq.
        -- cbn. lia.
        -- done.
        -- exists rm', w'. done.
    + pose proof (allowRate_other t c chatId rm Hne) as Hother.
      destruct (allowRate t c rm) as [b rm1]. cbn in Hother.
      destruct (IH rm1 w k) as (rm' & w' & -> & Hw' & Hr); [congruence|done|done|].
      by exists rm', w'.
Qed.

Lemma allowRate_preserves_bound now chatId rm :
  rate_bounded rm → rate_bounded (snd (allowRate now chatId rm)).
Proof.
  intros Hb c w. unfold allowRate, RATE_LIMIT_MAX in *.
  destruct (rm !! chatId) as [d|] eqn:Hd; cbn.
  - destruct (Z.gtb_spec now (resetAt d)); cbn.
    + destruct (decide (chatId = c)) as [->|Hne].
      * rewrite lookup_insert_eq. intros [= <-]. cbn. lia.
      * rewrite lookup_insert_ne by done. apply Hb.
    + destruct (Z.ltb_spec (count d) 3); cbn; [|apply Hb].
      destruct (decide (chatId = c)) as [->|Hne].
      * rewrite lookup_insert_eq. intros [= <-]. cbn.
        specialize (Hb _ _ Hd). lia.
      * rewrite lookup_insert_ne by done. apply Hb.
  - destruct (decide (chatId = c)) as [->|Hne].
    + rewrite lookup_insert_eq. intros [= <-]. cbn. lia.
    + rewrite lookup_insert_ne by done. apply Hb.
Qed.

Lemma rate_bounded_empty : rate_bounded ∅.
Proof. intros c w H. by rewrite lookup_empty in H. Qed.

Lemma allowRate_calls_bounded calls :
  ∀ rm, rate_bounded rm → rate_bounded (allowRate_calls calls rm).
Proof.
  induction calls as [|[now c] calls IH]; intros rm Hb; [done|].
  cbn. apply IH. by apply allowRate_preserves_bound.
Qed.

(** C2.  For every conversation: when a call at [t0] opens a window (no
    window is stored, or the stored one has expired), that call and the
    further calls of the conversation made while the clock is at most
    [resetAt = t0 + 5000] are answered [true] for the first three of them
    and [false] for every later one, whatever calls are made for other
    conversations in between; the first call made once [resetAt] has
    passed is answered [true] again. *)
Theorem allowRate_three_per_window chatId rm (t0 : Z) (calls : list (Z * Z)) (t' : Z) :
  (∀ w, rm !! chatId = Some w → t0 > resetAt w) →
  Forall (λ tc, snd tc = chatId → fst tc ≤ t0 + RATE_LIMIT_WINDOW_MS) calls →
  t' > t0 + RATE_LIMIT_WINDOW_MS →
  let n := length (calls_of chatId ((t0, chatId) :: calls)) in
  fst (answers_to chatId ((t0, chatId) :: calls) rm) =
    take n (replicate (Z.to_nat RATE_LIMIT_MAX) true)
    ++ replicate (n - Z.to_nat RATE_LIMIT_MAX) false
  ∧ fst (allowRate t' chatId (snd (answers_to chatId ((t0, chatId) :: calls) rm))) = true.
Proof.
  intros Hnew Hts Hlater. cbn [answers_to calls_of List.filter snd].
  fold (calls_of chatId calls).
  rewrite allowRate_new by done. rewrite Z.eqb_refl.
  set (w0 := {| count := 1; resetAt := t0 + RATE_LIMIT_WINDOW_MS |}).
  destruct (answers_in_window chatId calls (<[chatId := w0]> rm) w0 2)
    as (rm' & w' & -> & Hw' & Hr).
  - apply lookup_insert_eq.
  - done.
  - done.
  - split; [done|]. cbn [snd].
    rewrite allowRate_new; [done|].
    intros w Hw. rewrite Hw' in Hw. injection Hw as <-. rewrite Hr. cbn. lia.
Qed.

(** Four messages of chat 7 within one window, with a message of chat 8 in
    between, then one after the window. *)
Lemma allowRate_three_per_window_witness :
  fst (answers_to 7 [(1000, 7); (1001, 7); (2000, 8); (3000, 7); (6000, 7)] ∅)
  = [true; true; true; false]
  ∧ fst (allowRate 6001 7
           (snd (answers_to 7 [(1000, 7); (1001, 7); (2000, 8); (3000, 7); (6000, 7)] ∅)))
    = true.
Proof.
  apply (allowRate_three_per_window 7 ∅ 1000
           [(1001, 7); (2000, 8); (3000, 7); (6000, 7)] 6001).
  - intros w H. by rewrite lookup_empty in H.
  - repeat constructor; cbn; unfold RATE_LIMIT_WINDOW_MS; lia.
  - unfold RATE_LIMIT_WINDOW_MS; lia.
Defined.

(** C9.  The count of every stored window lies between 1 and
    [RATE_LIMIT_MAX]: this holds of every map the calls of [allowRate]
    build from the empty one, every call preserves it, and a call raises
    a stored count by one only when that count is below the maximum. *)
Theorem rate_window_count_bounded :
  (∀ calls, rate_bounded (allowRate_calls calls ∅))
  ∧ (∀ now chatId rm,
       rate_bounded rm → rate_bounded (snd (allowRate now chatId rm)))
  ∧ (∀ now chatId rm w w',
       rm !! chatId = Some w →
       snd (allowRate now chatId rm) !! chatId = Some w' →
       count w' = count w + 1 →
       count w < RATE_LIMIT_MAX).
Proof.
  split; [|split].
  - intros calls. apply allowRate_calls_bounded, rate_bounded_empty.
  - intros now chatId rm. apply allowRate_preserves_bound.
  - intros now chatId rm w w' Hw. unfold allowRate, RATE_LIMIT_MAX. rewrite Hw.
    destruct (Z.gtb_spec now (resetAt w)); cbn.
    + rewrite lookup_insert_eq. intros [= <-]. cbn. lia.
    + destruct (Z.ltb_spec (count w) 3); cbn; [lia|].
      rewrite Hw. intros [= <-]. lia.
Qed.

Lemma rate_window_count_bounded_witness :
  rate_bounded (snd (allowRate 10 7 (snd (allowRate 0 7 ∅))))
  ∧ count {| count := 1; resetAt := 5000 |} < RATE_LIMIT_MAX.
Proof.
  destruct rate_window_count_bounded as (Hreach & Hstep & Hincr). split.
  - apply Hstep, Hstep. intros c w H. by rewrite lookup_empty in H.
  - apply (Hincr 10 7 (snd (allowRate 0 7 ∅)) _ {| count := 2; resetAt := 5000 |}).
    + reflexivity.
    + reflexivity.
    + reflexivity.
Defined.

End RateLimiter.

(** ** Computations *)

Section Computations.

Context {World : Type}.
Variable fetch : request → World → fetch_outcome * World.
Implicit Types (s : State World).

Lemma do_fetch_state r s :
  snd (do_fetch fetch r s) =
    {| rateMap := rateMap s; world := snd (fetch r (world s));
       trace := trace s ++ [r] |}.
Proof. unfold do_fetch. by destruct (fetch r (world s)) as [[|res] w]. Qed.

Lemma sendMessage_state chatId txt mode s :
  snd (sendMessage fetch chatId txt mode s) =
    {| rateMap := rateMap s;
       world := snd (fetch (reply chatId txt mode) (world s));
       trace := trace s ++ [reply chatId txt mode] |}.
Proof.
  unfold sendMessage, tg, bind, do_fetch, reply.
  by destruct (fetch _ (world s)) as [[|res] w].
Qed.

Lemma store_calls_reply s s' chatId txt mode :
  trace s' = trace s ++ [reply chatId txt mode] →
  store_calls s' = store_calls s.
Proof.
  unfold store_calls. intros ->.
  rewrite List.filter_app. cbn. by rewrite app_nil_r.
Qed.

Lemma includes_In xs x : includes xs x = true ↔ In x xs.
Proof.
  unfold includes. rewrite existsb_exists. split.
  - intros (y & Hy & Heq). apply String.eqb_eq in Heq. by subst.
  - intros Hx. exists x. split; [done|]. apply String.eqb_refl.
Qed.

(** A computation that can only return [a], wrapped in a handler that
    returns [a], returns [a]. *)
Lemma try_catch_constant {A} (m : M World A) (a : A) s :
  (∀ x s', m s = (Returned x, s') → x = a) →
  fst (try_catch m (fun _ => ret a) s) = Returned a.
Proof.
  intros Hm. unfold try_catch, ret.
  destruct (m s) as [[x|err] s'] eqn:E; [|done].
  cbn. f_equal. by eapply Hm.
Qed.

End Computations.

(** ** Texts, white space and tokens *)

Section Tokens.

Implicit Types (s r w a b cur : string).

Lemma append_cons c a b : String c a +:+ b = String c (a +:+ b).
Proof. reflexivity. Qed.

Lemma append_nil_l a : EmptyString +:+ a = a.
Proof. reflexivity. Qed.

Lemma append_assoc a b c : (a +:+ b) +:+ c = a +:+ (b +:+ c).
Proof.
  induction a as [|x a IH]; [done|].
  rewrite !append_cons. by rewrite IH.
Qed.

Lemma append_empty_r a : a +:+ EmptyString = a.
Proof.
  induction a as [|x a IH]; [done|].
  rewrite append_cons. by rewrite IH.
Qed.

Lemma length_append a b : String.length (a +:+ b) = (String.length a + String.length b)%nat.
Proof.
  induction a as [|x a IH]; [done|].
  rewrite append_cons. cbn [String.length]. by rewrite IH.
Qed.

Lemma chars_append a b : chars (a +:+ b) = chars a ++ chars b.
Proof. induction a as [|c a IH]; [done|]. rewrite append_cons. cbn [chars]. by rewrite IH. Qed.

Lemma append_eq_append a b c d :
  a +:+ b = c +:+ d →
  (∃ x, a = c +:+ x ∧ d = x +:+ b) ∨ (∃ x, c = a +:+ x ∧ b = x +:+ d).
Proof.
  revert c. induction a as [|x a IH]; intros c H.
  - right. exists c. by rewrite append_nil_l in *.
  - destruct c as [|y c].
    + left. exists (String x a). by rewrite append_nil_l in *.
    + rewrite !append_cons in H. injection H as -> H.
      destruct (IH c H) as [(k & -> & ->)|(k & -> & ->)].
      * left. by exists k.
      * right. by exists k.
Qed.

Lemma append_nil_inv a b : a +:+ b = EmptyString → a = EmptyString ∧ b = EmptyString.
Proof. destruct a; [done|]. by rewrite append_cons. Qed.

(** *** The white-space characters *)

Lemma strip_prefix_Some w s r : strip_prefix w s = Some r → s = w +:+ r.
Proof.
  revert s. induction w as [|x w IH]; intros s H.
  - cbn in H. by injection H as ->.
  - destruct s as [|y s]; [done|]. cbn in H.
    destruct (Ascii.eqb x y) eqn:E; [|done].
    apply Ascii.eqb_eq in E as ->. rewrite append_cons. f_equal. by apply IH.
Qed.

Lemma strip_first_Some ws s r :
  strip_first ws s = Some r → ∃ w, In w ws ∧ s = w +:+ r.
Proof.
  induction ws as [|w ws IH]; [done|].
  cbn. destruct (strip_prefix w s) as [r'|] eqn:E.
  - intros [= ->]. exists w. split; [by left|]. by apply strip_prefix_Some.
  - intros H. destruct (IH H) as (w' & Hw' & Hs). exists w'. split; [by right|done].
Qed.

Lemma ws_prefix_Some s r :
  ws_prefix s = Some r → ∃ w, In w WHITE_SPACE ∧ s = w +:+ r.
Proof. apply strip_first_Some. Qed.

Lemma WHITE_SPACE_encoded w : In w WHITE_SPACE → encoded w = true.
Proof.
  assert (H : forallb encoded WHITE_SPACE = true) by (vm_compute; reflexivity).
  rewrite forallb_forall in H. apply H.
Qed.

Lemma ws_prefix_white w r : In w WHITE_SPACE → ws_prefix (w +:+ r) = Some r.
Proof.
  intros H. vm_compute in H.
  repeat (destruct H as [<-|H]; [vm_compute; reflexivity|]). destruct H.
Qed.

Lemma encoded_cons w : encoded w = true →
  ∃ c y, w = String c y ∧ continuation c = false ∧ forallb continuation (chars y) = true.
Proof.
  destruct w as [|c y]; [done|]. cbn. intros [Hc Hy]%andb_prop.
  exists c, y. split; [done|]. split; [by apply negb_true_iff|done].
Qed.

Lemma ws_prefix_continuation c s : continuation c = true → ws_prefix (String c s) = None.
Proof.
  intros Hc. destruct (ws_prefix (String c s)) as [r|] eqn:E; [|done].
  apply ws_prefix_Some in E as (w & Hw & E).
  apply WHITE_SPACE_encoded, encoded_cons in Hw as (d & y & -> & Hd & _).
  rewrite append_cons in E. injection E as -> _. congruence.
Qed.

Lemma ws_prefix_length s r : ws_prefix s = Some r → (String.length r < String.length s)%nat.
Proof.
  intros (w & Hw & ->)%ws_prefix_Some.
  apply WHITE_SPACE_encoded, encoded_cons in Hw as (d & y & -> & _).
  rewrite length_append. cbn. lia.
Qed.

(** A proper, non-empty end of a white-space character starts with a
    continuation byte. *)
Lemma white_space_tail w b y :
  In w WHITE_SPACE → w = b +:+ y → b ≠ EmptyString → y ≠ EmptyString →
  ∃ c y', y = String c y' ∧ continuation c = true.
Proof.
  intros Hw E Hb Hy.
  apply WHITE_SPACE_encoded, encoded_cons in Hw as (d & t & -> & _ & Ht).
  destruct b as [|x b]; [done|]. rewrite append_cons in E. injection E as _ ->.
  rewrite chars_append, forallb_app in Ht. apply andb_prop in Ht as [_ Ht].
  destruct y as [|c y']; [done|]. cbn in Ht. apply andb_prop in Ht as [Hc _].
  by exists c, y'.
Qed.

(** *** The equations of [trimStart] and [split_go] *)

Lemma trimStart_upto_enough n : ∀ m s,
  (String.length s ≤ n)%nat → (String.length s ≤ m)%nat →
  trimStart_upto n s = trimStart_upto m s.
Proof.
  induction n as [|n IH]; intros m s Hn Hm.
  - destruct s; [|cbn in Hn; lia]. destruct m; reflexivity.
  - destruct m as [|m].
    + destruct s; [reflexivity|cbn in Hm; lia].
    + cbn [trimStart_upto]. destruct (ws_prefix s) as [r|] eqn:E; [|done].
      apply ws_prefix_length in E. apply IH; lia.
Qed.

Lemma trimStart_white s r : ws_prefix s = Some r → trimStart s = trimStart r.
Proof.
  intros E. unfold trimStart. pose proof (ws_prefix_length s r E) as Hl.
  destruct (String.length s) as [|n] eqn:En; [lia|].
  cbn [trimStart_upto]. rewrite E. apply trimStart_upto_enough; lia.
Qed.

Lemma trimStart_other s : ws_prefix s = None → trimStart s = s.
Proof.
  intros E. unfold trimStart. destruct (String.length s); [done|]. cbn [trimStart_upto]. by rewrite E.
Qed.

Lemma split_upto_enough n : ∀ m s cur in_ws,
  (String.length s ≤ n)%nat → (String.length s ≤ m)%nat →
  split_upto n s cur in_ws = split_upto m s cur in_ws.
Proof.
  induction n as [|n IH]; intros m s cur in_ws Hn Hm.
  - destruct s; [|cbn in Hn; lia]. destruct m; reflexivity.
  - destruct m as [|m].
    + destruct s; [reflexivity|cbn in Hm; lia].
    + destruct s as [|c s']; [reflexivity|]. cbn [split_upto].
      destruct (ws_prefix (String c s')) as [r|] eqn:E.
      * apply ws_prefix_length in E.
        destruct in_ws; [|f_equal]; apply IH; lia.
      * cbn in Hn, Hm. apply IH; lia.
Qed.

Lemma split_go_white s r cur in_ws :
  ws_prefix s = Some r →
  split_go s cur in_ws
  = if in_ws then split_go r cur true else cur :: split_go r EmptyString true.
Proof.
  intros E. unfold split_go. pose proof (ws_prefix_length s r E) as Hl.
  destruct s as [|c s']; [done|]. cbn [String.length split_upto]. rewrite E.
  cbn in Hl. destruct in_ws; [|f_equal]; apply split_upto_enough; lia.
Qed.

Lemma split_go_other c s cur in_ws :
  ws_prefix (String c s) = None →
  split_go (String c s) cur in_ws = split_go s (cur +:+ String c EmptyString) false.
Proof.
  intros E. unfold split_go. cbn [String.length split_upto]. by rewrite E.
Qed.

(** *** Texts of white space *)

Lemma white_append a b : white a → white b → white (a +:+ b).
Proof.
  induction 1 as [|w a Hw Ha IH]; intros Hb; [done|].
  rewrite append_assoc. constructor; [done|]. by apply IH.
Qed.

Lemma white_one w : In w WHITE_SPACE → white w.
Proof. intros H. rewrite <- (append_empty_r w). constructor; [done|constructor]. Qed.

Lemma trimStart_lead lead s : white lead → trimStart (lead +:+ s) = trimStart s.
Proof.
  induction 1 as [|w a Hw Ha IH]; [done|].
  rewrite append_assoc, (trimStart_white _ (a +:+ s)); [done|].
  by apply ws_prefix_white.
Qed.

Lemma white_blank s : white s → blank s = true.
Proof.
  intros H. unfold blank. rewrite <- (append_empty_r s), trimStart_lead by done.
  reflexivity.
Qed.

Lemma trimStart_split s : ∃ lead, white lead ∧ s = lead +:+ trimStart s.
Proof.
  remember (String.length s) as n eqn:En. revert s En.
  induction n as [n IH] using lt_wf_ind. intros s ->.
  destruct (ws_prefix s) as [r|] eqn:E.
  - pose proof (ws_prefix_length s r E) as Hl.
    destruct (IH _ Hl r eq_refl) as (lead & Hlead & Hr).
    rewrite (trimStart_white s r E).
    apply ws_prefix_Some in E as (w & Hw & ->).
    exists (w +:+ lead). split; [by constructor|].
    rewrite append_assoc. by rewrite <- Hr.
  - exists EmptyString. split; [constructor|]. by rewrite trimStart_other.
Qed.

Lemma ws_prefix_trimStart s : ws_prefix (trimStart s) = None.
Proof.
  remember (String.length s) as n eqn:En. revert s En.
  induction n as [n IH] using lt_wf_ind. intros s ->.
  destruct (ws_prefix s) as [r|] eqn:E.
  - rewrite (trimStart_white s r E).
    apply (IH _ (ws_prefix_length s r E) r eq_refl).
  - by rewrite trimStart_other.
Qed.

Lemma blank_white s : blank s = true → white s.
Proof.
  unfold blank. intros H. destruct (trimStart_split s) as (lead & Hlead & Hs).
  destruct (trimStart s); [|done]. rewrite Hs, append_empty_r. done.
Qed.

Lemma trimEnd_split s : ∃ x, white x ∧ s = trimEnd s +:+ x.
Proof.
  induction s as [|c s IH]; [exists EmptyString; split; [constructor|done]|].
  cbn [trimEnd]. destruct (blank (String c s)) eqn:E.
  - exists (String c s). split; [by apply blank_white|done].
  - destruct IH as (x & Hx & Hs). exists x. split; [done|].
    rewrite append_cons. by rewrite <- Hs.
Qed.

Lemma ws_prefix_append s r x : ws_prefix s = Some r → ws_prefix (s +:+ x) = Some (r +:+ x).
Proof.
  intros (w & Hw & ->)%ws_prefix_Some. rewrite append_assoc. by apply ws_prefix_white.
Qed.

Lemma ws_prefix_trimEnd s : ws_prefix s = None → ws_prefix (trimEnd s) = None.
Proof.
  intros H. destruct (ws_prefix (trimEnd s)) as [r|] eqn:E; [|done].
  destruct (trimEnd_split s) as (x & _ & Hs).
  apply (ws_prefix_append _ _ x) in E. rewrite <- Hs in E. congruence.
Qed.

Lemma trimEnd_idempotent s : trimEnd (trimEnd s) = trimEnd s.
Proof.
  induction s as [|c s IH]; [done|].
  cbn [trimEnd]. destruct (blank (String c s)) eqn:E; [done|].
  cbn [trimEnd]. rewrite IH.
  destruct (blank (String c (trimEnd s))) eqn:E'; [|done].
  apply blank_white in E'. destruct (trimEnd_split s) as (x & Hx & Hs).
  assert (Hw : white (String c s)).
  { rewrite Hs, <- append_cons. by apply white_append. }
  apply white_blank in Hw. congruence.
Qed.

Lemma trim_idempotent s : trim (trim s) = trim s.
Proof.
  unfold trim. rewrite (trimStart_other (trimEnd _)).
  - apply trimEnd_idempotent.
  - apply ws_prefix_trimEnd, ws_prefix_trimStart.
Qed.

Lemma white_trim s : white s → trim s = EmptyString.
Proof.
  intros H. unfold trim. apply white_blank in H. unfold blank in H.
  by destruct (trimStart s).
Qed.

(** *** Tokens *)

(** Inside a token, and at its end, no white-space character starts. *)
Lemma token_suffix a b rest :
  ws_free (a +:+ b) → b ≠ EmptyString → after_token rest →
  ws_prefix (b +:+ rest) = None.
Proof.
  intros Hfree Hb Hrest.
  destruct (ws_prefix (b +:+ rest)) as [r|] eqn:E; [|done]. exfalso.
  apply ws_prefix_Some in E as (w & Hw & E).
  apply append_eq_append in E as [(x & -> & Hr)|(x & Hx & Hr)].
  - by apply (Hfree a w x Hw).
  - destruct x as [|c x].
    + rewrite append_empty_r in Hx. subst w.
      apply (Hfree a b EmptyString Hw). by rewrite append_empty_r.
    + destruct (white_space_tail w b (String c x) Hw Hx Hb) as (c' & y' & [= <- <-] & Hc);
        [done|].
      destruct Hrest as [->|(w' & r' & Hw' & ->)]; [done|].
      apply WHITE_SPACE_encoded, encoded_cons in Hw' as (d & t & -> & Hd & _).
      rewrite !append_cons in Hr. injection Hr as -> _. congruence.
Qed.

Lemma trimEnd_other c s :
  ws_prefix (String c s) = None → trimEnd (String c s) = String c (trimEnd s).
Proof.
  intros E. cbn [trimEnd]. unfold blank. by rewrite (trimStart_other _ E).
Qed.

Lemma trimEnd_continuation y r :
  forallb continuation (chars y) = true → trimEnd (y +:+ r) = y +:+ trimEnd r.
Proof.
  induction y as [|c y IH]; [done|].
  cbn [chars forallb]. intros [Hc Hy]%andb_prop.
  rewrite !append_cons, trimEnd_other by (by apply ws_prefix_continuation).
  by rewrite IH.
Qed.

Lemma trimEnd_white w r :
  In w WHITE_SPACE →
  trimEnd (w +:+ r) = if blank (w +:+ r) then EmptyString else w +:+ trimEnd r.
Proof.
  intros Hw. apply WHITE_SPACE_encoded, encoded_cons in Hw as (c & y & -> & _ & Hy).
  rewrite !append_cons. cbn [trimEnd].
  destruct (blank (String c (y +:+ r))); [done|]. by rewrite trimEnd_continuation.
Qed.

Lemma trimEnd_token b : ∀ a rest,
  ws_free (a +:+ b) → after_token rest → trimEnd (b +:+ rest) = b +:+ trimEnd rest.
Proof.
  induction b as [|c b IH]; intros a rest Hfree Hrest; [done|].
  rewrite !append_cons, trimEnd_other.
  - f_equal. apply (IH (a +:+ String c EmptyString)); [|done].
    by rewrite append_assoc.
  - rewrite <- append_cons. by apply (token_suffix a).
Qed.



Lemma no_white_ws_free s : no_white s = true → ws_free s.
Proof.
  intros H a. revert s H. induction a as [|c a IH]; intros s H w b Hw ->.
  - pose proof (ws_prefix_white w b Hw) as E. rewrite append_nil_l in H.
    destruct (w +:+ b); [done|]. cbn [no_white] in H. by rewrite E in H.
  - rewrite append_cons in H. cbn [no_white] in H.
    destruct (ws_prefix _); [done|]. by apply (IH _ H w b Hw).
Qed.

Lemma no_white_token s : s ≠ EmptyString → no_white s = true → token s.
Proof. intros Hne H. split; [done|by apply no_white_ws_free]. Qed.

(** *** The tokens of a text *)

Lemma white_cases s :
  white s → s = EmptyString ∨ ∃ w r, In w WHITE_SPACE ∧ white r ∧ s = w +:+ r.
Proof. intros [|w r Hw Hr]; [by left|right; eauto]. Qed.

Lemma white_after_token s : white s → after_token s.
Proof.
  intros [->|(w & r & Hw & _ & ->)]%white_cases; [by left|right; eauto].
Qed.

Lemma spaced_after_token rest trail :
  Forall separated rest → white trail → after_token (spaced rest +:+ trail).
Proof.
  intros [|[sep y] more (Hsep & Hne & _) _] Htrail; [by apply white_after_token|].
  cbn [spaced]. cbn [fst] in Hsep, Hne.
  apply white_cases in Hsep as [->|(w & r & Hw & _ & ->)]; [done|].
  right. exists w. eexists. split; [done|]. by rewrite !append_assoc.
Qed.

Lemma token_not_blank x rest :
  token x → after_token rest → blank (x +:+ rest) = false.
Proof.
  intros [Hne Hfree] Hrest. unfold blank.
  rewrite trimStart_other by (by apply (token_suffix EmptyString)).
  by destruct x.
Qed.

Lemma trimEnd_blank s : blank s = true → trimEnd s = EmptyString.
Proof. intros H. destruct s; [done|]. cbn [trimEnd]. by rewrite H. Qed.

Lemma blank_lead lead s : white lead → blank (lead +:+ s) = blank s.
Proof. intros H. unfold blank. by rewrite trimStart_lead. Qed.

Lemma trimEnd_lead lead s :
  white lead → blank s = false → trimEnd (lead +:+ s) = lead +:+ trimEnd s.
Proof.
  induction 1 as [|w a Hw Ha IH]; intros Hs; [done|].
  rewrite !append_assoc, trimEnd_white by done.
  rewrite (blank_lead w) by (by apply white_one).
  rewrite (blank_lead a) by done.
  rewrite Hs. by rewrite IH.
Qed.

Lemma trimEnd_spaced rest : ∀ x trail,
  token x → Forall separated rest → white trail →
  trimEnd (x +:+ spaced rest +:+ trail) = x +:+ spaced rest.
Proof.
  induction rest as [|[sep y] more IH]; intros x trail Hx Hrest Htrail.
  - cbn [spaced]. rewrite append_nil_l.
    rewrite (trimEnd_token x EmptyString) by (by apply Hx || by apply white_after_token).
    rewrite trimEnd_blank by (by apply white_blank). done.
  - rewrite (trimEnd_token x EmptyString)
      by (by apply Hx || by apply spaced_after_token).
    apply Forall_cons in Hrest as [(Hsep & Hne & Hy) Hmore]. cbn [fst snd] in *.
    cbn [spaced]. rewrite !append_assoc.
    rewrite trimEnd_lead; [by rewrite IH|done|].
    apply token_not_blank; [done|]. by apply spaced_after_token.
Qed.

Lemma split_go_last b a cur :
  ws_free (a +:+ b) → split_go b cur false = [cur +:+ b].
Proof.
  revert a cur. induction b as [|c b IH]; intros a cur Hfree.
  - by rewrite append_empty_r.
  - rewrite split_go_other.
    + rewrite (IH (a +:+ String c EmptyString)) by (by rewrite append_assoc).
      by rewrite append_assoc.
    + rewrite <- (append_empty_r (String c b)).
      apply (token_suffix a); [done|done|by left].
Qed.

Lemma split_go_next b : ∀ a w r cur,
  ws_free (a +:+ b) → In w WHITE_SPACE →
  split_go (b +:+ w +:+ r) cur false = (cur +:+ b) :: split_go r EmptyString true.
Proof.
  induction b as [|c b IH]; intros a w r cur Hfree Hw.
  - rewrite append_nil_l, append_empty_r.
    by rewrite (split_go_white _ r) by (by apply ws_prefix_white).
  - rewrite append_cons, split_go_other.
    + rewrite (IH (a +:+ String c EmptyString)) by (by rewrite ?append_assoc).
      by rewrite append_assoc.
    + rewrite <- append_cons. apply (token_suffix a); [done|done|]. right. eauto.
Qed.

Lemma split_go_skip sep s cur :
  white sep → split_go (sep +:+ s) cur true = split_go s cur true.
Proof.
  induction 1 as [|w a Hw Ha IH]; [done|].
  rewrite append_assoc.
  by rewrite (split_go_white _ (a +:+ s)) by (by apply ws_prefix_white).
Qed.

Lemma split_go_spaced rest : ∀ a x cur,
  ws_free (a +:+ x) → Forall separated rest →
  split_go (x +:+ spaced rest) cur false = (cur +:+ x) :: List.map snd rest.
Proof.
  induction rest as [|[sep y] more IH]; intros a x cur Hfree Hrest.
  - cbn [spaced List.map]. rewrite append_empty_r. by apply (split_go_last x a).
  - apply Forall_cons in Hrest as [(Hsep & Hne & [Hy Hyfree]) Hmore].
    cbn [fst snd] in *. cbn [spaced List.map snd].
    apply white_cases in Hsep as [->|(w & r & Hw & Hr & ->)]; [done|].
    rewrite !append_assoc, (split_go_next x a) by done. f_equal.
    rewrite split_go_skip by done.
    destruct y as [|c y]; [done|].
    rewrite append_cons, split_go_other.
    + by rewrite (IH (String c EmptyString) y).
    + rewrite <- append_cons. apply (token_suffix EmptyString); [done|done|].
      rewrite <- (append_empty_r (spaced more)).
      apply spaced_after_token; [done|constructor].
Qed.

(** The tokens of a text are the texts between its runs of white space. *)
Lemma parts_of_spaced lead x rest trail :
  white lead → token x → Forall separated rest → white trail →
  parts_of (lead +:+ x +:+ spaced rest +:+ trail) = x :: List.map snd rest.
Proof.
  intros Hlead Hx Hrest Htrail. unfold parts_of, trim, split_ws.
  rewrite trimStart_lead by done.
  rewrite trimStart_other.
  - rewrite trimEnd_spaced by done.
    destruct Hx as [_ Hfree]. by apply (split_go_spaced rest EmptyString).
  - destruct Hx as [Hne Hfree].
    apply (token_suffix EmptyString); [done|done|]. by apply spaced_after_token.
Qed.


Lemma parts_of_white s : white s → parts_of s = [EmptyString].
Proof. intros H. unfold parts_of. by rewrite white_trim. Qed.

(** *** The shape of a text *)

Lemma white_space_not_empty w : In w WHITE_SPACE → w ≠ EmptyString.
Proof.
  intros Hw ->. by apply WHITE_SPACE_encoded in Hw.
Qed.

Lemma ws_free_nil : ws_free EmptyString.
Proof.
  intros a w b Hw E. symmetry in E.
  apply append_nil_inv in E as [_ E]. apply append_nil_inv in E as [E _].
  by apply (white_space_not_empty w).
Qed.

Lemma ws_free_cons c x y :
  ws_free x → ws_prefix (String c (x +:+ y)) = None → ws_free (String c x).
Proof.
  intros Hx Hc a w b Hw E. destruct a as [|d a].
  - rewrite append_nil_l in E.
    rewrite <- append_cons, E, append_assoc, ws_prefix_white in Hc by done.
    discriminate.
  - rewrite append_cons in E. injection E as _ E. by apply (Hx a w b).
Qed.

(** Every text is white space only, or is written as tokens and
    separators. *)
Lemma text_shape s :
  white s
  ∨ ∃ lead x rest trail,
      white lead ∧ token x ∧ Forall separated rest ∧ white trail
      ∧ s = lead +:+ x +:+ spaced rest +:+ trail.
Proof.
  remember (String.length s) as n eqn:En. revert s En.
  induction n as [n IH] using lt_wf_ind. intros s ->.
  destruct (ws_prefix s) as [r|] eqn:E.
  - pose proof (ws_prefix_length s r E) as Hl.
    apply ws_prefix_Some in E as (w & Hw & ->).
    destruct (IH _ Hl r eq_refl)
      as [Hr|(lead & x & rest & trail & Hlead & Hx & Hrest & Htrail & ->)].
    + left. by constructor.
    + right. exists (w +:+ lead), x, rest, trail.
      repeat split; try done; [by constructor|by apply Hx|by apply Hx|].
      by rewrite append_assoc.
  - destruct s as [|c s']; [left; constructor|]. right.
    destruct (IH (String.length s') (Nat.lt_succ_diag_r _) s' eq_refl)
      as [Hs'|(lead & x & rest & trail & Hlead & [Hne Hx] & Hrest & Htrail & ->)].
    + exists EmptyString, (String c EmptyString), [], s'.
      split; [constructor|]. split; [split; [done|]|].
      { by apply (ws_free_cons c EmptyString s'); [apply ws_free_nil|]. }
      split; [constructor|]. by split.
    + destruct (white_cases lead Hlead) as [->|(w & l & Hw & Hl & ->)].
      * exists EmptyString, (String c x), rest, trail.
        split; [constructor|]. split; [split; [done|]|].
        { by apply (ws_free_cons c x (spaced rest +:+ trail)). }
        split; [done|]. by split.
      * exists EmptyString, (String c EmptyString), ((w +:+ l, x) :: rest), trail.
        split; [constructor|]. split; [split; [done|]|].
        { by apply (ws_free_cons c EmptyString
                      ((w +:+ l) +:+ x +:+ spaced rest +:+ trail)); [apply ws_free_nil|]. }
        split.
        { constructor; [|done]. split; [by constructor|]. split; [|done].
          cbn [fst]. intros [E' _]%append_nil_inv.
          by apply (white_space_not_empty w). }
        split; [done|].
        cbn [spaced]. rewrite append_nil_l, append_cons, append_nil_l.
        by rewrite !append_assoc.
Qed.

(** *** No white space inside a token *)

Lemma append_snoc_inv cur c a b :
  cur +:+ String c EmptyString = a +:+ b → b ≠ EmptyString →
  ∃ b0, b = b0 +:+ String c EmptyString ∧ cur = a +:+ b0.
Proof.
  intros E Hb. apply append_eq_append in E as [(x & -> & ->)|(x & -> & E)].
  - by exists x.
  - destruct x as [|d x].
    + rewrite append_nil_l in E. subst b. exists EmptyString.
      rewrite !append_empty_r. by split.
    + rewrite append_cons in E. injection E as _ E.
      symmetry in E. apply append_nil_inv in E as [_ ->]. done.
Qed.

Lemma split_upto_ws_free n : ∀ s cur in_ws,
  (∀ a b, cur = a +:+ b → b ≠ EmptyString → ws_prefix (b +:+ s) = None) →
  (in_ws = true → cur = EmptyString) →
  Forall ws_free (split_upto n s cur in_ws).
Proof.
  assert (Hcur : ∀ s cur,
    (∀ a b, cur = a +:+ b → b ≠ EmptyString → ws_prefix (b +:+ s) = None) →
    ws_free cur).
  { intros s cur H a w b Hw E.
    assert (Hne : w +:+ b ≠ EmptyString).
    { apply WHITE_SPACE_encoded, encoded_cons in Hw as (d & t & -> & _). done. }
    specialize (H a (w +:+ b) E Hne).
    rewrite append_assoc, ws_prefix_white in H by done. discriminate. }
  assert (Hnil : ∀ s a b, EmptyString = a +:+ b → b ≠ EmptyString →
                          ws_prefix (b +:+ s) = None).
  { intros s a b E Hb. symmetry in E. by apply append_nil_inv in E as [_ ->]. }
  induction n as [|n IH]; intros s cur in_ws Hinv Hws.
  - constructor; [by apply (Hcur s)|constructor].
  - destruct s as [|c s']; [constructor; [by apply (Hcur EmptyString)|constructor]|].
    cbn [split_upto]. destruct (ws_prefix (String c s')) as [r|] eqn:E.
    + destruct in_ws.
      * rewrite Hws by done. apply IH; [apply Hnil|done].
      * constructor; [by apply (Hcur (String c s'))|]. apply IH; [apply Hnil|done].
    + apply IH; [|done]. intros a b Eab Hb.
      destruct (append_snoc_inv cur c a b Eab Hb) as (b0 & -> & ->).
      rewrite append_assoc. change (String c EmptyString +:+ s') with (String c s').
      destruct b0 as [|d b0]; [done|]. by apply (Hinv a).
Qed.

Lemma parts_ws_free txt : Forall ws_free (parts_of txt).
Proof.
  apply split_upto_ws_free; [|done].
  intros a b E Hb. symmetry in E. by apply append_nil_inv in E as [_ ->].
Qed.

Lemma white_space_with_space w :
  In w WHITE_SPACE → In " "%char (chars w) → w = " ".
Proof.
  intros Hw H. vm_compute in Hw.
  repeat (destruct Hw as [<-|Hw];
          [first [reflexivity
                 | exfalso; cbn in H;
                   repeat (destruct H as [H|H]; [discriminate H|]); exact H]|]).
  destruct Hw.
Qed.

(** In tokens joined by spaces, the white-space characters are the spaces
    that join them. *)
Lemma join_space_white xs : Forall ws_free xs →
  ∀ a w b, In w WHITE_SPACE → join " " xs = a +:+ w +:+ b → w = " ".
Proof.
  induction 1 as [|x xs Hx Hxs IH]; intros a w b Hw E.
  - apply WHITE_SPACE_encoded, encoded_cons in Hw as (d & t & -> & _).
    cbn in E. symmetry in E. by apply append_nil_inv in E as [_ E].
  - destruct xs as [|y ys]; [by destruct (Hx a w b Hw)|].
    change (join " " (x :: y :: ys)) with (x +:+ " " +:+ join " " (y :: ys)) in E.
    apply append_eq_append in E as [(k & -> & E)|(k & -> & E)].
    + apply append_eq_append in E as [(k' & -> & E)|(k' & -> & E)].
      * destruct k' as [|d k'].
        -- rewrite append_empty_r in Hw. exfalso.
           apply (Hx a k EmptyString Hw). by rewrite append_empty_r.
        -- rewrite !append_cons in E. injection E as <- _.
           apply white_space_with_space; [done|].
           rewrite chars_append. apply in_or_app. right. by left.
      * by destruct (Hx a w k' Hw).
    + destruct k as [|d k].
      * rewrite append_nil_l in E.
        apply white_space_with_space; [done|].
        pose proof Hw as Hw'.
        apply WHITE_SPACE_encoded, encoded_cons in Hw' as (c & t & -> & _).
        rewrite !append_cons in E. injection E as <- _. by left.
      * rewrite !append_cons in E. injection E as _ E.
        by apply (IH k w b).
Qed.

(** *** Lists separated by commas *)

Lemma WHITE_SPACE_no_comma w :
  In w WHITE_SPACE → forallb (fun c => negb (code c =? 44)%N) (chars w) = true.
Proof.
  assert (H : forallb (fun w => forallb (fun c => negb (code c =? 44)%N) (chars w))
                WHITE_SPACE = true) by (vm_compute; reflexivity).
  rewrite forallb_forall in H. apply H.
Qed.

Lemma split_comma_go_append w : ∀ s cur,
  forallb (fun c => negb (code c =? 44)%N) (chars w) = true →
  split_comma_go (w +:+ s) cur = split_comma_go s (cur +:+ w).
Proof.
  induction w as [|c w IH]; intros s cur H.
  - by rewrite append_empty_r.
  - cbn [chars forallb] in H. apply andb_prop in H as [Hc Hw].
    rewrite append_cons. cbn [split_comma_go].
    apply negb_true_iff in Hc. rewrite Hc, IH by done. by rewrite append_assoc.
Qed.

Lemma split_comma_go_separators s :
  separators s → ∀ cur, white cur → Forall white (split_comma_go s cur).
Proof.
  induction 1 as [|s Hs IH|w s Hw Hs IH]; intros cur Hcur.
  - constructor; [done|constructor].
  - change ("," +:+ s) with (String "," s). cbn [split_comma_go].
    change (code "," =? 44)%N with true. cbn match.
    constructor; [done|]. apply IH. constructor.
  - rewrite split_comma_go_append by (by apply WHITE_SPACE_no_comma).
    apply IH. apply white_append; [done|by apply white_one].
Qed.

Lemma filter_trim_white xs :
  Forall white xs → List.filter nonempty (List.map trim xs) = [].
Proof.
  induction 1 as [|x xs Hx _ IH]; [done|].
  cbn [List.map List.filter]. by rewrite (white_trim x Hx).
Qed.



(** *** Letter case *)

Lemma code_inj x y : code x = code y → x = y.
Proof.
  unfold code. intros H.
  by rewrite <- (ascii_N_embedding x), <- (ascii_N_embedding y), H.
Qed.

Lemma toLowerCase_cons c s :
  code c ≠ 226%N → toLowerCase (String c s) = String (lower_char c) (toLowerCase s).
Proof.
  intros H. destruct s as [|c2 [|c3 s]]; try reflexivity.
  cbn [toLowerCase]. apply N.eqb_neq in H. by rewrite H.
Qed.

Lemma same_letter_cases x y :
  same_letter x y = true →
  code x = code y
  ∨ ((65 ≤ code x ≤ 90)%N ∧ code y = (code x + 32)%N)
  ∨ ((65 ≤ code y ≤ 90)%N ∧ code x = (code y + 32)%N).
Proof.
  unfold same_letter. intros H.
  apply orb_prop in H as [H|H]; [apply orb_prop in H as [H|H]|].
  - left. by apply N.eqb_eq.
  - right. left. apply andb_prop in H as [[H1 H2]%andb_prop H3].
    apply N.leb_le in H1, H2. apply N.eqb_eq in H3. lia.
  - right. right. apply andb_prop in H as [[H1 H2]%andb_prop H3].
    apply N.leb_le in H1, H2. apply N.eqb_eq in H3. lia.
Qed.

Lemma lower_ascii_cases y :
  lower_ascii y = true → (code y < 128)%N ∧ ¬ (65 ≤ code y ≤ 90)%N.
Proof.
  unfold lower_ascii. intros [H1 H2]%andb_prop. apply N.ltb_lt in H1.
  split; [done|]. intros [H3 H4]. apply N.leb_le in H3, H4.
  by rewrite H3, H4 in H2.
Qed.

Lemma lower_char_upper x :
  (65 ≤ code x ≤ 90)%N → lower_char x = ascii_of_N (code x + 32).
Proof.
  intros [H1 H2]. unfold lower_char. apply N.leb_le in H1, H2. by rewrite H1, H2.
Qed.

Lemma lower_char_other x : ¬ (65 ≤ code x ≤ 90)%N → lower_char x = x.
Proof.
  intros H. unfold lower_char.
  destruct (N.leb_spec 65 (code x)), (N.leb_spec (code x) 90); try done. lia.
Qed.

Lemma same_letter_lower x y :
  same_letter x y = true → lower_ascii y = true →
  code x ≠ 226%N ∧ lower_char x = y.
Proof.
  intros H Hl. apply lower_ascii_cases in Hl as [Hl1 Hl2].
  destruct (same_letter_cases x y H) as [E|[[Hx E]|[Hy E]]].
  - split; [lia|]. apply code_inj in E as <-. by apply lower_char_other.
  - split; [lia|]. rewrite lower_char_upper, <- E by done. apply ascii_N_embedding.
  - lia.
Qed.

Lemma same_word_lower tok : ∀ w,
  same_word tok w = true → forallb lower_ascii (chars w) = true →
  toLowerCase tok = w.
Proof.
  induction tok as [|x tok IH]; intros [|y w]; try done.
  cbn [same_word chars forallb]. intros [Hxy Hw]%andb_prop [Hy Hl]%andb_prop.
  destruct (same_letter_lower x y Hxy Hy) as [Hx <-].
  rewrite toLowerCase_cons by done. f_equal. by apply IH.
Qed.

Lemma lower_char_same x : same_letter x (lower_char x) = true.
Proof.
  unfold same_letter.
  destruct (N.leb_spec 65 (code x)) as [H1|H1], (N.leb_spec (code x) 90) as [H2|H2];
    cbn [andb].
  2-4: rewrite lower_char_other by lia; by rewrite N.eqb_refl.
  rewrite lower_char_upper by lia.
  assert (E : code (ascii_of_N (code x + 32)) = (code x + 32)%N).
  { unfold code. apply N_ascii_embedding. fold (code x). lia. }
  rewrite E, (N.eqb_refl (code x + 32)). by rewrite orb_true_r.
Qed.

Lemma toLowerCase_step x t :
  toLowerCase (String x t) = String (lower_char x) (toLowerCase t)
  ∨ ∃ r, toLowerCase (String x t) = String "k" r.
Proof.
  destruct t as [|c2 [|c3 t']]; [by left|by left|].
  assert (E : toLowerCase (String x (String c2 (String c3 t')))
              = if ((code x =? 226) && (code c2 =? 132) && (code c3 =? 170))%N
                then String "k" (toLowerCase t')
                else String (lower_char x) (toLowerCase (String c2 (String c3 t'))))
    by reflexivity.
  rewrite E. destruct (_ && _); [right; eauto|by left].
Qed.

(** A text whose lower case is a text without the letter [k] is that text
    up to the case of its letters. *)
Lemma lower_same_word tok : ∀ w,
  toLowerCase tok = w → ¬ In "k"%char (chars w) → same_word tok w = true.
Proof.
  induction tok as [|x tok IH]; intros w Hw Hk; [by subst w|].
  destruct (toLowerCase_step x tok) as [E|[r E]]; rewrite E in Hw; subst w.
  - cbn [same_word]. rewrite lower_char_same. cbn [andb].
    apply IH; [done|]. intros H. apply Hk. by right.
  - destruct Hk. by left.
Qed.

End Tokens.

(** ** The entry point *)

Section Handler.

Context {World : Type}.
Variable fetch : request → World → fetch_outcome * World.
Variable cfg : Config.
Implicit Types (s : State World).

(** C8.  Whatever the event, the state and the behaviour of the network,
    the entry point returns the acknowledgment with status 200: a rejected
    request to Telegram or to the store, an unreadable body or any other
    exception raised while the command runs ends in the handler's own
    [catch], never at the caller. *)
Theorem handler_always_200 now (event : Event) s :
  fst (handler fetch cfg now event s) = Returned ok200.
Proof.
  unfold handler. apply try_catch_constant. intros x s'.
  destruct (negb (String.eqb (httpMethod event) "POST")).
  { by intros [= <- _]. }
  unfold bind. destruct (parse_update (body_json event) s) as [[u|err] s1]; [|done].
  destruct (update_chatId u) as [chatId|].
  - destruct (handleCommand _ _ _ _ _ _ _ s1) as [[[]|err] s2]; [|done].
    by intros [= <- _].
  - by intros [= <- _].
Qed.

(** C10.  A request whose method is not POST, or in whose body no chat
    identifier is found, is answered with status 200 and body [ok], and
    the state is the one before the call: no request to Telegram or to
    the store, and the same rate-limit map. *)
Theorem handler_ignores_without_effect now (event : Event) s :
  httpMethod event ≠ "POST" ∨ event_chatId event = None →
  handler fetch cfg now event s = (Returned ok200, s)
  ∧ statusCode ok200 = 200 ∧ result_body ok200 = "ok".
Proof.
  intros H. split; [|done]. unfold handler, try_catch.
  destruct (String.eqb_spec (httpMethod event) "POST") as [Hpost|Hpost]; cbn.
  - destruct H as [H|H]; [done|].
    unfold event_chatId in H. unfold bind, parse_update.
    destruct (body_json event) as [| |u]; cbn.
    + done.
    + done.
    + by rewrite H.
  - done.
Qed.

End Handler.

(** ** The command router *)

Section Router.

Context {World : Type}.
Variable fetch : request → World → fetch_outcome * World.
Variable cfg : Config.
Implicit Types (s : State World).

Lemma handleCommand_gate now chatId userId txt message s :
  handleCommand fetch cfg now chatId userId txt message s =
    if admitted now chatId s
    then route fetch cfg chatId userId txt message (after_gate now chatId s)
    else sendMessage fetch chatId SLOW_DOWN None (after_gate now chatId s).
Proof.
  unfold handleCommand, bind, allowRateM, admitted, after_gate.
  by destruct (allowRate now chatId (rateMap s)) as [[] rm].
Qed.

Lemma route_start chatId userId txt message :
  cmd_of txt = "/start" ∨ cmd_of txt = "start" →
  route fetch cfg chatId userId txt message = sendMessage fetch chatId HELP Markdown.
Proof. intros [H|H]; unfold route; by rewrite H. Qed.

Lemma route_profile chatId userId txt message :
  cmd_of txt = "/profile" ∨ cmd_of txt = "/me" →
  route fetch cfg chatId userId txt message =
    sendMessage fetch chatId (profileMsg userId message) Markdown.
Proof. intros [H|H]; unfold route; by rewrite H. Qed.

Lemma route_setpayment chatId userId txt message :
  cmd_of txt = "/setpayment" ∨ cmd_of txt = "setpayment" →
  route fetch cfg chatId userId txt message =
    cmd_setpayment fetch cfg chatId userId (parts_of txt).
Proof. intros [H|H]; unfold route; by rewrite H. Qed.

Lemma route_getpayments chatId userId txt message :
  cmd_of txt = "/getpayments" ∨ cmd_of txt = "/payments" →
  route fetch cfg chatId userId txt message = cmd_getpayments fetch cfg chatId.
Proof. intros [H|H]; unfold route; by rewrite H. Qed.

Lemma route_unrecognised chatId userId txt message :
  ¬ In (cmd_of txt) COMMAND_WORDS →
  route fetch cfg chatId userId txt message
  = sendMessage fetch chatId
      (if startsWith_slash txt then UNKNOWN_COMMAND else NOT_A_COMMAND) None.
Proof.
  intros Hnot. unfold route.
  assert (Hw : ∀ w, In w COMMAND_WORDS → String.eqb (cmd_of txt) w = false).
  { intros w Hin. apply String.eqb_neq. intros E. apply Hnot. by rewrite E. }
  rewrite !Hw by (cbn; auto 10). cbn [orb].
  by destruct (startsWith_slash txt).
Qed.

(** What a call that ends in one reply leaves in the trace. *)
Lemma gated_reply_trace now chatId userId txt message s reply_text :
  route fetch cfg chatId userId txt message (after_gate now chatId s)
    = sendMessage fetch chatId reply_text None (after_gate now chatId s) →
  trace (snd (handleCommand fetch cfg now chatId userId txt message s)) =
    trace s ++ [reply chatId (if admitted now chatId s then reply_text else SLOW_DOWN) None].
Proof.
  intros Hroute. rewrite handleCommand_gate.
  destruct (admitted now chatId s).
  - rewrite Hroute. by rewrite sendMessage_state.
  - by rewrite sendMessage_state.
Qed.

Lemma command_word_lower w :
  In w COMMAND_WORDS →
  forallb lower_ascii (chars w) = true ∧ ¬ In "k"%char (chars w).
Proof.
  intros H. cbn in H.
  repeat (destruct H as [<-|H];
          [split; [reflexivity|];
           cbn; intros Hk; repeat (destruct Hk as [Hk|Hk]; [discriminate Hk|]);
           exact Hk|]).
  destruct H.
Qed.

(** The command word of a text written as tokens and separators. *)
Lemma cmd_of_spaced lead x rest trail w :
  white lead → token x → Forall separated rest → white trail →
  In w COMMAND_WORDS →
  cmd_of (lead +:+ x +:+ spaced rest +:+ trail) = w ↔ same_word x w = true.
Proof.
  intros Hlead Hx Hrest Htrail Hw.
  destruct (command_word_lower w Hw) as [Hlow Hk].
  unfold cmd_of. rewrite parts_of_spaced by done. cbn [hd]. split.
  - intros E. by apply lower_same_word.
  - intros E. by apply same_word_lower.
Qed.

Lemma isAdmin_empty userId : ADMIN_IDS cfg = [] → isAdmin cfg userId = true.
Proof. unfold isAdmin. by intros ->. Qed.

Lemma isAdmin_listed userId :
  ADMIN_IDS cfg ≠ [] →
  isAdmin cfg userId = true ↔ In (string_of_id userId) (ADMIN_IDS cfg).
Proof.
  unfold isAdmin. intros Hne.
  destruct (ADMIN_IDS cfg) as [|a ids] eqn:E; [done|].
  apply includes_In.
Qed.

(** C3 (amended).  With an empty administrator list every sender is an
    administrator; with a non-empty one a sender is an administrator
    exactly when the text of their identifier is in the list.  A sender
    who is not one and sends [/setpayment] causes exactly one request, a
    message to their chat, and no request to the store: the
    administrators-only refusal when the rate limiter lets the message
    through, the slow-down notice when it does not. *)
Theorem setpayment_admin_only :
  (ADMIN_IDS cfg = [] → ∀ userId, isAdmin cfg userId = true)
  ∧ (ADMIN_IDS cfg ≠ [] →
     ∀ userId, isAdmin cfg userId = true
               ↔ In (string_of_id userId) (ADMIN_IDS cfg))
  ∧ (∀ now chatId userId txt message s,
       cmd_of txt = "/setpayment" ∨ cmd_of txt = "setpayment" →
       isAdmin cfg userId = false →
       let s' := snd (handleCommand fetch cfg now chatId userId txt message s) in
       trace s' =
         trace s ++ [reply chatId (if admitted now chatId s
                                   then ADMIN_ONLY else SLOW_DOWN) None]
       ∧ store_calls s' = store_calls s).
Proof.
  split; [|split].
  - intros H userId. by apply isAdmin_empty.
  - intros H userId. by apply isAdmin_listed.
  - intros now chatId userId txt message s Hcmd Hadm.
    assert (Ht : trace (snd (handleCommand fetch cfg now chatId userId txt message s)) =
                 trace s ++ [reply chatId (if admitted now chatId s
                                           then ADMIN_ONLY else SLOW_DOWN) None]).
    { apply gated_reply_trace.
      rewrite route_setpayment by done.
      unfold cmd_setpayment. by rewrite Hadm. }
    split; [exact Ht|]. by eapply store_calls_reply.
Qed.

(** C6 (amended).  For an administrator, [/setpayment] with fewer than
    three tokens, or with three or more tokens and a second token that in
    lower case is neither [jazzcash] nor [easypaisa], causes exactly one
    request, a message to the chat, and no request to the store.  When
    the rate limiter lets the message through, the message is the usage
    text in the first case and, in the second, the invalid-provider text,
    which lists [jazzcash, easypaisa]; when it does not, the message is
    the slow-down notice.  The tokens are what white space delimits: when
    the text is written as white space, a first token, further tokens each
    after a run of white space, and white space at the end, the first
    token is [/setpayment] or [setpayment] up to the case of its letters,
    there is one token more than there are runs of white space between
    tokens, and the provider is the token after the first run. *)
Theorem setpayment_argument_checks now chatId userId txt message s :
  cmd_of txt = "/setpayment" ∨ cmd_of txt = "setpayment" →
  isAdmin cfg userId = true →
  let s' := snd (handleCommand fetch cfg now chatId userId txt message s) in
  ((length (parts_of txt) < 3)%nat →
     trace s' = trace s ++ [reply chatId (if admitted now chatId s
                                          then USAGE else SLOW_DOWN) None]
     ∧ store_calls s' = store_calls s)
  ∧ ((3 ≤ length (parts_of txt))%nat →
     ¬ In (toLowerCase (nth 1 (parts_of txt) EmptyString)) ["jazzcash"; "easypaisa"] →
     trace s' = trace s ++ [reply chatId (if admitted now chatId s
                                          then INVALID_PROVIDER else SLOW_DOWN) None]
     ∧ store_calls s' = store_calls s)
  ∧ INVALID_PROVIDER = "Invalid provider. Allowed: jazzcash, easypaisa"
  ∧ (∀ lead x rest trail,
       white lead → token x → Forall separated rest → white trail →
       txt = lead +:+ x +:+ spaced rest +:+ trail →
       same_word x "/setpayment" || same_word x "setpayment" = true
       ∧ length (parts_of txt) = S (length rest)
       ∧ nth 1 (parts_of txt) EmptyString = nth 0 (List.map snd rest) EmptyString).
Proof.
  intros Hcmd Hadm s'. split; [|split; [|split; [done|]]]; cycle 2.
  { intros lead x rest trail Hlead Hx Hrest Htrail ->. split; [|split].
    - apply orb_true_iff.
      destruct Hcmd as [H|H]; [left|right];
        (apply (cmd_of_spaced lead x rest trail); [done..|cbn; auto 10|done]).
    - rewrite parts_of_spaced by done. cbn [length]. by rewrite length_map.
    - by rewrite parts_of_spaced. }
  - intros Hlen.
    assert (Ht : trace s' = trace s ++ [reply chatId (if admitted now chatId s
                                                      then USAGE else SLOW_DOWN) None]).
    { apply gated_reply_trace.
      rewrite route_setpayment by done.
      unfold cmd_setpayment. rewrite Hadm. cbn [negb].
      destruct (Z.ltb_spec (Z.of_nat (length (parts_of txt))) 3); [done | lia]. }
    split; [exact Ht|]. by eapply store_calls_reply.
  - intros Hlen Hprov.
    assert (Ht : trace s' = trace s ++ [reply chatId (if admitted now chatId s
                                                      then INVALID_PROVIDER
                                                      else SLOW_DOWN) None]).
    { apply gated_reply_trace.
      rewrite route_setpayment by done.
      unfold cmd_setpayment. rewrite Hadm. cbn [negb].
      destruct (Z.ltb_spec (Z.of_nat (length (parts_of txt))) 3); [lia|].
      destruct (includes ALLOWED_PROVIDERS _) eqn:E; [|done].
      apply includes_In in E. contradiction. }
    split; [exact Ht|]. by eapply store_calls_reply.
Qed.

(** C4 (amended).  A text is written as white space, a first token, the
    further tokens each after a run of white space, and white space at the
    end; white space is that of JavaScript, a token has none in it.  For
    such a text that the rate limiter lets through, the tokens the router
    works on are these tokens, and it dispatches on the first one up to
    the case of its letters: [/start] and [start] give the help text,
    [/profile] and [/me] the profile, [/setpayment] and [setpayment] the
    payment update on the tokens, [/getpayments] and [/payments] the list
    of payment records.  Every other first token, [/help], [help] and the
    words [profile], [me], [getpayments] and [payments] without the [/]
    among them, gets the unknown-command notice when the text starts with
    [/] and the hint at the commands when it does not. *)
Theorem route_dispatch now chatId userId lead x rest trail message s :
  white lead → token x → Forall separated rest → white trail →
  admitted now chatId s = true →
  let txt := lead +:+ x +:+ spaced rest +:+ trail in
  let run := handleCommand fetch cfg now chatId userId txt message s in
  let s1 := after_gate now chatId s in
  parts_of txt = x :: List.map snd rest
  ∧ (∀ w, In w COMMAND_WORDS → cmd_of txt = w ↔ same_word x w = true)
  ∧ (same_word x "/start" || same_word x "start" = true →
     run = sendMessage fetch chatId HELP Markdown s1)
  ∧ (same_word x "/profile" || same_word x "/me" = true →
     run = sendMessage fetch chatId (profileMsg userId message) Markdown s1)
  ∧ (same_word x "/setpayment" || same_word x "setpayment" = true →
     run = cmd_setpayment fetch cfg chatId userId (x :: List.map snd rest) s1)
  ∧ (same_word x "/getpayments" || same_word x "/payments" = true →
     run = cmd_getpayments fetch cfg chatId s1)
  ∧ ((∀ w, In w COMMAND_WORDS → same_word x w = false) →
     run = sendMessage fetch chatId
             (if startsWith_slash txt then UNKNOWN_COMMAND else NOT_A_COMMAND)
             None s1).
Proof.
  intros Hlead Hx Hrest Htrail Hgate txt run s1.
  assert (Hparts : parts_of txt = x :: List.map snd rest)
    by (by apply parts_of_spaced).
  assert (Hword : ∀ w, In w COMMAND_WORDS → cmd_of txt = w ↔ same_word x w = true)
    by (intros w Hw; by apply cmd_of_spaced).
  assert (Hor : ∀ w1 w2, In w1 COMMAND_WORDS → In w2 COMMAND_WORDS →
                         same_word x w1 || same_word x w2 = true →
                         cmd_of txt = w1 ∨ cmd_of txt = w2).
  { intros w1 w2 H1 H2 [H|H]%orb_prop; [left|right]; by apply Hword. }
  subst run. rewrite handleCommand_gate, Hgate. fold s1.
  split; [done|]. split; [done|]. repeat split; intros H.
  - rewrite route_start; [done|]. apply Hor; [cbn; auto 10..|done].
  - rewrite route_profile; [done|]. apply Hor; [cbn; auto 10..|done].
  - rewrite route_setpayment; [by rewrite Hparts|]. apply Hor; [cbn; auto 10..|done].
  - rewrite route_getpayments; [done|]. apply Hor; [cbn; auto 10..|done].
  - rewrite route_unrecognised; [done|]. intros Hin.
    pose proof (proj1 (Hword _ Hin) eq_refl) as E. rewrite (H _ Hin) in E. discriminate.
Qed.

End Router.

(** ** Sanitization of the replies *)

Section Emits.

Context {World : Type}.
Variable fetch : request → World → fetch_outcome * World.
Variable P : request → Prop.
Implicit Types (s : State World).

Lemma emits_ret {A} (a : A) : emits P (ret (World := World) a).
Proof. intros s. exists []. by rewrite app_nil_r. Qed.

Lemma emits_raise {A} err : emits P (raise (World := World) (A := A) err).
Proof. intros s. exists []. by rewrite app_nil_r. Qed.

Lemma emits_bind {A B} (m : M World A) (k : A → M World B) :
  emits P m → (∀ a, emits P (k a)) → emits P (bind m k).
Proof.
  intros Hm Hk s. unfold bind.
  destruct (Hm s) as (n1 & E1 & F1).
  destruct (m s) as [[a|err] s1]; cbn in E1.
  - destruct (Hk a s1) as (n2 & E2 & F2).
    exists (n1 ++ n2). rewrite E2, E1, app_assoc.
    split; [done|]. by apply Forall_app.
  - by exists n1.
Qed.

Lemma emits_try_catch {A} (m : M World A) (h : string → M World A) :
  emits P m → (∀ err, emits P (h err)) → emits P (try_catch m h).
Proof.
  intros Hm Hh s. unfold try_catch.
  destruct (Hm s) as (n1 & E1 & F1).
  destruct (m s) as [[a|err] s1]; cbn in E1.
  - by exists n1.
  - destruct (Hh err s1) as (n2 & E2 & F2).
    exists (n1 ++ n2). rewrite E2, E1, app_assoc.
    split; [done|]. by apply Forall_app.
Qed.

Lemma emits_do_fetch r : P r → emits P (do_fetch fetch r).
Proof.
  intros Hr s. exists [r]. rewrite do_fetch_state. cbn.
  split; [done|]. by constructor.
Qed.

Lemma emits_res_json res : emits P (res_json (World := World) res).
Proof. unfold res_json. destruct (json res); [apply emits_ret | apply emits_raise]. Qed.

Lemma emits_sendMessage chatId txt mode :
  P (reply chatId txt mode) → emits P (sendMessage fetch chatId txt mode).
Proof.
  intros Hr. unfold sendMessage, tg.
  apply emits_bind; [by apply emits_do_fetch | intros; apply emits_ret].
Qed.

Lemma emits_allowRateM now chatId : emits P (allowRateM (World := World) now chatId).
Proof.
  intros s. exists []. unfold allowRateM.
  destruct (allowRate now chatId (rateMap s)) as [b rm]. cbn.
  by rewrite app_nil_r.
Qed.

Hypothesis store_requests : ∀ r, is_airtable r = true → P r.

Lemma emits_airtableGetAll cfg : emits P (airtableGetAll fetch cfg).
Proof.
  unfold airtableGetAll.
  destruct (_ || _); [apply emits_ret|].
  apply emits_bind; [by apply emits_do_fetch, store_requests|].
  intros res. destruct (negb (ok res)); [apply emits_ret|].
  apply emits_bind; [apply emits_res_json | intros; apply emits_ret].
Qed.

Lemma emits_airtableCreateOrUpdate cfg provider details :
  emits P (airtableCreateOrUpdate fetch cfg provider details).
Proof.
  unfold airtableCreateOrUpdate.
  destruct (_ || _); [apply emits_raise|].
  apply emits_bind; [by apply emits_do_fetch, store_requests|].
  intros found.
  destruct (records _) as [[|rec rs]|];
    (apply emits_bind;
     [by apply emits_do_fetch, store_requests | intros; apply emits_res_json]).
Qed.

End Emits.

Section Sanitization.

Lemma markdown_char_spec c :
  markdown_char c = true ↔ In c ["*"; "_"; "`"; "["; "]"]%char.
Proof.
  destruct c as [[] [] [] [] [] [] [] []]; vm_compute;
    (split; [intros H; first [discriminate H | tauto]
            | intros H; first [reflexivity | exfalso; intuition discriminate]]).
Qed.

Lemma chars_strip_markdown x :
  chars (strip_markdown x) = List.filter (fun c => negb (markdown_char c)) (chars x).
Proof.
  induction x as [|c x IH]; [done|].
  cbn. destruct (markdown_char c); cbn; by rewrite IH.
Qed.

Lemma safeText_Some x : safeText (Some x) = strip_markdown x.
Proof. by destruct x. Qed.

(** The provider and the details a record contributes to the list. *)
Lemma payment_line_shape r :
  ∃ pd : string * string,
    payment_line r = nl +:+ "- *" +:+ strip_markdown (fst pd)
                     +:+ "*: " +:+ strip_markdown (snd pd).
Proof.
  unfold payment_line. rewrite !safeText_Some. by eexists (_, _).
Qed.

Lemma payments_fold_sanitized rs :
  ∀ out, ∃ rows : list (string * string),
    fold_left (fun out r => out +:+ payment_line r) rs out
    = fold_left
        (fun out pd => out +:+ nl +:+ "- *" +:+ strip_markdown (fst pd)
                       +:+ "*: " +:+ strip_markdown (snd pd))
        rows out.
Proof.
  induction rs as [|r rs IH]; intros out; [by exists []|].
  destruct (payment_line_shape r) as [pd Hpd].
  destruct (IH (out +:+ payment_line r)) as [rows Hrows].
  exists (pd :: rows). cbn. by rewrite Hrows, Hpd.
Qed.

Lemma payments_text_sanitized userId rs : sanitized_reply userId (payments_text rs).
Proof. right; right; right. apply payments_fold_sanitized. Qed.

Lemma profileMsg_sanitized userId message :
  sanitized_reply userId (profileMsg userId message).
Proof.
  right; left. unfold profileMsg. rewrite safeText_Some.
  eexists _, _. split; [reflexivity|].
  destruct (Message.from message) as [u|]; [|by left].
  destruct (truthy (User.username u)) eqn:E; [|by left].
  right. destruct (User.username u) as [x|]; [|done].
  exists x. by rewrite safeText_Some.
Qed.

Context {World : Type}.
Variable fetch : request → World → fetch_outcome * World.
Variable cfg : Config.

Lemma plain_text_safe userId chatId txt : markdown_safe userId (reply chatId txt None).
Proof. intros H. discriminate H. Qed.

Lemma store_request_safe userId r : is_airtable r = true → markdown_safe userId r.
Proof. by destruct r. Qed.

Lemma handleCommand_markdown_safe now chatId userId txt message :
  emits (markdown_safe userId) (handleCommand fetch cfg now chatId userId txt message).
Proof.
  unfold handleCommand.
  apply emits_bind; [apply emits_allowRateM|]. intros allowed.
  destruct (negb allowed); [apply emits_sendMessage, plain_text_safe|].
  unfold route.
  destruct (_ || _).
  { apply emits_sendMessage. intros _. by left. }
  destruct (_ || _).
  { apply emits_sendMessage. intros _. apply profileMsg_sanitized. }
  destruct (_ || _).
  { unfold cmd_setpayment.
    destruct (negb _); [apply emits_sendMessage, plain_text_safe|].
    destruct (_ <? _); [apply emits_sendMessage, plain_text_safe|].
    destruct (includes ALLOWED_PROVIDERS _) eqn:E; cbn [negb];
      [|apply emits_sendMessage, plain_text_safe].
    apply includes_In in E.
    apply emits_try_catch; [|intros; apply emits_sendMessage, plain_text_safe].
    destruct (airtable_configured cfg); [|apply emits_sendMessage, plain_text_safe].
    apply emits_bind.
    - apply emits_airtableCreateOrUpdate, store_request_safe.
    - intros _. apply emits_sendMessage. intros _. right; right; left. eauto. }
  destruct (_ || _).
  { unfold cmd_getpayments.
    apply emits_try_catch; [|intros; apply emits_sendMessage, plain_text_safe].
    apply emits_bind; [apply emits_airtableGetAll, store_request_safe|].
    intros [|r rs]; [apply emits_sendMessage, plain_text_safe|].
    apply emits_sendMessage. intros _. apply payments_text_sanitized. }
  destruct (startsWith_slash txt); apply emits_sendMessage, plain_text_safe.
Qed.

(** C5 (amended).  [safeText] removes exactly the characters [*], [_],
    the backtick, [[] and []] and keeps the others in order.  Every
    message the router sends in Markdown mode is the help text, or the
    profile with the display name and the user name passed through that
    removal, or the confirmation of an update with a provider of the
    allowed list, or the list of payment records with each provider and
    each details text passed through that removal.  (Messages sent as
    plain text are not covered: the echo of an update that is not
    persisted repeats the details as they were typed.) *)
Theorem markdown_replies_sanitized :
  (∀ c, markdown_char c = true ↔ In c ["*"; "_"; "`"; "["; "]"]%char)
  ∧ (∀ o, chars (safeText o)
          = List.filter (fun c => negb (markdown_char c)) (chars (or_lit o EmptyString)))
  ∧ (∀ x, chars (strip_markdown x)
          = List.filter (fun c => negb (markdown_char c)) (chars x))
  ∧ (∀ now chatId userId txt message,
       emits (markdown_safe userId)
         (handleCommand fetch cfg now chatId userId txt message)).
Proof.
  split; [|split; [|split]].
  - apply markdown_char_spec.
  - intros o. apply chars_strip_markdown.
  - apply chars_strip_markdown.
  - apply handleCommand_markdown_safe.
Qed.

End Sanitization.

(** ** The store *)

Section Table.

Import Store.
Implicit Types (st : Store.t) (p q d : string).

Lemma has_provider_row p q d : has_provider q (row p d) = String.eqb p q.
Proof. done. Qed.

Lemma has_provider_other p q f : has_provider p f = true → q ≠ p → has_provider q f = false.
Proof.
  unfold has_provider. destruct (Airtable.Provider f) as [x|]; [|done].
  intros Hx%String.eqb_eq Hne. subst x.
  apply String.eqb_neq. congruence.
Qed.

Lemma records_for_app p l1 l2 :
  records_for p (l1 ++ l2) = records_for p l1 ++ records_for p l2.
Proof. apply List.filter_app. Qed.

(** An empty search result: the table has no row for the provider. *)
Lemma find_rows_nil p st :
  ∀ k, List.filter (record_has_provider p) (rows_from k st) = [] →
       records_for p st = [].
Proof.
  induction st as [|f st IH]; intros k; [done|].
  cbn. unfold record_has_provider at 1. cbn.
  destruct (has_provider p f); [done|]. apply IH.
Qed.

(** A non-empty search result: its first record is the first row of the
    table for the provider, and its identifier is the position of that
    row. *)
Lemma find_rows_cons p st :
  ∀ k r rs,
    List.filter (record_has_provider p) (rows_from k st) = r :: rs →
    ∃ l1 f l2,
      st = l1 ++ f :: l2 ∧ Airtable.id r = (k + length l1)%nat
      ∧ has_provider p f = true ∧ records_for p l1 = [].
Proof.
  induction st as [|f st IH]; intros k r rs; [done|].
  cbn. unfold record_has_provider at 1. cbn.
  destruct (has_provider p f) eqn:Hf.
  - intros [= <- _]. exists [], f, st. cbn. split; [done|].
    split; [lia|done].
  - intros (l1 & g & l2 & -> & Hid & Hg & Hl1)%IH.
    exists (f :: l1), g, l2. cbn. rewrite Hf.
    split; [done|]. split; [lia|done].
Qed.

(** With at most one row per provider, replacing the row found leaves
    exactly the new row for that provider. *)
Lemma patch_found p d l1 f l2 :
  unique_providers (l1 ++ f :: l2) →
  has_provider p f = true →
  records_for p (l1 ++ row p d :: l2) = [row p d]
  ∧ (∀ q, q ≠ p → records_for q (l1 ++ row p d :: l2) = records_for q (l1 ++ f :: l2)).
Proof.
  intros Hu Hf. split.
  - specialize (Hu p). rewrite records_for_app in Hu. cbn in Hu.
    rewrite Hf in Hu. rewrite length_app in Hu. cbn in Hu.
    rewrite records_for_app. cbn. rewrite String.eqb_refl.
    destruct (records_for p l1); [|cbn in Hu; lia].
    destruct (List.filter (has_provider p) l2); [done | cbn in Hu; lia].
  - intros q Hq. rewrite !records_for_app. cbn.
    rewrite (has_provider_other p q f Hf Hq).
    by replace (String.eqb p q) with false
      by (symmetry; apply String.eqb_neq; congruence).
Qed.

Lemma create_missing p d st :
  records_for p st = [] →
  records_for p (st ++ [row p d]) = [row p d]
  ∧ (∀ q, q ≠ p → records_for q (st ++ [row p d]) = records_for q st).
Proof.
  intros Hp. split.
  - rewrite records_for_app, Hp. cbn. by rewrite String.eqb_refl.
  - intros q Hq. rewrite records_for_app. cbn.
    replace (String.eqb p q) with false
      by (symmetry; apply String.eqb_neq; congruence).
    apply app_nil_r.
Qed.

Lemma unique_after_upsert p d st st' :
  unique_providers st →
  records_for p st' = [row p d] →
  (∀ q, q ≠ p → records_for q st' = records_for q st) →
  unique_providers st'.
Proof.
  intros Hu Hp Hq q. destruct (decide (q = p)) as [->|Hne].
  - by rewrite Hp.
  - rewrite Hq by done. apply Hu.
Qed.

End Table.

Section IdealStore.

Variable telegram : string → TgBody → fetch_outcome.
Variable cfg : Config.
Implicit Types (s : State Store.t).

Local Abbreviation F := (Store.fetch telegram).

Lemma configured_inv :
  airtable_configured cfg = true →
  negb (truthy (AIRTABLE_API_KEY cfg)) || negb (truthy (AIRTABLE_BASE_ID cfg)) = false.
Proof. unfold airtable_configured. intros [-> ->]%andb_prop. done. Qed.

Lemma unconfigured_inv :
  airtable_configured cfg = false →
  negb (truthy (AIRTABLE_API_KEY cfg)) || negb (truthy (AIRTABLE_BASE_ID cfg)) = true.
Proof.
  unfold airtable_configured.
  by destruct (truthy (AIRTABLE_API_KEY cfg)), (truthy (AIRTABLE_BASE_ID cfg)).
Qed.

(** The upsert in front of the table: it searches, then patches the row
    found or creates one, and returns. *)
Lemma upsert_spec p d s :
  airtable_configured cfg = true →
  Store.unique_providers (world s) →
  ∃ j st',
    airtableCreateOrUpdate F cfg p d s =
      (Returned j,
       {| rateMap := rateMap s; world := st';
          trace := trace s ++ [AirtableFind p; upsert_write p d (world s)] |})
    ∧ Store.records_for p st' = [Store.row p d]
    ∧ (∀ q, q ≠ p → Store.records_for q st' = Store.records_for q (world s)).
Proof.
  intros Hcfg Hu. unfold airtableCreateOrUpdate, upsert_write.
  rewrite (configured_inv Hcfg).
  unfold bind, do_fetch at 1. cbn.
  destruct (List.filter _ (Store.rows (world s))) as [|r rs] eqn:Hfind.
  - apply find_rows_nil in Hfind.
    destruct (create_missing p d (world s) Hfind) as [Hp Hq].
    unfold do_fetch. cbn. rewrite <- app_assoc. cbn. eauto.
  - apply find_rows_cons in Hfind as (l1 & f & l2 & Hst & Hid & Hf & Hl1).
    cbn in Hid. rewrite Hst in Hu.
    destruct (patch_found p d l1 f l2 Hu Hf) as [Hp Hq].
    assert (Hlt : (length l1 <? length (l1 ++ f :: l2))%nat = true)
      by (apply Nat.ltb_lt; rewrite length_app; cbn; lia).
    assert (Hins : <[length l1 := Store.row p d]> (l1 ++ f :: l2)
                   = l1 ++ Store.row p d :: l2)
      by (rewrite <- (Nat.add_0_r (length l1)) at 1; by rewrite insert_app_r).
    unfold do_fetch, F, Store.fetch. cbn [world trace rateMap].
    rewrite Hid, Hst, Hlt, Hins. cbn. rewrite <- app_assoc. cbn.
    eauto.
Qed.

Lemma sendMessage_world chatId txt mode s :
  world (snd (sendMessage F chatId txt mode s)) = world s
  ∧ store_calls (snd (sendMessage F chatId txt mode s)) = store_calls s.
Proof.
  rewrite sendMessage_state. cbn. split; [done|].
  unfold store_calls. cbn. rewrite List.filter_app. cbn. apply app_nil_r.
Qed.

Lemma keeps_ret {A} I (a : A) : keeps I (ret a).
Proof. by intros s. Qed.

Lemma keeps_raise {A} I err : keeps (A := A) I (raise err).
Proof. by intros s. Qed.

Lemma keeps_bind {A B} I (m : M Store.t A) (k : A → M Store.t B) :
  keeps I m → (∀ a, keeps I (k a)) → keeps I (bind m k).
Proof.
  intros Hm Hk s Hs. unfold bind. specialize (Hm s Hs).
  destruct (m s) as [[a|err] s1]; [|done]. by apply Hk.
Qed.

Lemma keeps_try_catch {A} I (m : M Store.t A) (h : string → M Store.t A) :
  keeps I m → (∀ err, keeps I (h err)) → keeps I (try_catch m h).
Proof.
  intros Hm Hh s Hs. unfold try_catch. specialize (Hm s Hs).
  destruct (m s) as [[a|err] s1]; [done|]. by apply Hh.
Qed.

Lemma keeps_sendMessage I chatId txt mode : keeps I (sendMessage F chatId txt mode).
Proof. intros s Hs. by rewrite (proj1 (sendMessage_world chatId txt mode s)). Qed.

Lemma keeps_allowRateM I now chatId : keeps I (allowRateM now chatId).
Proof.
  intros s Hs. unfold allowRateM.
  by destruct (allowRate now chatId (rateMap s)) as [b rm].
Qed.

Lemma keeps_airtableGetAll I : keeps I (airtableGetAll F cfg).
Proof.
  intros s Hs. unfold airtableGetAll.
  destruct (_ || _); [done|].
  unfold bind, do_fetch. cbn. done.
Qed.

Lemma keeps_upsert p d :
  keeps Store.unique_providers (airtableCreateOrUpdate F cfg p d).
Proof.
  intros s Hs. destruct (airtable_configured cfg) eqn:Hcfg.
  - destruct (upsert_spec p d s Hcfg Hs) as (j & st' & -> & Hp & Hq).
    cbn. by eapply unique_after_upsert.
  - unfold airtableCreateOrUpdate. by rewrite (unconfigured_inv Hcfg).
Qed.

(** No call of [handleCommand] gives a provider a second row. *)
Lemma handleCommand_keeps_unique now chatId userId txt message :
  keeps Store.unique_providers (handleCommand F cfg now chatId userId txt message).
Proof.
  unfold handleCommand.
  apply keeps_bind; [apply keeps_allowRateM|]. intros allowed.
  destruct (negb allowed); [apply keeps_sendMessage|].
  unfold route.
  destruct (_ || _); [apply keeps_sendMessage|].
  destruct (_ || _); [apply keeps_sendMessage|].
  destruct (_ || _).
  { unfold cmd_setpayment.
    destruct (negb _); [apply keeps_sendMessage|].
    destruct (_ <? _); [apply keeps_sendMessage|].
    destruct (negb _); [apply keeps_sendMessage|].
    apply keeps_try_catch; [|intros; apply keeps_sendMessage].
    destruct (airtable_configured cfg); [|apply keeps_sendMessage].
    apply keeps_bind; [apply keeps_upsert | intros; apply keeps_sendMessage]. }
  destruct (_ || _).
  { unfold cmd_getpayments.
    apply keeps_try_catch; [|intros; apply keeps_sendMessage].
    apply keeps_bind; [apply keeps_airtableGetAll|].
    intros [|r rs]; apply keeps_sendMessage. }
  destruct (startsWith_slash txt); apply keeps_sendMessage.
Qed.

Lemma run_calls_unique cs :
  ∀ s, Store.unique_providers (world s) →
       Store.unique_providers (world (run_calls F cfg cs s)).
Proof.
  induction cs as [|c cs IH]; intros s Hs; [done|].
  cbn. apply IH. by apply handleCommand_keeps_unique.
Qed.

Lemma is_airtable_upsert_write p d st : is_airtable (upsert_write p d st) = true.
Proof. unfold upsert_write. by destruct (List.filter _ _). Qed.

(** The [/setpayment] block once its three checks pass. *)
Lemma cmd_setpayment_upsert chatId userId parts p d s :
  airtable_configured cfg = true →
  Store.unique_providers (world s) →
  isAdmin cfg userId = true →
  (3 ≤ length parts)%nat →
  toLowerCase (nth 1 parts EmptyString) = p →
  In p ALLOWED_PROVIDERS →
  join " " (skipn 2 parts) = d →
  let s' := snd (cmd_setpayment F cfg chatId userId parts s) in
  Store.records_for p (world s') = [Store.row p d]
  ∧ (∀ q, q ≠ p → Store.records_for q (world s') = Store.records_for q (world s))
  ∧ store_calls s' = store_calls s ++ [AirtableFind p; upsert_write p d (world s)].
Proof.
  intros Hcfg Hu Hadm Hlen Hp Hin Hd. unfold cmd_setpayment.
  rewrite Hadm. cbn [negb].
  destruct (Z.ltb_spec (Z.of_nat (length parts)) 3); [lia|].
  rewrite Hp, (proj2 (includes_In _ _) Hin), Hd, Hcfg. cbn [negb].
  unfold try_catch, bind.
  destruct (upsert_spec p d s Hcfg Hu) as (j & st' & -> & Hp' & Hq').
  set (s1 := {| rateMap := rateMap s; world := st';
                trace := trace s ++ [AirtableFind p; upsert_write p d (world s)] |}).
  assert (Hs1 : store_calls s1
                = store_calls s ++ [AirtableFind p; upsert_write p d (world s)]).
  { unfold store_calls. cbn. rewrite List.filter_app. cbn.
    by rewrite is_airtable_upsert_write. }
  destruct (sendMessage_world chatId (UPDATED p) Markdown s1) as [Hw1 Hc1].
  destruct (sendMessage F chatId (UPDATED p) Markdown s1) as [[u|err] s2];
    cbn in Hw1, Hc1 |- *.
  - by rewrite Hw1, Hc1.
  - destruct (sendMessage_world chatId FAILED_UPDATE None s2) as [Hw2 Hc2].
    by rewrite Hw2, Hc2, Hw1, Hc1.
Qed.

(** C1 (amended).  In front of a configured store with at most one row
    per provider, take any calls made one after the other, then a
    [/setpayment <p> <d>] sent by an administrator, with [p] one of
    [jazzcash] and [easypaisa].  When the rate limiter lets that message
    through, the store is asked for the rows whose provider is [p], then
    the row found is patched, or a row is created when there is none,
    and nothing else is asked of it; afterwards the table has exactly one
    row for [p], with details [d], and the rows of the other providers
    are as before.  When the rate limiter refuses the message, the
    slow-down notice is sent and the table is as before.  Either way no
    provider has two rows afterwards, so the same holds of the next
    call. *)
Theorem setpayment_upsert_one_record
  (history : list Call) (c : Call) (p d : string) (s0 : State Store.t) :
  airtable_configured cfg = true →
  Store.unique_providers (world s0) →
  setpayment_call cfg c p d →
  let s := run_calls F cfg history s0 in
  let s' := run_call F cfg c s in
  (admitted (call_now c) (call_chatId c) s = true →
     Store.records_for p (world s') = [Store.row p d]
     ∧ (∀ q, q ≠ p → Store.records_for q (world s') = Store.records_for q (world s))
     ∧ store_calls s' = store_calls s ++ [AirtableFind p; upsert_write p d (world s)])
  ∧ (admitted (call_now c) (call_chatId c) s = false →
     world s' = world s
     ∧ trace s' = trace s ++ [reply (call_chatId c) SLOW_DOWN None])
  ∧ Store.unique_providers (world s').
Proof.
  intros Hcfg Hu0 (Hcmd & Hlen & Hp & Hin & Hd & Hadm) s s'.
  assert (Hu : Store.unique_providers (world s)) by by apply run_calls_unique.
  split; [|split].
  - intros Hgate. subst s'. unfold run_call.
    rewrite handleCommand_gate, Hgate, route_setpayment by done.
    by apply (cmd_setpayment_upsert _ _ _ p d
                (after_gate (call_now c) (call_chatId c) s)).
  - intros Hgate. subst s'. unfold run_call.
    rewrite handleCommand_gate, Hgate, sendMessage_state. done.
  - by apply handleCommand_keeps_unique.
Qed.

(** The listing in front of the table: the first fifty rows. *)
Lemma airtableGetAll_page s :
  airtable_configured cfg = true →
  fst (airtableGetAll F cfg s) = Returned (take 50 (Store.rows (world s))).
Proof.
  intros Hcfg. unfold airtableGetAll. by rewrite (configured_inv Hcfg).
Qed.

End IdealStore.

(** C7 (amended).  [airtableGetAll] returns the empty list, without
    sending any request, when the key or the base is not configured.
    Otherwise it sends one request, the listing with page size 50 of the
    grid view, and nothing else.  When the store answers with a status
    that is not a success it returns the empty list; when the store
    answers with a success and a JSON body it returns the records of the
    body, all of them, or the empty list when the body has none; it raises
    when the request fails or when the body of a success is not JSON.  In
    front of the table, which serves the page it is asked for, the result
    is the first fifty rows, so at most fifty records. *)
Theorem airtableGetAll_empty_or_page :
  (∀ World (fetch : request → World → fetch_outcome * World) cfg s,
     airtable_configured cfg = false →
     airtableGetAll fetch cfg s = (Returned [], s))
  ∧ (∀ World (fetch : request → World → fetch_outcome * World) cfg s,
       airtable_configured cfg = true →
       trace (snd (airtableGetAll fetch cfg s)) = trace s ++ [AirtableList 50 "Grid view"]
       ∧ rateMap (snd (airtableGetAll fetch cfg s)) = rateMap s)
  ∧ (∀ World (fetch : request → World → fetch_outcome * World) cfg s res,
       airtable_configured cfg = true →
       fst (fetch (AirtableList 50 "Grid view") (world s)) = Responded res →
       (ok res = false → fst (airtableGetAll fetch cfg s) = Returned [])
       ∧ (∀ j, ok res = true → json res = Some j →
               fst (airtableGetAll fetch cfg s)
               = Returned (match records j with Some rs => rs | None => [] end))
       ∧ (ok res = true → json res = None →
          ∃ err, fst (airtableGetAll fetch cfg s) = Raised err))
  ∧ (∀ World (fetch : request → World → fetch_outcome * World) cfg s,
       airtable_configured cfg = true →
       fst (fetch (AirtableList 50 "Grid view") (world s)) = Rejected →
       ∃ err, fst (airtableGetAll fetch cfg s) = Raised err)
  ∧ (∀ telegram cfg (s : State Store.t),
       airtable_configured cfg = true →
       ∃ rs, fst (airtableGetAll (Store.fetch telegram) cfg s) = Returned rs
             ∧ rs = take 50 (Store.rows (world s))
             ∧ (length rs ≤ 50)%nat).
Proof.
  split; [|split; [|split; [|split]]].
  - intros World fetch cfg s Hcfg. unfold airtableGetAll.
    by rewrite (unconfigured_inv cfg Hcfg).
  - intros World fetch cfg s Hcfg. unfold airtableGetAll.
    rewrite (configured_inv cfg Hcfg). unfold bind, do_fetch.
    destruct (fetch _ (world s)) as [[|res] w]; [done|].
    destruct (ok res); [|done]. cbn [negb]. unfold res_json.
    by destruct (json res).
  - intros World fetch cfg s res Hcfg Hres. unfold airtableGetAll.
    rewrite (configured_inv cfg Hcfg). unfold bind, do_fetch.
    destruct (fetch _ (world s)) as [o w]. cbn in Hres. subst o.
    split; [|split].
    + by intros ->.
    + intros j -> Hj. cbn [negb]. unfold res_json. by rewrite Hj.
    + intros -> Hj. cbn [negb]. unfold res_json. rewrite Hj. by eexists.
  - intros World fetch cfg s Hcfg Hres. unfold airtableGetAll.
    rewrite (configured_inv cfg Hcfg). unfold bind, do_fetch.
    destruct (fetch _ (world s)) as [o w]. cbn in Hres. subst o. by eexists.
  - intros telegram cfg s Hcfg. eexists. split; [by apply airtableGetAll_page|].
    split; [done|]. rewrite length_take. lia.
Qed.

(** * The properties on sample runs *)

(** A chat identifier of [0] is falsy: the update is acknowledged and
    dropped. *)
Lemma handler_ignores_without_effect_witness :
  handler (Store.fetch telegram_ok) cfg_admins 0
    {| httpMethod := "POST";
       body_json := ParsedObject
         {| Update.message := Some {| Message.text := Some "/start";
                                      Message.chat := Some {| Chat.id := Some 0 |};
                                      Message.from := None |};
            Update.edited_message := None;
            Update.callback_query := None |} |} fresh_instance
  = (Returned ok200, fresh_instance)
  ∧ statusCode ok200 = 200 ∧ result_body ok200 = "ok".
Proof.
  apply handler_ignores_without_effect. right. reflexivity.
Defined.

Lemma unique_providers_nil : Store.unique_providers [].
Proof. intros p. cbn. lia. Qed.

(** A first [/setpayment] creates the row, a second one six seconds later
    patches it. *)
Lemma setpayment_upsert_one_record_witness :
  Store.records_for "jazzcash"
    (world (run_call (Store.fetch telegram_ok) cfg_admins
              (call 6000 7 1001 ("/setpayment jazzcash 0311" +:+ utf8 160 +:+ "7654321"))
              (run_calls (Store.fetch telegram_ok) cfg_admins
                 [call 0 7 1001 "/setpayment jazzcash 0300-1234567"]
                 fresh_instance)))
  = [Store.row "jazzcash" "0311 7654321"].
Proof.
  assert (Hcall : setpayment_call cfg_admins
                    (call 6000 7 1001 ("/setpayment jazzcash 0311" +:+ utf8 160 +:+ "7654321"))
                    "jazzcash" "0311 7654321").
  { repeat split; vm_compute; auto. }
  destruct (setpayment_upsert_one_record telegram_ok cfg_admins
              [call 0 7 1001 "/setpayment jazzcash 0300-1234567"]
              (call 6000 7 1001 ("/setpayment jazzcash 0311" +:+ utf8 160 +:+ "7654321"))
              "jazzcash" "0311 7654321" fresh_instance
              eq_refl unique_providers_nil Hcall) as (Hadmitted & _ & _).
  destruct (Hadmitted eq_refl) as (Hrow & _ & _). exact Hrow.
Defined.

(** C1, as stated, fails.  Four updates of one provider sent from one chat
    within four milliseconds: the fourth is refused by the rate limiter,
    and the table keeps the details of the third.  And in front of a table
    that already has two rows for a provider, an update patches the first
    and leaves the second. *)
Lemma setpayment_not_always_stored :
  setpayment_call cfg_admins (call 3 7 1001 "/setpayment jazzcash d") "jazzcash" "d"
  ∧ Store.records_for "jazzcash"
      (world (run_calls (Store.fetch telegram_ok) cfg_admins
                [ call 0 7 1001 "/setpayment jazzcash a";
                  call 1 7 1001 "/setpayment jazzcash b";
                  call 2 7 1001 "/setpayment jazzcash c";
                  call 3 7 1001 "/setpayment jazzcash d" ]
                fresh_instance))
    = [Store.row "jazzcash" "c"]
  ∧ Store.records_for "jazzcash"
      (world (run_call (Store.fetch telegram_ok) cfg_admins
                (call 3 7 1001 "/setpayment jazzcash d")
                (instance_with [Store.row "jazzcash" "a"; Store.row "jazzcash" "b"])))
    = [Store.row "jazzcash" "d"; Store.row "jazzcash" "b"].
Proof.
  split; [|split].
  - repeat split; vm_compute; auto.
  - vm_compute. reflexivity.
  - vm_compute. reflexivity.
Qed.

Lemma setpayment_admin_only_witness :
  isAdmin cfg_open (Some 5) = true
  ∧ (isAdmin cfg_admins (Some 1002) = true ↔ In "1002" (ADMIN_IDS cfg_admins))
  ∧ isAdmin cfg_pasted (Some 1002) = true
  ∧ trace (snd (handleCommand (Store.fetch telegram_ok) cfg_admins 0 7 (Some 5)
                  "/setpayment jazzcash x" Message.empty fresh_instance))
    = [reply 7 ADMIN_ONLY None].
Proof.
  destruct (setpayment_admin_only (Store.fetch telegram_ok) cfg_open) as (Hopen & _ & _).
  destruct (setpayment_admin_only (Store.fetch telegram_ok) cfg_admins)
    as (_ & Hlist & Hrefuse).
  destruct (setpayment_admin_only (Store.fetch telegram_ok) cfg_pasted)
    as (_ & Hpasted & _).
  split; [|split; [|split]].
  - apply Hopen. reflexivity.
  - apply (Hlist ltac:(discriminate) (Some 1002)).
  - apply (Hpasted ltac:(discriminate) (Some 1002)). right. left. reflexivity.
  - exact (proj1 (Hrefuse 0 7 (Some 5) "/setpayment jazzcash x" Message.empty
                    fresh_instance (or_introl eq_refl) eq_refl)).
Defined.

(** C3, as stated, fails: on a chat that has used up its window, a sender
    who is not an administrator gets the slow-down notice, not the
    refusal. *)
Lemma setpayment_refusal_not_always_sent :
  cmd_of "/setpayment jazzcash x" = "/setpayment"
  ∧ isAdmin cfg_admins (Some 5) = false
  ∧ trace (run_call (Store.fetch telegram_ok) cfg_admins
             (call 3 7 5 "/setpayment jazzcash x") busy_instance)
    = trace busy_instance ++ [reply 7 SLOW_DOWN None]
  ∧ ¬ In (reply 7 ADMIN_ONLY None)
        (trace (run_call (Store.fetch telegram_ok) cfg_admins
                  (call 3 7 5 "/setpayment jazzcash x") busy_instance)).
Proof.
  repeat split; try (vm_compute; reflexivity).
  vm_compute. intros H.
  repeat (destruct H as [H|H]; [discriminate H|]). exact H.
Qed.

Lemma setpayment_argument_checks_witness :
  trace (snd (handleCommand (Store.fetch telegram_ok) cfg_admins 0 7 (Some 1001)
                ("/setpayment easypaisa " +:+ utf8 160) Message.empty fresh_instance))
  = [reply 7 USAGE None]
  ∧ trace (snd (handleCommand (Store.fetch telegram_ok) cfg_admins 0 7 (Some 1001)
                  ("/setpayment bitcoin" +:+ utf8 160 +:+ "123") Message.empty fresh_instance))
    = [reply 7 INVALID_PROVIDER None].
Proof.
  split.
  - destruct (setpayment_argument_checks (Store.fetch telegram_ok) cfg_admins
                0 7 (Some 1001) ("/setpayment easypaisa " +:+ utf8 160) Message.empty fresh_instance
                (or_introl eq_refl) eq_refl) as (Hfew & _ & _).
    apply Hfew. vm_compute. lia.
  - destruct (setpayment_argument_checks (Store.fetch telegram_ok) cfg_admins
                0 7 (Some 1001) ("/setpayment bitcoin" +:+ utf8 160 +:+ "123") Message.empty fresh_instance
                (or_introl eq_refl) eq_refl) as (_ & Hprov & _).
    apply Hprov.
    + vm_compute. lia.
    + vm_compute. intros [H|[H|H]]; [discriminate H | discriminate H | exact H].
Defined.

(** C6, as stated, fails: on a chat that has used up its window, an
    administrator who sends [/setpayment easypaisa] gets the slow-down
    notice, not the usage text. *)
Lemma setpayment_usage_not_always_sent :
  cmd_of "/setpayment easypaisa" = "/setpayment"
  ∧ isAdmin cfg_admins (Some 1001) = true
  ∧ length (parts_of "/setpayment easypaisa") = 2%nat
  ∧ trace (run_call (Store.fetch telegram_ok) cfg_admins
             (call 3 7 1001 "/setpayment easypaisa") busy_instance)
    = trace busy_instance ++ [reply 7 SLOW_DOWN None]
  ∧ ¬ In (reply 7 USAGE None)
        (trace (run_call (Store.fetch telegram_ok) cfg_admins
                  (call 3 7 1001 "/setpayment easypaisa") busy_instance)).
Proof.
  repeat split; try (vm_compute; reflexivity).
  vm_compute. intros H.
  repeat (destruct H as [H|H]; [discriminate H|]). exact H.
Qed.

(** [/PROFILE] after two spaces, followed by a no-break space and a word. *)
Lemma route_dispatch_witness :
  parts_of ("  /PROFILE" +:+ utf8 160 +:+ "now") = ["/PROFILE"; "now"]
  ∧ handleCommand (Store.fetch telegram_ok) cfg_admins 0 7 (Some 5)
      ("  /PROFILE" +:+ utf8 160 +:+ "now") Message.empty fresh_instance
    = sendMessage (Store.fetch telegram_ok) 7 (profileMsg (Some 5) Message.empty)
        Markdown (after_gate 0 7 fresh_instance).
Proof.
  assert (Hlead : white "  ") by (apply blank_white; reflexivity).
  assert (Hx : token "/PROFILE") by (apply no_white_token; [discriminate|reflexivity]).
  assert (Hrest : Forall separated [(utf8 160, "now")]).
  { constructor; [|constructor]. split; [|split].
    - apply blank_white. reflexivity.
    - discriminate.
    - apply no_white_token; [discriminate|reflexivity]. }
  destruct (route_dispatch (Store.fetch telegram_ok) cfg_admins 0 7 (Some 5)
              "  " "/PROFILE" [(utf8 160, "now")] EmptyString Message.empty
              fresh_instance Hlead Hx Hrest white_nil eq_refl)
    as (Hparts & _ & _ & Hprofile & _).
  split; [exact Hparts|]. apply Hprofile. reflexivity.
Defined.

(** C4, as stated, fails: [/help] and [help] are not commands, and
    [profile], [me], [getpayments] and [payments] without the leading [/]
    are answered as ordinary text, while [/profile] and [/getpayments] are
    routed. *)
Lemma help_and_bare_words_not_routed :
  requests_for "/help" = [reply 7 UNKNOWN_COMMAND None]
  ∧ requests_for "help" = [reply 7 NOT_A_COMMAND None]
  ∧ requests_for "/profile" = [reply 7 (profileMsg (Some 5) Message.empty) Markdown]
  ∧ requests_for "profile" = [reply 7 NOT_A_COMMAND None]
  ∧ requests_for "me" = [reply 7 NOT_A_COMMAND None]
  ∧ requests_for "/getpayments"
    = [AirtableList 50 "Grid view"; reply 7 NONE_CONFIGURED None]
  ∧ requests_for "getpayments" = [reply 7 NOT_A_COMMAND None]
  ∧ requests_for "payments" = [reply 7 NOT_A_COMMAND None].
Proof. vm_compute. repeat split. Qed.

Lemma markdown_replies_sanitized_witness :
  markdown_char "*" = true
  ∧ chars (safeText (Some "a*b_c`d[e]f")) = chars "abcdef".
Proof.
  destruct (markdown_replies_sanitized (Store.fetch telegram_ok) cfg_admins)
    as (Hchar & Hsafe & _ & _).
  split.
  - apply Hchar. left. reflexivity.
  - rewrite Hsafe. reflexivity.
Defined.

(** C5, as stated, fails: when Airtable is not configured, the update is
    echoed as plain text with the details as they were typed. *)
Lemma configured_echo_not_sanitized :
  trace (run_call (Store.fetch telegram_ok) cfg_bare
           (call 0 7 5 "/setpayment jazzcash *0300*_[x]`") fresh_instance)
  = [reply 7 "Configured jazzcash: *0300*_[x]`" None]
  ∧ strip_markdown "*0300*_[x]`" = "0300x".
Proof. vm_compute. split; reflexivity. Qed.

Lemma airtableGetAll_empty_or_page_witness :
  airtableGetAll (Store.fetch telegram_ok) cfg_bare fresh_instance
  = (Returned [], fresh_instance)
  ∧ trace (snd (airtableGetAll fetch_unauthorized cfg_open stateless_instance))
    = [AirtableList 50 "Grid view"]
  ∧ fst (airtableGetAll fetch_unauthorized cfg_open stateless_instance) = Returned []
  ∧ fst (airtableGetAll fetch_all cfg_open stateless_instance) = Returned sixty_records
  ∧ (∃ err, fst (airtableGetAll fetch_html cfg_open stateless_instance) = Raised err)
  ∧ (∃ err, fst (airtableGetAll fetch_unreachable cfg_open stateless_instance) = Raised err)
  ∧ ∃ rs, fst (airtableGetAll (Store.fetch telegram_ok) cfg_open
                 (instance_with (replicate 60 (Store.row "jazzcash" "x"))))
          = Returned rs
          ∧ rs = take 50 (Store.rows (replicate 60 (Store.row "jazzcash" "x")))
          ∧ (length rs ≤ 50)%nat.
Proof.
  destruct airtableGetAll_empty_or_page as (Hbare & Hsend & Hres & Hrej & Hpage).
  split; [|split; [|split; [|split; [|split; [|split]]]]].
  - apply Hbare. reflexivity.
  - apply (Hsend unit fetch_unauthorized cfg_open stateless_instance). reflexivity.
  - by apply (Hres unit fetch_unauthorized cfg_open stateless_instance _ eq_refl eq_refl).
  - by apply (proj1 (proj2 (Hres unit fetch_all cfg_open stateless_instance _
                              eq_refl eq_refl)) {| records := Some sixty_records |}).
  - by apply (Hres unit fetch_html cfg_open stateless_instance _ eq_refl eq_refl).
  - by apply (Hrej unit fetch_unreachable cfg_open stateless_instance).
  - apply (Hpage telegram_ok cfg_open
             (instance_with (replicate 60 (Store.row "jazzcash" "x")))).
    reflexivity.
Defined.

(** C7, as stated, fails: the bound of fifty is the page size of the
    request, not a property of the result.  A store that answers the
    listing with sixty records gives a result of sixty records; and where
    the request fails, or a success has a body that is not JSON, the
    function raises. *)
Lemma airtableGetAll_not_bounded :
  airtable_configured cfg_open = true
  ∧ fst (airtableGetAll fetch_all cfg_open stateless_instance) = Returned sixty_records
  ∧ length sixty_records = 60%nat
  ∧ fst (airtableGetAll fetch_unreachable cfg_open stateless_instance)
    = Raised "fetch failed"
  ∧ fst (airtableGetAll fetch_html cfg_open stateless_instance)
    = Raised "invalid json".
Proof. vm_compute. repeat split. Qed.

(** * Further properties *)

(** ** The rate limiter, continued *)

Section RateLimiterMore.

Implicit Types (rm : gmap Z RateWindow) (w : RateWindow).

(** X1.  Conversations do not interfere: a call for one conversation
    leaves the window of every other one as it was, and so does not change
    the answer the other one gets next. *)
Theorem allowRate_isolated now c chatId t rm :
  c ≠ chatId →
  snd (allowRate now c rm) !! chatId = rm !! chatId
  ∧ fst (allowRate t chatId (snd (allowRate now c rm))) = fst (allowRate t chatId rm).
Proof.
  intros Hne. pose proof (allowRate_other now c chatId rm Hne) as Hsame.
  split; [exact Hsame|].
  unfold allowRate at 1 3. rewrite Hsame.
  destruct (rm !! chatId) as [d|]; [|done].
  destruct (t >? resetAt d); [done|].
  by destruct (count d <? RATE_LIMIT_MAX).
Qed.

Lemma allowRate_isolated_witness :
  snd (allowRate 10 8 (snd (allowRate 0 7 ∅))) !! 7 = snd (allowRate 0 7 ∅) !! 7
  ∧ fst (allowRate 20 7 (snd (allowRate 10 8 (snd (allowRate 0 7 ∅)))))
    = fst (allowRate 20 7 (snd (allowRate 0 7 ∅))).
Proof. apply (allowRate_isolated 10 8 7 20). discriminate. Defined.

(** X2.  The window is fixed, not sliding: while a stored window has not
    expired, a call never moves its [resetAt]; an admitted call adds one
    to its count, and a refused call, which only a full window causes,
    changes nothing at all. *)
Theorem allowRate_window_fixed now chatId rm w :
  rm !! chatId = Some w →
  now ≤ resetAt w →
  (fst (allowRate now chatId rm) = true →
     count w < RATE_LIMIT_MAX
     ∧ snd (allowRate now chatId rm) !! chatId
       = Some {| count := count w + 1; resetAt := resetAt w |})
  ∧ (fst (allowRate now chatId rm) = false →
     RATE_LIMIT_MAX ≤ count w ∧ snd (allowRate now chatId rm) = rm).
Proof.
  intros Hw Hnow.
  destruct (Z.lt_ge_cases (count w) RATE_LIMIT_MAX) as [Hlt|Hge].
  - rewrite (allowRate_open now chatId rm w) by done. cbn.
    split; [|done]. intros _. split; [done|]. apply lookup_insert_eq.
  - rewrite (allowRate_full now chatId rm w) by done. cbn.
    split; [done|]. by intros _.
Qed.

Lemma allowRate_window_fixed_witness :
  snd (allowRate 4000 7 (snd (allowRate 0 7 ∅))) !! 7
  = Some {| count := 2; resetAt := 5000 |}.
Proof.
  assert (Hw : snd (allowRate 0 7 ∅) !! 7 = Some {| count := 1; resetAt := 5000 |})
    by (vm_compute; reflexivity).
  destruct (allowRate_window_fixed 4000 7 (snd (allowRate 0 7 ∅))
              {| count := 1; resetAt := 5000 |} Hw) as [Hadmitted _].
  - cbn. lia.
  - apply Hadmitted. vm_compute. reflexivity.
Defined.

(** X3.  Nothing is ever evicted: after a call the map holds a window for
    the conversation of the call and for every conversation it held one
    for before. *)
Theorem allowRate_no_eviction now chatId rm :
  dom (snd (allowRate now chatId rm)) = {[chatId]} ∪ dom rm.
Proof.
  unfold allowRate.
  destruct (rm !! chatId) as [d|] eqn:Hd; cbn.
  - assert (chatId ∈ dom rm) by (apply elem_of_dom; eauto).
    destruct (now >? resetAt d); cbn; [by rewrite dom_insert_L|].
    destruct (count d <? RATE_LIMIT_MAX); cbn; [by rewrite dom_insert_L|].
    symmetry. apply subseteq_union_1_L. by apply singleton_subseteq_l.
  - by rewrite dom_insert_L.
Qed.

(** X4.  The limit holds per window, not per span of time: a conversation
    that opens a window at [t0] and sends two more messages before it ends
    at [t0 + 5000], at [t1], then three messages just after it, at [t2],
    has all six admitted, however close [t1] and [t2] are. *)
Theorem allowRate_burst_across_reset chatId rm (t0 t1 t2 : Z) :
  (∀ w, rm !! chatId = Some w → t0 > resetAt w) →
  t1 ≤ t0 + RATE_LIMIT_WINDOW_MS →
  t0 + RATE_LIMIT_WINDOW_MS < t2 →
  fst (answers_to chatId
         [(t0, chatId); (t1, chatId); (t1, chatId);
          (t2, chatId); (t2, chatId); (t2, chatId)] rm)
  = [true; true; true; true; true; true].
Proof.
  intros Hnew H1 H2. cbn [answers_to]. rewrite Z.eqb_refl.
  rewrite allowRate_new by done.
  set (w1 := {| count := 1; resetAt := t0 + RATE_LIMIT_WINDOW_MS |}).
  set (m1 := <[chatId := w1]> rm).
  rewrite (allowRate_open t1 chatId m1 w1)
    by (apply lookup_insert_eq || done).
  set (w2 := {| count := count w1 + 1; resetAt := resetAt w1 |}).
  set (m2 := <[chatId := w2]> m1).
  rewrite (allowRate_open t1 chatId m2 w2)
    by (apply lookup_insert_eq || done).
  set (w3 := {| count := count w2 + 1; resetAt := resetAt w2 |}).
  set (m3 := <[chatId := w3]> m2).
  rewrite (allowRate_new t2 chatId m3).
  2:{ intros w Hw. unfold m3 in Hw. rewrite lookup_insert_eq in Hw.
      injection Hw as <-. cbn. lia. }
  set (w4 := {| count := 1; resetAt := t2 + RATE_LIMIT_WINDOW_MS |}).
  set (m4 := <[chatId := w4]> m3).
  rewrite (allowRate_open t2 chatId m4 w4)
    by (apply lookup_insert_eq || (cbn; unfold RATE_LIMIT_WINDOW_MS; lia) || done).
  set (w5 := {| count := count w4 + 1; resetAt := resetAt w4 |}).
  set (m5 := <[chatId := w5]> m4).
  rewrite (allowRate_open t2 chatId m5 w5)
    by (apply lookup_insert_eq || (cbn; unfold RATE_LIMIT_WINDOW_MS; lia) || done).
  done.
Qed.

Lemma allowRate_burst_across_reset_witness :
  fst (answers_to 7 [(0, 7); (5000, 7); (5000, 7); (5001, 7); (5001, 7); (5001, 7)] ∅)
  = [true; true; true; true; true; true].
Proof.
  apply (allowRate_burst_across_reset 7 ∅ 0 5000 5001).
  - intros w H. by rewrite lookup_empty in H.
  - unfold RATE_LIMIT_WINDOW_MS. lia.
  - unfold RATE_LIMIT_WINDOW_MS. lia.
Defined.

End RateLimiterMore.

(** ** Texts *)

Section Texts.

(** X5.  The entry point trims the text and [handleCommand] trims it
    again; the second trimming changes nothing, so the tokens and the
    command word of a message are those of its trimmed text.  What [trim]
    removes is white space: the text is its trimmed text between two texts
    of white space, and the trimmed text neither starts with a white-space
    character nor, unless it is empty, is white space only. *)
Theorem trim_twice_same_tokens txt :
  trim (trim txt) = trim txt
  ∧ parts_of (trim txt) = parts_of txt
  ∧ cmd_of (trim txt) = cmd_of txt
  ∧ (∃ lead trail, white lead ∧ white trail ∧ txt = lead +:+ trim txt +:+ trail)
  ∧ ws_prefix (trim txt) = None.
Proof.
  split; [apply trim_idempotent|]. split; [|split; [|split]].
  - unfold parts_of. by rewrite trim_idempotent.
  - unfold cmd_of, parts_of. by rewrite trim_idempotent.
  - destruct (trimStart_split txt) as (lead & Hlead & Htxt).
    destruct (trimEnd_split (trimStart txt)) as (trail & Htrail & Hend).
    exists lead, trail. split; [done|]. split; [done|].
    unfold trim. by rewrite <- Hend.
  - apply ws_prefix_trimEnd, ws_prefix_trimStart.
Qed.

Lemma strip_markdown_idempotent x : strip_markdown (strip_markdown x) = strip_markdown x.
Proof.
  induction x as [|c x IH]; [done|].
  cbn. destruct (markdown_char c) eqn:E; [done|]. cbn. by rewrite E, IH.
Qed.

Lemma strip_markdown_clean x :
  (∀ c, In c (chars x) → markdown_char c = false) → strip_markdown x = x.
Proof.
  induction x as [|c x IH]; intros H; [done|].
  cbn. rewrite (H c) by (by left). f_equal. apply IH. intros d Hd. apply H. by right.
Qed.

Lemma strip_markdown_length x : (String.length (strip_markdown x) ≤ String.length x)%nat.
Proof.
  induction x as [|c x IH]; [done|].
  cbn. destruct (markdown_char c); cbn; lia.
Qed.

(** X6.  [safeText] only removes: applied to its own result it changes
    nothing, a text without any of the five characters comes back as it
    is, and the result is never longer than the text. *)
Theorem safeText_only_removes :
  (∀ o, safeText (Some (safeText o)) = safeText o)
  ∧ (∀ x, (∀ c, In c (chars x) → markdown_char c = false) → safeText (Some x) = x)
  ∧ (∀ x, (String.length (safeText (Some x)) ≤ String.length x)%nat).
Proof.
  split; [|split].
  - intros o. rewrite safeText_Some. apply strip_markdown_idempotent.
  - intros x H. rewrite safeText_Some. by apply strip_markdown_clean.
  - intros x. rewrite safeText_Some. apply strip_markdown_length.
Qed.

Lemma safeText_only_removes_witness : safeText (Some "0300-1234567") = "0300-1234567".
Proof.
  apply (proj1 (proj2 safeText_only_removes)).
  intros c H. cbn in H.
  repeat (destruct H as [<-|H]; [reflexivity|]). destruct H.
Defined.

(** X7.  The details of a [/setpayment] message are its tokens after the
    provider joined by single spaces.  Whatever white space the sender
    typed between them (tabs, line breaks, no-break spaces, runs of
    spaces), the only white-space character in the details is the space;
    and for a text written as tokens and separators, the details are the
    tokens after the second one with one space between them. *)
Theorem details_white_space_is_space :
  (∀ txt a w b, In w WHITE_SPACE → details_of txt = a +:+ w +:+ b → w = " ")
  ∧ (∀ lead x rest trail,
       white lead → token x → Forall separated rest → white trail →
       details_of (lead +:+ x +:+ spaced rest +:+ trail)
       = join " " (skipn 1 (List.map snd rest))).
Proof.
  split.
  - intros txt a w b Hw E. unfold details_of in E.
    apply (join_space_white (skipn 2 (parts_of txt))) with a b; [|done|done].
    apply List.Forall_forall. intros x Hx.
    pose proof (parts_ws_free txt) as Hall. rewrite List.Forall_forall in Hall.
    apply Hall. rewrite <- (firstn_skipn 2 (parts_of txt)). apply in_or_app. by right.
  - intros lead x rest trail Hlead Hx Hrest Htrail.
    unfold details_of. by rewrite parts_of_spaced.
Qed.

Lemma details_white_space_is_space_witness :
  details_of ("/setpayment jazzcash" +:+ nl +:+ "0300" +:+ utf8 160 +:+ "1234567")
  = "0300 1234567".
Proof.
  assert (Htok : ∀ y, y ≠ EmptyString → no_white y = true → token y)
    by apply no_white_token.
  assert (Hsep : ∀ sep y, blank sep = true → sep ≠ EmptyString →
                          y ≠ EmptyString → no_white y = true → separated (sep, y)).
  { intros sep y H1 H2 H3 H4. split; [by apply blank_white|]. split; [done|].
    by apply Htok. }
  apply (proj2 details_white_space_is_space EmptyString "/setpayment"
           [(" ", "jazzcash"); (nl, "0300"); (utf8 160, "1234567")] EmptyString).
  - constructor.
  - apply Htok; [discriminate|reflexivity].
  - repeat constructor; apply Hsep; (reflexivity || discriminate).
  - constructor.
Defined.

Lemma or_lit_Some_empty x : or_lit (Some x) EmptyString = x.
Proof. by destruct x. Qed.

Lemma ADMIN_IDS_elements cfg x :
  In x (ADMIN_IDS cfg) → x ≠ EmptyString ∧ trim x = x.
Proof.
  unfold ADMIN_IDS. rewrite filter_In, in_map_iff.
  intros [(y & <- & _) Hne]. split.
  - intros E. rewrite E in Hne. discriminate.
  - apply trim_idempotent.
Qed.

(** X8.  The administrator list read from [TELEGRAM_ADMIN_IDS]: every
    entry is non-empty and has no white space around it; and when the
    variable is unset, empty, or made of commas and white space only, the
    list is empty, so every sender is an administrator. *)
Theorem ADMIN_IDS_parsed cfg :
  (∀ x, In x (ADMIN_IDS cfg) →
        x ≠ EmptyString ∧ trim x = x ∧ ws_prefix x = None)
  ∧ (separators (or_lit (TELEGRAM_ADMIN_IDS cfg) EmptyString) →
     ADMIN_IDS cfg = [] ∧ ∀ userId, isAdmin cfg userId = true).
Proof.
  split.
  - intros x Hx. destruct (ADMIN_IDS_elements cfg x Hx) as [Hne Htrim].
    split; [done|]. split; [done|]. rewrite <- Htrim.
    apply ws_prefix_trimEnd, ws_prefix_trimStart.
  - intros Hsep.
    assert (Hnil : ADMIN_IDS cfg = []).
    { unfold ADMIN_IDS. apply filter_trim_white.
      apply split_comma_go_separators; [done|constructor]. }
    split; [done|]. intros userId. unfold isAdmin. by rewrite Hnil.
Qed.

Lemma ADMIN_IDS_parsed_witness :
  ADMIN_IDS {| AIRTABLE_API_KEY := None; AIRTABLE_BASE_ID := None;
               TELEGRAM_ADMIN_IDS := Some ("1001," +:+ utf8 160 +:+ "1002") |}
  = ["1001"; "1002"]
  ∧ ("1002" ≠ EmptyString ∧ trim "1002" = "1002" ∧ ws_prefix "1002" = None)
  ∧ isAdmin {| AIRTABLE_API_KEY := None; AIRTABLE_BASE_ID := None;
               TELEGRAM_ADMIN_IDS := Some (utf8 160 +:+ ", ,") |} (Some 5) = true.
Proof.
  split; [reflexivity|]. split.
  - apply (proj1 (ADMIN_IDS_parsed
                    {| AIRTABLE_API_KEY := None; AIRTABLE_BASE_ID := None;
                       TELEGRAM_ADMIN_IDS := Some ("1001," +:+ utf8 160 +:+ "1002") |})).
    right. left. reflexivity.
  - apply (proj2 (ADMIN_IDS_parsed _)).
    assert (Hnbsp : In (utf8 160) WHITE_SPACE) by (vm_compute; auto 10).
    assert (Hsp : In " " WHITE_SPACE) by (vm_compute; auto 10).
    apply (separators_white (utf8 160) ", ,"); [exact Hnbsp|].
    apply (separators_comma " ,").
    apply (separators_white " " ","); [exact Hsp|].
    apply (separators_comma EmptyString). constructor.
Defined.

(** X24.  The tokens of every text.  A text is either white space only,
    and then [text.trim().split(/\s+/)] is the one empty token; or it is
    written as white space, a first token, further tokens each after a run
    of white space, and white space at the end, and then the tokens are
    these, in this order.  So the number of tokens is one more than the
    number of runs of white space inside the trimmed text. *)
Theorem tokens_of_every_text txt :
  (white txt ∧ parts_of txt = [EmptyString])
  ∨ ∃ lead x rest trail,
      white lead ∧ token x ∧ Forall separated rest ∧ white trail
      ∧ txt = lead +:+ x +:+ spaced rest +:+ trail
      ∧ parts_of txt = x :: List.map snd rest
      ∧ length (parts_of txt) = S (length rest).
Proof.
  destruct (text_shape txt)
    as [H|(lead & x & rest & trail & Hlead & Hx & Hrest & Htrail & ->)].
  - left. split; [done|]. by apply parts_of_white.
  - right. exists lead, x, rest, trail.
    rewrite parts_of_spaced by done. repeat split; try done; try apply Hx.
    cbn [length]. by rewrite length_map.
Qed.

End Texts.

(** ** The requests of a call *)

Section Requests.

Context {World : Type}.
Variable fetch : request → World → fetch_outcome * World.
Variable cfg : Config.
Implicit Types (s : State World).

Lemma orb_eqb_or a x y :
  String.eqb a x || String.eqb a y = true → a = x ∨ a = y.
Proof.
  intros [H|H]%orb_prop; apply String.eqb_eq in H; auto.
Qed.

Lemma emits_listing P :
  P (AirtableList 50 "Grid view") → emits P (airtableGetAll fetch cfg).
Proof.
  intros HP. unfold airtableGetAll.
  destruct (_ || _); [apply emits_ret|].
  apply emits_bind; [by apply emits_do_fetch|].
  intros res. destruct (negb (ok res)); [apply emits_ret|].
  apply emits_bind; [apply emits_res_json | intros; apply emits_ret].
Qed.

Lemma emits_upsert P p d :
  (∀ r, upsert_request p d r → P r) →
  emits P (airtableCreateOrUpdate fetch cfg p d).
Proof.
  intros HP. unfold airtableCreateOrUpdate.
  destruct (_ || _); [apply emits_raise|].
  apply emits_bind; [apply emits_do_fetch, HP; by left|].
  intros found.
  destruct (records _) as [[|rec rs]|];
    (apply emits_bind; [apply emits_do_fetch, HP | intros; apply emits_res_json]);
    unfold upsert_request; eauto.
Qed.

(** Every request of a call is a message to the chat, or the listing when
    the command is the list of payments, or a request of the upsert when
    the command is an update that passed its checks. *)
Lemma handleCommand_requests P now chatId userId txt message :
  (∀ t mode, P (reply chatId t mode)) →
  (cmd_of txt = "/getpayments" ∨ cmd_of txt = "/payments" →
   P (AirtableList 50 "Grid view")) →
  (cmd_of txt = "/setpayment" ∨ cmd_of txt = "setpayment" →
   isAdmin cfg userId = true →
   airtable_configured cfg = true →
   In (provider_of txt) ALLOWED_PROVIDERS →
   ∀ r, upsert_request (provider_of txt) (details_of txt) r → P r) →
  emits P (handleCommand fetch cfg now chatId userId txt message).
Proof.
  intros Hreply Hlist Hupsert.
  assert (Hsend : ∀ t mode, emits P (sendMessage fetch chatId t mode))
    by (intros; apply emits_sendMessage, Hreply).
  unfold handleCommand.
  apply emits_bind; [apply emits_allowRateM|]. intros allowed.
  destruct (negb allowed); [apply Hsend|].
  unfold route.
  destruct (_ || _); [apply Hsend|].
  destruct (_ || _); [apply Hsend|].
  destruct (_ || _) eqn:Eset.
  { apply orb_eqb_or in Eset. unfold cmd_setpayment.
    destruct (isAdmin cfg userId) eqn:Hadm; cbn [negb]; [|apply Hsend].
    destruct (_ <? _); [apply Hsend|].
    fold (provider_of txt). fold (details_of txt).
    destruct (includes ALLOWED_PROVIDERS _) eqn:Hin; cbn [negb]; [|apply Hsend].
    apply includes_In in Hin.
    apply emits_try_catch; [|intros; apply Hsend].
    destruct (airtable_configured cfg) eqn:Hcfg; [|apply Hsend].
    apply emits_bind; [|intros; apply Hsend].
    apply emits_upsert. by apply Hupsert. }
  destruct (String.eqb _ "/getpayments" || _) eqn:Eget.
  { apply orb_eqb_or in Eget. unfold cmd_getpayments.
    apply emits_try_catch; [|intros; apply Hsend].
    apply emits_bind; [by apply emits_listing, Hlist|].
    intros [|r rs]; apply Hsend. }
  destruct (startsWith_slash txt); apply Hsend.
Qed.

(** X9.  A call only ever writes to the chat it answers: every request it
    sends to Telegram is a [sendMessage] whose [chat_id] is the chat of
    the message, whatever the text, the sender and the state. *)
Theorem handleCommand_answers_own_chat now chatId userId txt message :
  emits (to_chat chatId) (handleCommand fetch cfg now chatId userId txt message).
Proof.
  apply handleCommand_requests.
  - by intros t mode.
  - done.
  - intros _ _ _ _ r [->|[->|[i ->]]]; done.
Qed.

(** X10.  The table is written only on behalf of an administrator: a call
    sends a patch or a creation only when the command word is
    [/setpayment] or [setpayment], the sender is an administrator, the
    store is configured and the provider is one of the allowed ones; and
    what it then writes is that provider with the details of the
    message. *)
Theorem handleCommand_writes_guarded now chatId userId txt message :
  emits (fun r =>
           is_write r = true →
           (cmd_of txt = "/setpayment" ∨ cmd_of txt = "setpayment")
           ∧ isAdmin cfg userId = true
           ∧ airtable_configured cfg = true
           ∧ In (provider_of txt) ALLOWED_PROVIDERS
           ∧ (r = AirtableCreate (provider_of txt) (details_of txt)
              ∨ ∃ i, r = AirtablePatch i (provider_of txt) (details_of txt)))
    (handleCommand fetch cfg now chatId userId txt message).
Proof.
  apply handleCommand_requests.
  - intros t mode H. discriminate H.
  - intros _ H. discriminate H.
  - intros Hcmd Hadm Hcfg Hin r [->|[->|[i ->]]] H.
    + discriminate H.
    + repeat split; auto.
    + repeat split; eauto.
Qed.

(** X11.  The store is contacted only by the two commands that need it:
    when the command word is none of [/setpayment], [setpayment],
    [/getpayments] and [/payments], the call sends no request to the
    store. *)
Theorem handleCommand_store_untouched now chatId userId txt message s :
  cmd_of txt ≠ "/setpayment" → cmd_of txt ≠ "setpayment" →
  cmd_of txt ≠ "/getpayments" → cmd_of txt ≠ "/payments" →
  store_calls (snd (handleCommand fetch cfg now chatId userId txt message s))
  = store_calls s.
Proof.
  intros H1 H2 H3 H4.
  destruct (handleCommand_requests (fun r => is_airtable r = false)
              now chatId userId txt message) with (s := s) as (new & Htr & Hnew).
  - done.
  - intros [H|H]; contradiction.
  - intros [H|H]; contradiction.
  - unfold store_calls. rewrite Htr, List.filter_app.
    replace (List.filter is_airtable new) with (@nil request); [apply app_nil_r|].
    clear Htr. induction Hnew as [|r new Hr _ IH]; [done|].
    cbn. by rewrite Hr.
Qed.

Lemma sendMessage_returns chatId t mode s :
  telegram_responds fetch → fst (sendMessage fetch chatId t mode s) = Returned tt.
Proof.
  intros Htg. unfold sendMessage, tg, bind, do_fetch.
  specialize (Htg "sendMessage" {| chat_id := chatId; text := t; parse_mode := mode |}
                (world s)).
  by destruct (fetch _ (world s)) as [[|res] w].
Qed.

Lemma sendMessage_run chatId t mode s :
  telegram_responds fetch →
  sendMessage fetch chatId t mode s
  = (Returned tt, {| rateMap := rateMap s;
                     world := snd (fetch (reply chatId t mode) (world s));
                     trace := trace s ++ [reply chatId t mode] |}).
Proof.
  intros Htg. rewrite <- sendMessage_state, <- (sendMessage_returns chatId t mode s Htg).
  by destruct (sendMessage fetch chatId t mode s).
Qed.

Lemma replies_once_send chatId t mode :
  telegram_responds fetch → replies_once chatId (sendMessage fetch chatId t mode).
Proof.
  intros Htg s. exists [], t, mode. rewrite sendMessage_run by done. cbn.
  split; [done|]. split; [done|]. constructor.
Qed.

Lemma replies_once_try_bind {A} chatId (m : M World A) (k : A → M World unit)
  (h : string → M World unit) :
  telegram_responds fetch →
  emits (fun r => is_airtable r = true) m →
  (∀ a, ∃ t mode, k a = sendMessage fetch chatId t mode) →
  (∀ err, ∃ t mode, h err = sendMessage fetch chatId t mode) →
  replies_once chatId (try_catch (bind m k) h).
Proof.
  intros Htg Hm Hk Hh s. unfold try_catch, bind.
  destruct (Hm s) as (pre & Etr & Fpre).
  destruct (m s) as [[a|err] s1]; cbn in Etr.
  - destruct (Hk a) as (t & mode & ->). rewrite sendMessage_run by done. cbn.
    exists pre, t, mode. rewrite Etr, <- app_assoc. done.
  - destruct (Hh err) as (t & mode & ->). rewrite sendMessage_run by done. cbn.
    exists pre, t, mode. rewrite Etr, <- app_assoc. done.
Qed.

Lemma replies_once_try_send chatId t mode (h : string → M World unit) :
  telegram_responds fetch →
  replies_once chatId (try_catch (sendMessage fetch chatId t mode) h).
Proof.
  intros Htg s. unfold try_catch. rewrite sendMessage_run by done. cbn.
  exists [], t, mode. split; [done|]. split; [done|]. constructor.
Qed.

(** X12.  One message, one reply: when the Bot API answers the requests
    it gets (with whatever status), every call of [handleCommand] returns
    without raising, and what it sends is some requests to the store
    followed by exactly one message to the chat. *)
Theorem handleCommand_replies_once now chatId userId txt message :
  telegram_responds fetch →
  replies_once chatId (handleCommand fetch cfg now chatId userId txt message).
Proof.
  intros Htg.
  assert (Hsend : ∀ t mode, replies_once chatId (sendMessage fetch chatId t mode))
    by (intros; by apply replies_once_send).
  assert (Hbody : replies_once chatId (route fetch cfg chatId userId txt message)).
  { unfold route.
    destruct (_ || _); [apply Hsend|].
    destruct (_ || _); [apply Hsend|].
    destruct (_ || _).
    { unfold cmd_setpayment.
      destruct (negb _); [apply Hsend|].
      destruct (_ <? _); [apply Hsend|].
      destruct (negb _); [apply Hsend|].
      destruct (airtable_configured cfg); [|by apply replies_once_try_send].
      apply replies_once_try_bind; eauto.
      by apply emits_airtableCreateOrUpdate. }
    destruct (_ || _).
    { unfold cmd_getpayments.
      apply replies_once_try_bind; eauto.
      - by apply emits_airtableGetAll.
      - intros [|r rs]; eauto. }
    destruct (startsWith_slash txt); apply Hsend. }
  intros s. rewrite handleCommand_gate.
  destruct (admitted now chatId s).
  - apply (Hbody (after_gate now chatId s)).
  - apply (Hsend SLOW_DOWN None (after_gate now chatId s)).
Qed.

End Requests.

Lemma telegram_ok_responds : telegram_responds (Store.fetch telegram_ok).
Proof. intros method body w. discriminate. Qed.

Lemma handleCommand_store_untouched_witness :
  store_calls (snd (handleCommand (Store.fetch telegram_ok) cfg_admins 0 7 (Some 5)
                      ("/start" +:+ utf8 160 +:+ "now") Message.empty fresh_instance))
  = store_calls fresh_instance.
Proof.
  apply handleCommand_store_untouched; vm_compute; discriminate.
Defined.

Lemma handleCommand_replies_once_witness :
  ∃ pre txt mode,
    fst (handleCommand (Store.fetch telegram_ok) cfg_admins 0 7 (Some 1001)
           "/setpayment jazzcash 0300-1234567" Message.empty fresh_instance)
    = Returned tt
    ∧ trace (snd (handleCommand (Store.fetch telegram_ok) cfg_admins 0 7 (Some 1001)
                    "/setpayment jazzcash 0300-1234567" Message.empty fresh_instance))
      = trace fresh_instance ++ pre ++ [reply 7 txt mode]
    ∧ Forall (fun r => is_airtable r = true) pre.
Proof.
  apply (handleCommand_replies_once (Store.fetch telegram_ok) cfg_admins 0 7 (Some 1001)
           "/setpayment jazzcash 0300-1234567" Message.empty telegram_ok_responds
           fresh_instance).
Defined.

Lemma handleCommand_writes_guarded_witness :
  ∃ new,
    trace (snd (handleCommand (Store.fetch telegram_ok) cfg_admins 0 7 (Some 1001)
                  ("/setpayment jazzcash" +:+ utf8 160 +:+ "0300") Message.empty fresh_instance))
    = trace fresh_instance ++ new
    ∧ Forall
        (fun r =>
           is_write r = true →
           (cmd_of ("/setpayment jazzcash" +:+ utf8 160 +:+ "0300") = "/setpayment"
            ∨ cmd_of ("/setpayment jazzcash" +:+ utf8 160 +:+ "0300") = "setpayment")
           ∧ isAdmin cfg_admins (Some 1001) = true
           ∧ airtable_configured cfg_admins = true
           ∧ In (provider_of ("/setpayment jazzcash" +:+ utf8 160 +:+ "0300")) ALLOWED_PROVIDERS
           ∧ (r = AirtableCreate (provider_of ("/setpayment jazzcash" +:+ utf8 160 +:+ "0300"))
                    (details_of ("/setpayment jazzcash" +:+ utf8 160 +:+ "0300"))
              ∨ ∃ i, r = AirtablePatch i (provider_of ("/setpayment jazzcash" +:+ utf8 160 +:+ "0300"))
                           (details_of ("/setpayment jazzcash" +:+ utf8 160 +:+ "0300"))))
        new.
Proof.
  apply (handleCommand_writes_guarded (Store.fetch telegram_ok) cfg_admins 0 7 (Some 1001)
           ("/setpayment jazzcash" +:+ utf8 160 +:+ "0300") Message.empty fresh_instance).
Defined.

(** ** The replies of the two store commands *)

Section StoreCommands.

Context {World : Type}.
Variable fetch : request → World → fetch_outcome * World.
Variable cfg : Config.
Implicit Types (s : State World).

Lemma handleCommand_admitted now chatId userId txt message s :
  admitted now chatId s = true →
  handleCommand fetch cfg now chatId userId txt message s
  = route fetch cfg chatId userId txt message (after_gate now chatId s).
Proof. intros H. by rewrite handleCommand_gate, H. Qed.

(** The [/setpayment] block once the sender, the number of tokens and the
    provider have passed the checks. *)
Lemma cmd_setpayment_checked chatId userId txt :
  isAdmin cfg userId = true →
  (3 ≤ length (parts_of txt))%nat →
  In (provider_of txt) ALLOWED_PROVIDERS →
  cmd_setpayment fetch cfg chatId userId (parts_of txt)
  = try_catch
      (if airtable_configured cfg
       then bind (airtableCreateOrUpdate fetch cfg (provider_of txt) (details_of txt))
              (fun _ => sendMessage fetch chatId (UPDATED (provider_of txt)) Markdown)
       else sendMessage fetch chatId
              (CONFIGURED (provider_of txt) (details_of txt)) None)
      (fun err => sendMessage fetch chatId FAILED_UPDATE None).
Proof.
  intros Hadm Hlen Hin. unfold cmd_setpayment. rewrite Hadm. cbn [negb].
  destruct (Z.ltb_spec (Z.of_nat (length (parts_of txt))) 3); [lia|].
  fold (provider_of txt). fold (details_of txt).
  by rewrite (proj2 (includes_In _ _) Hin).
Qed.

(** X13.  Without Airtable credentials an update is not an error: an
    administrator's valid [/setpayment] is answered, as plain text, with
    [Configured <provider>: <details>], and no request goes to the
    store. *)
Theorem setpayment_echo_when_unconfigured now chatId userId txt message s :
  telegram_responds fetch →
  admitted now chatId s = true →
  cmd_of txt = "/setpayment" ∨ cmd_of txt = "setpayment" →
  isAdmin cfg userId = true →
  (3 ≤ length (parts_of txt))%nat →
  In (provider_of txt) ALLOWED_PROVIDERS →
  airtable_configured cfg = false →
  trace (snd (handleCommand fetch cfg now chatId userId txt message s))
  = trace s ++ [reply chatId (CONFIGURED (provider_of txt) (details_of txt)) None].
Proof.
  intros Htg Hgate Hcmd Hadm Hlen Hin Hcfg.
  rewrite handleCommand_admitted, route_setpayment, cmd_setpayment_checked by done.
  rewrite Hcfg. unfold try_catch. by rewrite sendMessage_run.
Qed.

(** X14.  The upsert does not look at the status of the answers of the
    store.  When the search is answered without records (a body that is
    not JSON, or an object with no record in it) and the creation is
    answered with any JSON body, then, whatever the status of the two
    answers, also an error, the call sends the search, the creation and
    the confirmation that the provider was updated. *)
Theorem setpayment_confirms_whatever_status now chatId userId txt message s :
  telegram_responds fetch →
  admitted now chatId s = true →
  cmd_of txt = "/setpayment" ∨ cmd_of txt = "setpayment" →
  isAdmin cfg userId = true →
  (3 ≤ length (parts_of txt))%nat →
  In (provider_of txt) ALLOWED_PROVIDERS →
  airtable_configured cfg = true →
  (∀ w, ∃ res w',
     fetch (AirtableFind (provider_of txt)) w = (Responded res, w')
     ∧ match json res with
       | Some j => records j = None ∨ records j = Some []
       | None => True
       end) →
  (∀ w, ∃ res w' j,
     fetch (AirtableCreate (provider_of txt) (details_of txt)) w = (Responded res, w')
     ∧ json res = Some j) →
  trace (snd (handleCommand fetch cfg now chatId userId txt message s))
  = trace s ++ [AirtableFind (provider_of txt);
                AirtableCreate (provider_of txt) (details_of txt);
                reply chatId (UPDATED (provider_of txt)) Markdown].
Proof.
  intros Htg Hgate Hcmd Hadm Hlen Hin Hcfg Hfind Hcreate.
  rewrite handleCommand_admitted, route_setpayment, cmd_setpayment_checked by done.
  rewrite Hcfg. unfold try_catch, bind at 1, airtableCreateOrUpdate.
  unfold airtable_configured in Hcfg. apply andb_prop in Hcfg as [-> ->]. cbn [negb orb].
  unfold bind at 1, do_fetch at 1. cbn [world trace rateMap after_gate].
  destruct (Hfind (world s)) as (res & w1 & -> & Hres).
  assert (Hnone : match records match json res with
                                 | Some j => j
                                 | None => {| records := Some [] |}
                                 end with
                  | Some (rec :: _) => False
                  | _ => True
                  end).
  { destruct (json res) as [j|]; [|done]. by destruct Hres as [-> | ->]. }
  destruct (records _) as [[|rec rs]|]; try contradiction;
    unfold bind, do_fetch; cbn [world trace rateMap];
    destruct (Hcreate w1) as (res2 & w2 & j2 & -> & Hj2);
    unfold res_json; rewrite Hj2; cbn;
    rewrite sendMessage_run by done; cbn;
    by rewrite <- !app_assoc.
Qed.

(** X15.  When the store cannot be reached, the request of the search
    being rejected, nothing is written and the sender is told that the
    update failed. *)
Theorem setpayment_reports_unreachable_store now chatId userId txt message s :
  telegram_responds fetch →
  admitted now chatId s = true →
  cmd_of txt = "/setpayment" ∨ cmd_of txt = "setpayment" →
  isAdmin cfg userId = true →
  (3 ≤ length (parts_of txt))%nat →
  In (provider_of txt) ALLOWED_PROVIDERS →
  airtable_configured cfg = true →
  fst (fetch (AirtableFind (provider_of txt)) (world s)) = Rejected →
  trace (snd (handleCommand fetch cfg now chatId userId txt message s))
  = trace s ++ [AirtableFind (provider_of txt); reply chatId FAILED_UPDATE None].
Proof.
  intros Htg Hgate Hcmd Hadm Hlen Hin Hcfg Hfind.
  rewrite handleCommand_admitted, route_setpayment, cmd_setpayment_checked by done.
  rewrite Hcfg. unfold try_catch, bind at 1, airtableCreateOrUpdate.
  unfold airtable_configured in Hcfg. apply andb_prop in Hcfg as [-> ->]. cbn [negb orb].
  unfold bind at 1, do_fetch at 1. cbn [world trace rateMap after_gate].
  destruct (fetch _ (world s)) as [o w1]. cbn in Hfind. subst o.
  rewrite sendMessage_run by done. cbn. by rewrite <- app_assoc.
Qed.

(** X16.  What [/getpayments] answers, by what the store does.  Without
    credentials, or when the store answers with a status that is not a
    success, or with a success and no record, the answer is that nothing
    is configured; a failure of the store is not told apart from an empty
    table.  The answer is the reading error only when the request is
    rejected or a successful answer is not JSON.  With records, the answer
    is their list, in Markdown. *)
Theorem getpayments_replies now chatId userId txt message s :
  telegram_responds fetch →
  admitted now chatId s = true →
  cmd_of txt = "/getpayments" ∨ cmd_of txt = "/payments" →
  let sent := trace (snd (handleCommand fetch cfg now chatId userId txt message s)) in
  let listing := AirtableList 50 "Grid view" in
  (airtable_configured cfg = false →
     sent = trace s ++ [reply chatId NONE_CONFIGURED None])
  ∧ (airtable_configured cfg = true →
     match fst (fetch listing (world s)) with
     | Rejected => sent = trace s ++ [listing; reply chatId READ_ERROR None]
     | Responded res =>
         if ok res
         then match json res with
              | None => sent = trace s ++ [listing; reply chatId READ_ERROR None]
              | Some j =>
                  match records j with
                  | Some (r :: rs) =>
                      sent = trace s ++ [listing;
                                         reply chatId (payments_text (r :: rs)) Markdown]
                  | _ => sent = trace s ++ [listing; reply chatId NONE_CONFIGURED None]
                  end
              end
         else sent = trace s ++ [listing; reply chatId NONE_CONFIGURED None]
     end).
Proof.
  intros Htg Hgate Hcmd sent listing. subst sent.
  rewrite handleCommand_admitted, route_getpayments by done.
  unfold cmd_getpayments, try_catch, bind at 1, airtableGetAll. split.
  - unfold airtable_configured. intros Hcfg.
    replace (negb (truthy (AIRTABLE_API_KEY cfg)) || negb (truthy (AIRTABLE_BASE_ID cfg)))
      with true
      by (by destruct (truthy (AIRTABLE_API_KEY cfg)), (truthy (AIRTABLE_BASE_ID cfg))).
    cbn. by rewrite sendMessage_run.
  - unfold airtable_configured. intros [-> ->]%andb_prop. cbn [negb orb].
    unfold bind, do_fetch. cbn [world trace rateMap after_gate].
    fold listing.
    destruct (fetch listing (world s)) as [[|res] w1]; cbn [fst].
    + rewrite sendMessage_run by done. cbn. by rewrite <- app_assoc.
    + destruct (ok res); cbn [negb].
      * unfold res_json. destruct (json res) as [j|]; cbn.
        -- destruct (records j) as [[|r rs]|];
             rewrite sendMessage_run by done; cbn; by rewrite <- app_assoc.
        -- rewrite sendMessage_run by done. cbn. by rewrite <- app_assoc.
      * cbn. rewrite sendMessage_run by done. cbn. by rewrite <- app_assoc.
Qed.

End StoreCommands.

Lemma fetch_unauthorized_responds : telegram_responds fetch_unauthorized.
Proof. intros method body w. discriminate. Qed.

Lemma fetch_unreachable_responds : telegram_responds fetch_unreachable.
Proof. intros method body w. discriminate. Qed.

Lemma setpayment_echo_when_unconfigured_witness :
  trace (snd (handleCommand (Store.fetch telegram_ok) cfg_bare 0 7 (Some 5)
                ("/setpayment JazzCash 0300" +:+ utf8 160 +:+ "1234567") Message.empty fresh_instance))
  = [reply 7 (CONFIGURED "jazzcash" "0300 1234567") None].
Proof.
  apply (setpayment_echo_when_unconfigured (Store.fetch telegram_ok) cfg_bare 0 7 (Some 5)
           ("/setpayment JazzCash 0300" +:+ utf8 160 +:+ "1234567") Message.empty fresh_instance
           telegram_ok_responds).
  - reflexivity.
  - left. reflexivity.
  - reflexivity.
  - vm_compute. lia.
  - vm_compute. auto.
  - reflexivity.
Defined.

(** A store that answers 401 to everything: the sender is told the
    provider was updated. *)
Lemma setpayment_confirms_whatever_status_witness :
  trace (snd (handleCommand fetch_unauthorized cfg_open 0 7 (Some 5)
                ("/setpayment jazzcash" +:+ utf8 160 +:+ "0300") Message.empty stateless_instance))
  = [AirtableFind "jazzcash"; AirtableCreate "jazzcash" "0300";
     reply 7 (UPDATED "jazzcash") Markdown].
Proof.
  apply (setpayment_confirms_whatever_status fetch_unauthorized cfg_open 0 7 (Some 5)
           ("/setpayment jazzcash" +:+ utf8 160 +:+ "0300") Message.empty stateless_instance
           fetch_unauthorized_responds).
  - reflexivity.
  - left. reflexivity.
  - reflexivity.
  - vm_compute. lia.
  - vm_compute. auto.
  - reflexivity.
  - intros w. eexists _, _. split; [reflexivity|]. left. reflexivity.
  - intros w. eexists _, _, _. split; reflexivity.
Defined.

Lemma setpayment_reports_unreachable_store_witness :
  trace (snd (handleCommand fetch_unreachable cfg_open 0 7 (Some 5)
                ("/setpayment" +:+ utf8 160 +:+ "jazzcash" +:+ utf8 160 +:+ "0300") Message.empty stateless_instance))
  = [AirtableFind "jazzcash"; reply 7 FAILED_UPDATE None].
Proof.
  apply (setpayment_reports_unreachable_store fetch_unreachable cfg_open 0 7 (Some 5)
           ("/setpayment" +:+ utf8 160 +:+ "jazzcash" +:+ utf8 160 +:+ "0300") Message.empty stateless_instance
           fetch_unreachable_responds).
  - reflexivity.
  - left. reflexivity.
  - reflexivity.
  - vm_compute. lia.
  - vm_compute. auto.
  - reflexivity.
  - reflexivity.
Defined.

(** Two rows are listed in the order of the table; a store that answers
    401 looks like an empty table. *)
Lemma getpayments_replies_witness :
  trace (snd (handleCommand (Store.fetch telegram_ok) cfg_open 0 7 (Some 5)
                "/getpayments" Message.empty
                (instance_with [Store.row "jazzcash" "A"; Store.row "easypaisa" "B"])))
  = [AirtableList 50 "Grid view";
     reply 7 (payments_text
                (Store.rows [Store.row "jazzcash" "A"; Store.row "easypaisa" "B"]))
       Markdown]
  ∧ trace (snd (handleCommand fetch_unauthorized cfg_open 0 7 (Some 5)
                  "/payments" Message.empty stateless_instance))
    = [AirtableList 50 "Grid view"; reply 7 NONE_CONFIGURED None].
Proof.
  split.
  - exact (proj2 (getpayments_replies (Store.fetch telegram_ok) cfg_open 0 7 (Some 5)
                    "/getpayments" Message.empty
                    (instance_with [Store.row "jazzcash" "A"; Store.row "easypaisa" "B"])
                    telegram_ok_responds eq_refl (or_introl eq_refl)) eq_refl).
  - exact (proj2 (getpayments_replies fetch_unauthorized cfg_open 0 7 (Some 5)
                    "/payments" Message.empty stateless_instance
                    fetch_unauthorized_responds eq_refl (or_intror eq_refl)) eq_refl).
Defined.

(** ** The list of payment records *)

Section PaymentList.

Lemma concat_lines_cons x xs :
  String.concat EmptyString (x :: xs) = x +:+ String.concat EmptyString xs.
Proof. destruct xs; [by rewrite append_empty_r | done]. Qed.

Lemma fold_lines rs :
  ∀ out, fold_left (fun out r => out +:+ payment_line r) rs out
         = out +:+ String.concat EmptyString (List.map payment_line rs).
Proof.
  induction rs as [|r rs IH]; intros out.
  - cbn. by rewrite append_empty_r.
  - cbn [fold_left List.map]. by rewrite IH, concat_lines_cons, append_assoc.
Qed.

(** X17.  The list of [/getpayments] is the header followed by one line
    per record, in the order in which the store returned the records; so
    the list of records put end to end is the list of the first ones
    followed by the lines of the others. *)
Theorem payments_text_lines :
  (∀ rs, payments_text rs
         = PAYMENTS_HEADER +:+ String.concat EmptyString (List.map payment_line rs))
  ∧ (∀ rs1 rs2, payments_text (rs1 ++ rs2)
                = payments_text rs1
                  +:+ String.concat EmptyString (List.map payment_line rs2)).
Proof.
  split.
  - intros rs. apply fold_lines.
  - intros rs1 rs2. unfold payments_text.
    by rewrite fold_left_app, fold_lines.
Qed.

End PaymentList.

(** ** The entry point, continued *)

Section HandlerMore.

Context {World : Type}.
Variable fetch : request → World → fetch_outcome * World.
Variable cfg : Config.
Implicit Types (s : State World).

(** X18.  The chat and the sender always come from the message the
    handler selected ([message], else [edited_message], else the message
    of [callback_query]): the second look at [update.message] never finds
    an identifier that the first look did not find. *)
Theorem ids_come_from_selected_message (u : Update.t) :
  update_chatId u = chat_id_of (Some (update_message u))
  ∧ update_fromId u = from_id_of (Some (update_message u)).
Proof.
  unfold update_chatId, update_fromId, update_message.
  destruct (Update.message u) as [m|].
  - split.
    + by destruct (chat_id_of (Some m)).
    + by destruct (from_id_of (Some m)).
  - split.
    + by destruct (chat_id_of _).
    + by destruct (from_id_of _).
Qed.

(** For a POST with a chat identifier, what the handler does to the state
    is what [handleCommand] does, whether it returns or raises. *)
Lemma handler_runs_command now (event : Event) u chatId s :
  httpMethod event = "POST" →
  body_json event = ParsedObject u →
  update_chatId u = Some chatId →
  snd (handler fetch cfg now event s)
  = snd (handleCommand fetch cfg now chatId (update_fromId u)
           (trim (or_lit (Message.text (update_message u)) EmptyString))
           (update_message u) s).
Proof.
  intros Hpost Hbody Hchat. unfold handler, try_catch.
  rewrite Hpost, Hbody, String.eqb_refl. cbn [negb]. unfold bind at 1.
  cbn [parse_update ret].
  rewrite Hchat. unfold bind.
  by destruct (handleCommand _ _ _ _ _ _ _ s) as [[[]|err] s1].
Qed.

Lemma route_blank chatId userId message :
  route fetch cfg chatId userId EmptyString message
  = sendMessage fetch chatId NOT_A_COMMAND None.
Proof. reflexivity. Qed.

(** X19.  A message without text (a photo, a sticker, a text of white
    space only) is treated as ordinary text: it uses the rate limiter like
    any message and is answered with the hint at the commands, or with the
    slow-down notice, and no request goes to the store. *)
Theorem handler_answers_blank_message now (event : Event) u chatId s :
  httpMethod event = "POST" →
  body_json event = ParsedObject u →
  update_chatId u = Some chatId →
  trim (or_lit (Message.text (update_message u)) EmptyString) = EmptyString →
  trace (snd (handler fetch cfg now event s))
  = trace s ++ [reply chatId (if admitted now chatId s
                              then NOT_A_COMMAND else SLOW_DOWN) None]
  ∧ rateMap (snd (handler fetch cfg now event s))
    = snd (allowRate now chatId (rateMap s)).
Proof.
  intros Hpost Hbody Hchat Hblank.
  rewrite (handler_runs_command now event u chatId s) by done.
  rewrite Hblank. split.
  - apply gated_reply_trace. by rewrite route_blank.
  - rewrite handleCommand_gate.
    destruct (admitted now chatId s);
      [rewrite route_blank|]; by rewrite sendMessage_state.
Qed.

End HandlerMore.

Lemma handler_answers_blank_message_witness :
  trace (snd (handler (Store.fetch telegram_ok) cfg_admins 0 photo_event fresh_instance))
  = [reply 7 NOT_A_COMMAND None].
Proof.
  exact (proj1 (handler_answers_blank_message (Store.fetch telegram_ok) cfg_admins 0
                  photo_event photo_update 7 fresh_instance
                  eq_refl eq_refl eq_refl eq_refl)).
Defined.

(** ** What a call does to the state *)

Section Steps.

Context {World : Type}.
Variable fetch : request → World → fetch_outcome * World.
Variable cfg : Config.
Implicit Types (s : State World).

(** A relation between states that every request respects, and that is
    reflexive and transitive, holds between the states before and after
    the part of [handleCommand] that follows the rate limiter. *)
Section Relation.

Variable R : State World → State World → Prop.
Hypothesis R_refl : ∀ s, R s s.
Hypothesis R_trans : ∀ s1 s2 s3, R s1 s2 → R s2 s3 → R s1 s3.
Hypothesis R_fetch : ∀ r s, R s (snd (do_fetch fetch r s)).

Lemma steps_bind {A B} (m : M World A) (k : A → M World B) :
  (∀ s, R s (snd (m s))) → (∀ a s, R s (snd (k a s))) → ∀ s, R s (snd (bind m k s)).
Proof.
  intros Hm Hk s. unfold bind. specialize (Hm s).
  destruct (m s) as [[a|err] s1]; [|done].
  eapply R_trans; [exact Hm | apply Hk].
Qed.

Lemma steps_try_catch {A} (m : M World A) (h : string → M World A) :
  (∀ s, R s (snd (m s))) → (∀ err s, R s (snd (h err s))) →
  ∀ s, R s (snd (try_catch m h s)).
Proof.
  intros Hm Hh s. unfold try_catch. specialize (Hm s).
  destruct (m s) as [[a|err] s1]; [done|].
  eapply R_trans; [exact Hm | apply Hh].
Qed.

Lemma steps_sendMessage chatId t mode s : R s (snd (sendMessage fetch chatId t mode s)).
Proof.
  unfold sendMessage, tg. apply steps_bind; [apply R_fetch|]. intros a s'. apply R_refl.
Qed.

Lemma steps_res_json res s : R s (snd (res_json (World := World) res s)).
Proof. unfold res_json. destruct (json res); apply R_refl. Qed.

Lemma steps_airtableGetAll s : R s (snd (airtableGetAll fetch cfg s)).
Proof.
  revert s. unfold airtableGetAll.
  destruct (_ || _); [apply R_refl|].
  apply steps_bind; [apply R_fetch|]. intros res.
  destruct (negb (ok res)); [apply R_refl|].
  apply steps_bind; [apply steps_res_json | intros; apply R_refl].
Qed.

Lemma steps_upsert p d s : R s (snd (airtableCreateOrUpdate fetch cfg p d s)).
Proof.
  revert s. unfold airtableCreateOrUpdate.
  destruct (_ || _); [apply R_refl|].
  apply steps_bind; [apply R_fetch|]. intros found.
  destruct (records _) as [[|rec rs]|];
    (apply steps_bind; [apply R_fetch | intros; apply steps_res_json]).
Qed.

Lemma steps_route chatId userId txt message s :
  R s (snd (route fetch cfg chatId userId txt message s)).
Proof.
  revert s. unfold route.
  destruct (_ || _); [apply steps_sendMessage|].
  destruct (_ || _); [apply steps_sendMessage|].
  destruct (_ || _).
  { unfold cmd_setpayment.
    destruct (negb _); [apply steps_sendMessage|].
    destruct (_ <? _); [apply steps_sendMessage|].
    destruct (negb _); [apply steps_sendMessage|].
    apply steps_try_catch; [|intros; apply steps_sendMessage].
    destruct (airtable_configured cfg); [|apply steps_sendMessage].
    apply steps_bind; [apply steps_upsert | intros; apply steps_sendMessage]. }
  destruct (_ || _).
  { unfold cmd_getpayments.
    apply steps_try_catch; [|intros; apply steps_sendMessage].
    apply steps_bind; [apply steps_airtableGetAll|].
    intros [|r rs]; apply steps_sendMessage. }
  destruct (startsWith_slash txt); apply steps_sendMessage.
Qed.

End Relation.

(** X20.  Every message costs one unit of the rate limiter, whatever it
    is and whatever happens to it: after a call the rate-limit map is the
    one [allowRate] left, for a command, an unknown word, a refused
    message or a call that raised alike, so the bound on the stored
    counts is kept by every call. *)
Theorem handleCommand_rate_map now chatId userId txt message s :
  rateMap (snd (handleCommand fetch cfg now chatId userId txt message s))
  = snd (allowRate now chatId (rateMap s))
  ∧ (rate_bounded (rateMap s) →
     rate_bounded (rateMap (snd (handleCommand fetch cfg now chatId userId txt message s)))).
Proof.
  assert (Hmap : rateMap (snd (handleCommand fetch cfg now chatId userId txt message s))
                 = snd (allowRate now chatId (rateMap s))).
  { rewrite handleCommand_gate. destruct (admitted now chatId s).
    - apply (steps_route (fun s1 s2 => rateMap s2 = rateMap s1)); try done.
      + intros s1 s2 s3 H12 H23. by rewrite H23.
      + intros r s1. by rewrite do_fetch_state.
    - by rewrite sendMessage_state. }
  split; [exact Hmap|]. rewrite Hmap. apply allowRate_preserves_bound.
Qed.

End Steps.

Lemma handleCommand_rate_map_witness :
  rate_bounded (rateMap (snd (handleCommand (Store.fetch telegram_ok) cfg_admins 3 7
                                (Some 5) "/nothing" Message.empty fresh_instance))).
Proof.
  apply (proj2 (handleCommand_rate_map (Store.fetch telegram_ok) cfg_admins 3 7
                  (Some 5) "/nothing" Message.empty fresh_instance)).
  apply rate_bounded_empty.
Defined.

(** ** The table after a call *)

Section TableAfter.

Variable telegram : string → TgBody → fetch_outcome.
Variable cfg : Config.
Implicit Types (s : State Store.t).

Local Abbreviation F := (Store.fetch telegram).

(** What one upsert does to the table, with or without a second row for
    the provider. *)
Lemma upsert_table p d s :
  let st := world s in
  let st' := world (snd (airtableCreateOrUpdate F cfg p d s)) in
  st' = st
  ∨ (Store.records_for p st = [] ∧ st' = st ++ [Store.row p d])
  ∨ (∃ i f, st !! i = Some f ∧ Store.has_provider p f = true
            ∧ st' = <[i := Store.row p d]> st).
Proof.
  cbn zeta. unfold airtableCreateOrUpdate.
  destruct (_ || _); [by left|].
  unfold bind at 1, do_fetch at 1. cbn.
  destruct (List.filter _ (Store.rows (world s))) as [|r rs] eqn:Hfind.
  - apply find_rows_nil in Hfind. right; left.
    unfold bind, do_fetch. cbn. done.
  - apply find_rows_cons in Hfind as (l1 & f & l2 & Hst & Hid & Hf & _).
    cbn in Hid. right; right. exists (length l1), f.
    assert (Hlt : (length l1 <? length (world s))%nat = true)
      by (apply Nat.ltb_lt; rewrite Hst, length_app; cbn; lia).
    unfold bind, do_fetch, Store.fetch. cbn [world trace rateMap].
    rewrite Hid, Hlt. cbn. split; [|done].
    rewrite Hst. apply list_lookup_middle. done.
Qed.

(** X21.  A call never deletes a row and never touches more than one: the
    table after it is the table before it, or that table with one row
    appended for an allowed provider that had none, or that table with
    one row of an allowed provider replaced by the new row of that
    provider; so it is as long as before, or one row longer. *)
Theorem handleCommand_table now chatId userId txt message s :
  let st := world s in
  let st' := world (snd (handleCommand F cfg now chatId userId txt message s)) in
  (st' = st
   ∨ ∃ p d, In p ALLOWED_PROVIDERS
            ∧ ((Store.records_for p st = [] ∧ st' = st ++ [Store.row p d])
               ∨ ∃ i f, st !! i = Some f ∧ Store.has_provider p f = true
                        ∧ st' = <[i := Store.row p d]> st))
  ∧ (length st ≤ length st' ≤ S (length st))%nat.
Proof.
  cbn zeta.
  assert (Hshape :
    world (snd (handleCommand F cfg now chatId userId txt message s)) = world s
    ∨ ∃ p d, In p ALLOWED_PROVIDERS
             ∧ ((Store.records_for p (world s) = []
                 ∧ world (snd (handleCommand F cfg now chatId userId txt message s))
                   = world s ++ [Store.row p d])
                ∨ ∃ i f, world s !! i = Some f ∧ Store.has_provider p f = true
                         ∧ world (snd (handleCommand F cfg now chatId userId txt message s))
                           = <[i := Store.row p d]> (world s))).
  { rewrite handleCommand_gate.
    assert (Hread : ∀ (m : M Store.t unit),
              keeps (fun st => st = world s) m →
              world (snd (m (after_gate now chatId s))) = world s)
      by (intros m Hm; by apply Hm).
    destruct (admitted now chatId s); [|left; apply Hread, keeps_sendMessage].
    unfold route.
    destruct (_ || _); [left; apply Hread, keeps_sendMessage|].
    destruct (_ || _); [left; apply Hread, keeps_sendMessage|].
    destruct (_ || _).
    { unfold cmd_setpayment.
      destruct (negb _); [left; apply Hread, keeps_sendMessage|].
      destruct (_ <? _); [left; apply Hread, keeps_sendMessage|].
      destruct (includes ALLOWED_PROVIDERS _) eqn:Hin; cbn [negb];
        [|left; apply Hread, keeps_sendMessage].
      apply includes_In in Hin.
      destruct (airtable_configured cfg).
      2:{ left. apply Hread, keeps_try_catch; intros; apply keeps_sendMessage. }
      set (p := toLowerCase _) in *. set (d := join _ _).
      assert (Hsame :
        world (snd (try_catch
                      (bind (airtableCreateOrUpdate F cfg p d)
                         (fun _ => sendMessage F chatId (UPDATED p) Markdown))
                      (fun _ => sendMessage F chatId FAILED_UPDATE None)
                      (after_gate now chatId s)))
        = world (snd (airtableCreateOrUpdate F cfg p d (after_gate now chatId s)))).
      { unfold try_catch, bind.
        destruct (airtableCreateOrUpdate F cfg p d (after_gate now chatId s))
          as [[j|err] s1]; cbn [snd].
        - pose proof (sendMessage_world telegram chatId (UPDATED p) Markdown s1) as [Hw _].
          destruct (sendMessage F chatId (UPDATED p) Markdown s1) as [[u|err] s2];
            cbn in Hw |- *; [done|].
          by rewrite (proj1 (sendMessage_world telegram chatId FAILED_UPDATE None s2)).
        - by rewrite (proj1 (sendMessage_world telegram chatId FAILED_UPDATE None s1)). }
      rewrite Hsame.
      destruct (upsert_table p d (after_gate now chatId s)) as [H|[H|H]];
        cbn [world after_gate] in H; [by left | right; eauto | right; eauto]. }
    destruct (_ || _).
    { left. apply Hread. unfold cmd_getpayments.
      apply keeps_try_catch; [|intros; apply keeps_sendMessage].
      apply keeps_bind; [apply keeps_airtableGetAll|].
      intros [|r rs]; apply keeps_sendMessage. }
    left. destruct (startsWith_slash txt); apply Hread, keeps_sendMessage. }
  split; [exact Hshape|].
  destruct Hshape as [->|(p & d & _ & [[_ ->]|(i & f & _ & _ & ->)])].
  - lia.
  - rewrite length_app. cbn. lia.
  - rewrite length_insert. lia.
Qed.

End TableAfter.

(** ** Other texts, and repeated updates *)

Section Unrecognised.

Context {World : Type}.
Variable fetch : request → World → fetch_outcome * World.
Variable cfg : Config.
Implicit Types (s : State World).

(** X22.  Any other text: when the first token in lower case is none of the
    eight command words, the call sends one plain message and nothing
    else: the unknown-command notice when the text as passed starts with
    [/], the hint at the commands when it does not (a text that starts
    with white space before the [/] included), or the slow-down notice
    when the rate limiter refuses the message. *)
Theorem unrecognised_text_reply now chatId userId txt message s :
  ¬ In (cmd_of txt) COMMAND_WORDS →
  trace (snd (handleCommand fetch cfg now chatId userId txt message s))
  = trace s ++ [reply chatId
                  (if admitted now chatId s
                   then (if startsWith_slash txt then UNKNOWN_COMMAND else NOT_A_COMMAND)
                   else SLOW_DOWN) None].
Proof.
  intros Hnot. apply gated_reply_trace. by rewrite route_unrecognised.
Qed.

End Unrecognised.

Lemma unrecognised_text_reply_witness :
  trace (snd (handleCommand (Store.fetch telegram_ok) cfg_admins 0 7 (Some 5)
                (" /Help" +:+ utf8 160 +:+ "me") Message.empty fresh_instance))
  = [reply 7 NOT_A_COMMAND None].
Proof.
  apply (unrecognised_text_reply (Store.fetch telegram_ok) cfg_admins 0 7 (Some 5)
           (" /Help" +:+ utf8 160 +:+ "me") Message.empty fresh_instance).
  vm_compute. intros H.
  repeat (destruct H as [H|H]; [discriminate H|]). exact H.
Defined.

Section Repeated.

Variable telegram : string → TgBody → fetch_outcome.
Variable cfg : Config.
Implicit Types (s : State Store.t).

Local Abbreviation F := (Store.fetch telegram).

Lemma setpayment_world chatId userId txt s :
  isAdmin cfg userId = true →
  (3 ≤ length (parts_of txt))%nat →
  In (provider_of txt) ALLOWED_PROVIDERS →
  airtable_configured cfg = true →
  world (snd (cmd_setpayment F cfg chatId userId (parts_of txt) s))
  = world (snd (airtableCreateOrUpdate F cfg (provider_of txt) (details_of txt) s)).
Proof.
  intros Hadm Hlen Hin Hcfg.
  rewrite cmd_setpayment_checked by done. rewrite Hcfg.
  unfold try_catch, bind.
  destruct (airtableCreateOrUpdate F cfg _ _ s) as [[j|err] s1]; cbn [snd].
  - pose proof (sendMessage_world telegram chatId (UPDATED (provider_of txt)) Markdown s1)
      as [Hw _].
    destruct (sendMessage F chatId _ Markdown s1) as [[u|err] s2];
      cbn in Hw |- *; [done|].
    by rewrite (proj1 (sendMessage_world telegram chatId FAILED_UPDATE None s2)).
  - by rewrite (proj1 (sendMessage_world telegram chatId FAILED_UPDATE None s1)).
Qed.

Lemma row_found_is_only_row p d st i f :
  Store.records_for p st = [Store.row p d] →
  st !! i = Some f → Store.has_provider p f = true →
  <[i := Store.row p d]> st = st.
Proof.
  intros Hone Hi Hf. apply list_insert_id.
  assert (Hin : In f (Store.records_for p st)).
  { apply filter_In. split; [|done].
    apply list_elem_of_In, list_elem_of_lookup. eauto. }
  rewrite Hone in Hin. by destruct Hin as [<-|[]].
Qed.

(** X23.  Repeating an update changes nothing: in front of a configured
    store with at most one row per provider, once a [/setpayment] of an
    administrator for an allowed provider has been let through, a second
    message with the same provider and details, at any time, from any
    administrator and chat, and let through or not, leaves the table as
    the first one left it. *)
Theorem setpayment_twice_same_table (c c' : Call) (p d : string) s :
  airtable_configured cfg = true →
  Store.unique_providers (world s) →
  setpayment_call cfg c p d →
  setpayment_call cfg c' p d →
  admitted (call_now c) (call_chatId c) s = true →
  world (run_call F cfg c' (run_call F cfg c s)) = world (run_call F cfg c s).
Proof.
  intros Hcfg Hu (Hcmd & Hlen & Hp & Hin & Hd & Hadm)
         (Hcmd' & Hlen' & Hp' & Hin' & Hd' & Hadm') Hgate.
  assert (Hone : Store.records_for p (world (run_call F cfg c s)) = [Store.row p d]).
  { unfold run_call.
    rewrite handleCommand_gate, Hgate, route_setpayment by done.
    by apply (cmd_setpayment_upsert telegram cfg _ _ _ p d
                (after_gate (call_now c) (call_chatId c) s)). }
  set (s1 := run_call F cfg c s) in *.
  unfold run_call at 1. rewrite handleCommand_gate.
  destruct (admitted (call_now c') (call_chatId c') s1).
  - rewrite route_setpayment by done.
    rewrite setpayment_world by (unfold provider_of; rewrite ?Hp'; done).
    destruct (upsert_table telegram cfg (provider_of (call_text c'))
                (details_of (call_text c'))
                (after_gate (call_now c') (call_chatId c') s1)) as [H|[[H _]|H]];
      cbn [world after_gate] in H.
    + exact H.
    + unfold provider_of in H. rewrite Hp', Hone in H. discriminate H.
    + destruct H as (i & f & Hi & Hf & ->).
      unfold provider_of, details_of in *. rewrite Hp', Hd' in *.
      by eapply row_found_is_only_row.
  - by rewrite (proj1 (sendMessage_world telegram _ SLOW_DOWN None _)).
Qed.

End Repeated.

Lemma setpayment_twice_same_table_witness :
  world (run_call (Store.fetch telegram_ok) cfg_admins
           (call 1 8 1002 ("setpayment JAZZCASH" +:+ utf8 160 +:+ "0300-1234567"))
           (run_call (Store.fetch telegram_ok) cfg_admins
              (call 0 7 1001 "/setpayment jazzcash 0300-1234567") fresh_instance))
  = world (run_call (Store.fetch telegram_ok) cfg_admins
             (call 0 7 1001 "/setpayment jazzcash 0300-1234567") fresh_instance).
Proof.
  apply (setpayment_twice_same_table telegram_ok cfg_admins
           (call 0 7 1001 "/setpayment jazzcash 0300-1234567")
           (call 1 8 1002 ("setpayment JAZZCASH" +:+ utf8 160 +:+ "0300-1234567"))
           "jazzcash" "0300-1234567" fresh_instance).
  - reflexivity.
  - apply unique_providers_nil.
  - repeat split; vm_compute; auto.
  - repeat split; vm_compute; auto.
  - reflexivity.
Defined.
